(** * get_licenses.py: the Hackage license crawler

    A shallow embedding of [src/get_licenses.py] and the properties of its
    crawl loop ([Package.scrape]), of the license registry kept inside that
    loop, of the unused helper [unique_licenses] and of the report written by
    [main].

    Conventions of the embedding:
    - a Python [str] is a [string]; a value that may be [None] is an [option];
    - a Python [dict] is an association list in insertion order ([dict_set]
      overwrites in place or appends, as CPython does);
    - the [done] set is a [gset string];
    - the children lists of the dependency tree are mutable Python lists that
      are shared between the tree and the [todo] items: they live in a [heap]
      and are referred to by their location;
    - the outside world (HTTP server, file system) is an abstract state that
      is threaded through the calls; [hash], [str.strip] and the bs4 parser
      are functions supplied by the platform;
    - what the program prints with [warn], [error] and the progress line, and
      the HTTP exchanges it performs, are recorded in the [trace];
    - [DEBUG] is [False] (its value in the source), so [log] prints nothing;
    - the pacing with [time.sleep] only changes wall-clock time and is left
      out;
    - [requests.get] is taken to return a response, and the parser to find
      on a page the elements that the program reads, with a string in each:
      a run in which one of these calls raises is outside the embedding.
      The deaths that are embedded are those of the file system calls and
      of [os.path.join] on [None]; whatever is said about a run that dies
      is said about these;
    - Python fixes no order for the iteration of a [set]: the sections of
      the report come in an order chosen here, and only what does not
      depend on that order is stated about the report. *)

From Stdlib Require Import ZArith String Ascii List Lia.
From Stdlib Require Import DecimalString HexadecimalString HexadecimalPos HexadecimalN.
From Stdlib Require DecimalFacts DecimalNat.
From stdpp Require Import base decidable option list gmap strings sets relations.

Local Open Scope list_scope.
Set Warnings "-clear-no-such-hyp".

(** ** Python primitives *)

Module Py.

(** [str(n)] for a non-negative [int]. *)
Definition str_of_nat (n : nat) : string :=
  DecimalString.NilZero.string_of_uint (Nat.to_uint n).

(** The hexadecimal digits of [|z|], lower case, ["0"] for zero. *)
Definition hex_digits (z : Z) : string :=
  HexadecimalString.NilZero.string_of_uint (N.to_hex_uint (Z.abs_N z)).

(** [hex(z)]: ["0x1f"], ["-0x1f"], ["0x0"]. *)
Definition hex (z : Z) : string :=
  if (z <? 0)%Z then "-0x" +:+ hex_digits z else "0x" +:+ hex_digits z.

(** [s[n:]] *)
Fixpoint slice_from (n : nat) (s : string) : string :=
  match n, s with
  | O, _ => s
  | S _, EmptyString => EmptyString
  | S n', String _ s' => slice_from n' s'
  end.

(** [f"{x}"] for a value that is a [str] or [None]. *)
Definition fmt (x : option string) : string :=
  match x with
  | Some s => s
  | None => "None"
  end.

(** [needle in hay] on strings. *)
Fixpoint contains (needle hay : string) : bool :=
  String.prefix needle hay ||
  match hay with
  | EmptyString => false
  | String _ hay' => contains needle hay'
  end.

(** [os.path.join(a, b)] on a POSIX system. *)
Definition os_path_join (a b : string) : string :=
  if String.prefix "/" b then b
  else if String.eqb a "" then b
  else if String.eqb (slice_from (String.length a - 1) a) "/" then a +:+ b
  else a +:+ "/" +:+ b.

(** [l.pop()]: removes and returns the last item; [None] on an empty list
    (where Python raises [IndexError]). *)
Definition pop {A} (l : list A) : option (list A * A) :=
  match rev l with
  | [] => None
  | x :: r => Some (rev r, x)
  end.

End Py.

(** ** Dictionaries in insertion order *)

Abbreviation dict V := (list (string * V)).

Section Dict.
Context {V : Type}.

(** [d[k]], [None] where Python raises [KeyError]. *)
Fixpoint dict_get (d : dict V) (k : string) : option V :=
  match d with
  | [] => None
  | (k', v) :: d' => if decide (k = k') then Some v else dict_get d' k
  end.

(** [k in d] *)
Definition dict_mem (k : string) (d : dict V) : bool :=
  bool_decide (is_Some (dict_get d k)).

(** [d[k] = v]: a known key keeps its position, a new key goes last. *)
Fixpoint dict_set (d : dict V) (k : string) (v : V) : dict V :=
  match d with
  | [] => [(k, v)]
  | (k', v') :: d' =>
      if decide (k = k') then (k, v) :: d' else (k', v') :: dict_set d' k v
  end.

(** The keys in iteration order: [for k in d]. *)
Definition dict_keys (d : dict V) : list string := d.*1.

(** An in-place mutation of the object stored under [k]. *)
Fixpoint dict_update (f : V → V) (d : dict V) (k : string) : dict V :=
  match d with
  | [] => []
  | (k', v) :: d' =>
      if decide (k = k') then (k', f v) :: d' else (k', v) :: dict_update f d' k
  end.
End Dict.

(** ** Data model *)

(** [class License] *)
Record License := {
  name : option string;
  type : option string;
  shash : string;
  path : option string;
  packages : list string;
}.

(** [class Package] *)
Record Package := {
  ident : string;
  short : string;
  url : string;
  license : option string;
  license_url : option string;
  license_hash : option string;
}.

(** [License.__init__]: the packages list starts empty. *)
Definition License_init (name type : option string) (shash : string)
    (path : option string) : License :=
  {| name := name; type := type; shash := shash; path := path; packages := [] |}.

(** What [requests.get] returns, as far as the program reads it. *)
Record Response := {
  status_code : Z;
  text : string;
}.

(** What the program reads of a parsed package page. An [<a>] element:
    [a.string] and [a["href"]]. *)
Record Anchor := {
  a_string : string;
  a_href : string;
}.

(** A [<span>] of the dependency row: [d["style"]] and [d.a]. *)
Record Span := {
  span_style : string;
  span_a : Anchor;
}.

(** A [<tr>] of the properties table: [rule.th.string], [rule.td.a],
    [rule.td.string] and [rule.find_all("span")]. *)
Record Rule := {
  th_string : string;
  td_a : option Anchor;
  td_string : string;
  spans : list Span;
}.

(** The page: [div#content h1 small] and the rows of [div#properties]. *)
Record Page := {
  h1_small : string;
  rules : list Rule;
}.

(** Locations of the children lists of the dependency tree. *)
Definition loc := nat.

(** One entry of a children list: the tuple [(dident, ddeps)]. *)
Definition Child : Type := string * loc.

(** The value of the variable [tree]: the tuple [(ident, [])] built before
    the loop, or a children list once [todo.pop()] has been unpacked into it. *)
Inductive TreeVar :=
| TRoot (root : string) (children : loc)
| TList (children : loc).

(** What the run prints and the HTTP exchanges it performs, oldest first. *)
Inductive Event :=
| Progress (i total : nat)
| Warn (msg : string)
| Error (msg : string)
| GetPage (ident url : string) (r : Response)
| GetLicense (ident license_url : string) (r : Response).

(** ** The platform *)

(** The collaborators of the crawl: the HTTP server and the file system are a
    state [World] that every call may change; [str_hash] is Python's builtin
    [hash] on [str], which CPython salts per interpreter process; an
    [IOError] is the [inl] of its message. *)
Record Platform (World : Type) := {
  requests_get : World → string → Response * World;
  bs4_parse : string → Page;
  str_hash : string → Z;
  str_strip : string → string;
  os_path_exists : World → string → bool;
  os_makedirs : World → string → string + World;
  write_file : World → string → string → string + World;
}.
Arguments requests_get {World}.
Arguments bs4_parse {World}.
Arguments str_hash {World}.
Arguments str_strip {World}.
Arguments os_path_exists {World}.
Arguments os_makedirs {World}.
Arguments write_file {World}.

(** ** [Package.scrape] *)

(** The variables [license], [license_url] and [deps] of the parsing loop. *)
Record Props := {
  p_license : option string;
  p_license_url : option string;
  p_deps : list (string * string);
}.

Definition hackage : string := "https://hackage.haskell.org".

Definition warn_no_url (ident : string) : string :=
  "Failed to get license body for package '" +:+ ident +:+ "' (no URL given)".

Definition warn_no_page (ident : string) : string :=
  "Failed to get package '" +:+ ident +:+ "' (skipping it)".

Definition warn_no_body (ident : string) : string :=
  "Failed to get license body for package '" +:+ ident
  +:+ "' (cannot verify license hash)".

(** One round of [for rule in ....find_all("tr")]. *)
Definition scan_rule (ident : string) (acc : Props * list Event) (rule : Rule)
    : Props * list Event :=
  let '(p, out) := acc in
  if decide (th_string rule = "License") then
    match td_a rule with
    | Some a =>
        ({| p_license := Some (a_string a);
            p_license_url := Some (hackage +:+ a_href a);
            p_deps := p_deps p |}, out)
    | None =>
        ({| p_license := Some (td_string rule);
            p_license_url := p_license_url p;
            p_deps := p_deps p |}, out ++ [Warn (warn_no_url ident)])
    end
  else if decide (th_string rule = "Dependencies") then
    ({| p_license := p_license p;
        p_license_url := p_license_url p;
        p_deps :=
          (λ d, (a_string (span_a d), hackage +:+ a_href (span_a d)))
          <$> filter (λ d, Py.contains "font-size: small" (span_style d) = false)
                     (spans rule) |}, out)
  else acc.

Definition scan_rules (ident : string) (page : Page) : Props * list Event :=
  fold_left (scan_rule ident) (rules page)
    ({| p_license := None; p_license_url := None; p_deps := [] |}, []).

(** [sum([1 if licenses[hash].type == license else 0 for hash in licenses])] *)
Definition n_of_this_type (licenses : dict License) (license : option string)
    : nat :=
  sum_list ((λ kv, if decide (type kv.2 = license) then 1 else 0) <$> licenses).

(** [license if n_of_this_type == 0 else f"{license}({n_of_this_type})"] *)
Definition unique_name (licenses : dict License) (license : option string)
    : option string :=
  let n := n_of_this_type licenses license in
  if decide (n = 0) then license
  else Some (Py.fmt license +:+ "(" +:+ Py.str_of_nat n +:+ ")").

(** [licenses[license_hash].packages.append(ident)] *)
Definition append_package (ident : string) (l : License) : License :=
  {| name := name l; type := type l; shash := shash l; path := path l;
     packages := packages l ++ [ident] |}.

(** One round of [for dident, durl in deps]: a fresh list [ddeps] is
    allocated, linked under the current children list [tree] and handed to
    the new [todo] item. *)
Definition push_dep (tree : loc)
    (acc : list (list Child) * list (string * string * loc))
    (dep : string * string) : list (list Child) * list (string * string * loc) :=
  let '(heap, todo) := acc in
  let '(dident, durl) := dep in
  let ddeps := length heap in
  (alter (λ cs, cs ++ [(dident, ddeps)]) tree (heap ++ [[]]),
   todo ++ [(dident, durl, ddeps)]).

Section Scrape.
Context {World : Type} (P : Platform World).

(** The local state of [scrape] at the head of the [while] loop. *)
Record State := {
  world : World;
  done : gset string;
  res : dict Package;
  tree : TreeVar;
  licenses : dict License;
  i : nat;
  todo : list (string * string * loc);
  heap : list (list Child);
  trace : list Event;
}.

(** How a round ends: at the loop head again, in a new state, or with the
    death of the process ([exit] after [error], or an exception nobody
    catches), of which the trace up to there remains. *)
Inductive Outcome :=
| Next (st : State)
| Fatal (trace : list Event).

Context (download : option string).

(** "Check if the download folder exists" *)
Definition ensure_download (w : World) : list Event + World :=
  match download with
  | None => inr w
  | Some d =>
      if os_path_exists P w d then inr w
      else match os_makedirs P w d with
           | inl e =>
               inl [Error ("Failed to create license download folder '"
                           +:+ d +:+ "': " +:+ e)]
           | inr w' => inr w'
           end
  end.

(** "Download the license of this package". The status that is tested
    after the request is that of [html], the package page. *)
Definition fetch_license (ident : string) (html : Response)
    (license_url : option string) (w : World)
    : option Response * World * list Event :=
  match license_url with
  | None => (None, w, [])
  | Some u =>
      let '(license_body, w') := requests_get P w u in
      (Some license_body, w',
       GetLicense ident u license_body ::
       if decide (status_code html ≠ 200%Z)
       then [Warn (warn_no_body ident)] else [])
  end.

(** [hex(hash(license_body.text.strip()))[2:]], or ["<unhashed>"]. *)
Definition hash_body (license_body : option Response) : string :=
  match license_body with
  | Some b => Py.slice_from 2 (Py.hex (str_hash P (str_strip P (text b))))
  | None => "<unhashed>"
  end.

(** "Generate a path if applicable". [os.path.join(download, None)] raises
    a [TypeError], which prints nothing on standard output. *)
Definition license_path (ident : string) (license : option string)
    (w : World) : list Event + (option string * World) :=
  match download with
  | None => inr (None, w)
  | Some d =>
      match license with
      | None => inl []
      | Some l =>
          let dir := Py.os_path_join d l in
          if os_path_exists P w dir
          then inr (Some (Py.os_path_join dir ident), w)
          else match os_makedirs P w dir with
               | inl e =>
                   inl [Error ("Failed to create directory '" +:+ dir
                               +:+ "': " +:+ e)]
               | inr w' => inr (Some (Py.os_path_join dir ident), w')
               end
      end
  end.

(** "Update our knowledge of unique licenses" *)
Definition register (ident : string) (license : option string)
    (license_body : option Response) (license_hash : string)
    (licenses : dict License) (w : World)
    : list Event + (dict License * World) :=
  if dict_mem license_hash licenses then inr (licenses, w)
  else
    let name := unique_name licenses license in
    match license_path ident license w with
    | inl out => inl out
    | inr (path, w1) =>
        let licenses' :=
          dict_set licenses license_hash
                   (License_init name license license_hash path) in
        match license_body, path with
        | Some b, Some p =>
            match write_file P w1 p (text b) with
            | inl e =>
                inl [Error ("Failed to write '" +:+ ident
                            +:+ "' license body to '" +:+ p +:+ "': " +:+ e)]
            | inr w2 => inr (licenses', w2)
            end
        | _, _ => inr (licenses', w1)
        end
    end.

(** The body of the [while] loop once [todo.pop()] has been unpacked into
    [ident], [url] and [tree] and the progress line is printed: [st] has
    the shortened [todo], the new [tree] and the new [i]. *)
Definition body (st : State) (ident url : string) (tree : loc) : Outcome :=
  if decide (ident ∈ done st) then Next st
  else
    match ensure_download (world st) with
    | inl out =>
        Fatal (trace st ++ out)
    | inr w1 =>
        let '(html, w2) := requests_get P w1 url in
        let tr1 := trace st ++ [GetPage ident url html] in
        if decide (status_code html ≠ 200%Z) then
          Next {| world := w2; done := {[ident]} ∪ done st; res := res st;
                  tree := TList tree; licenses := licenses st; i := i st;
                  todo := todo st; heap := heap st;
                  trace := tr1 ++ [Warn (warn_no_page ident)] |}
        else
          let page := bs4_parse P (text html) in
          let short := h1_small page in
          let '(props, warnings) := scan_rules ident page in
          let license := p_license props in
          let license_url := p_license_url props in
          let '(license_body, w3, tr_license) :=
            fetch_license ident html license_url w2 in
          let tr2 := tr1 ++ warnings ++ tr_license in
          let license_hash := hash_body license_body in
          match register ident license license_body license_hash
                         (licenses st) w3 with
          | inl out =>
              Fatal (tr2 ++ out)
          | inr (licenses1, w4) =>
              let '(heap', todo') :=
                fold_left (push_dep tree) (p_deps props) (heap st, todo st) in
              Next {| world := w4;
                      done := {[ident]} ∪ done st;
                      res := dict_set (res st) ident
                               {| ident := ident; short := short; url := url;
                                  license := license;
                                  license_url := license_url;
                                  license_hash := Some license_hash |};
                      tree := TList tree;
                      licenses := dict_update (append_package ident)
                                              licenses1 license_hash;
                      i := i st;
                      todo := todo';
                      heap := heap';
                      trace := tr2 |}
          end
    end.

(** One round of the loop; [None] when [len(todo) > 0] fails. *)
Definition step (st : State) : option Outcome :=
  match Py.pop (todo st) with
  | None => None
  | Some (rest, (ident, url, tree)) =>
      let i' := S (i st) in
      Some (body {| world := world st; done := done st; res := res st;
                    tree := TList tree; licenses := licenses st; i := i';
                    todo := rest; heap := heap st;
                    trace := trace st ++ [Progress i' (i' + length rest)] |}
                 ident url tree)
  end.

(** The [while] loop. It need not end (a server can name a fresh
    dependency on every page), so it runs on [fuel]: [None] means that the
    fuel did not suffice. *)
Fixpoint loop (fuel : nat) (st : State) : option Outcome :=
  match fuel with
  | O => None
  | S fuel' =>
      match step st with
      | None => Some (Next st)
      | Some (Next st') => loop fuel' st'
      | Some (Fatal tr) => Some (Fatal tr)
      end
  end.

(** The state before the loop. *)
Definition init (w : World) (ident url : string) : State :=
  {| world := w; done := ∅; res := []; tree := TRoot ident 0;
     licenses := []; i := 0; todo := [(ident, url, 0)]; heap := [[]];
     trace := [] |}.

(** [Package.scrape(ident, url, download, delay)]: the final state, from
    which [return (res, tree, licenses)] takes its three components. *)
Definition scrape (fuel : nat) (w : World) (ident url : string)
    : option Outcome :=
  loop fuel (init w ident url).
End Scrape.

Arguments Next {World}.
Arguments Fatal {World}.

(** The tree as a value: what a children list holds once the locations are
    followed. Children are allocated after their parent, so a fuel of
    [length heap] reaches every node. *)
#[warnings="-register-all"]
Inductive PyTree :=
| PyNode (ident : string) (children : list PyTree).

Fixpoint read_list (fuel : nat) (heap : list (list Child)) (l : loc)
    : list PyTree :=
  match fuel with
  | O => []
  | S fuel' =>
      match heap !! l with
      | None => []
      | Some cs => (λ c : Child, PyNode c.1 (read_list fuel' heap c.2)) <$> cs
      end
  end.

(** The value that [return (res, tree, licenses)] hands out for [tree]. *)
Inductive TreeValue :=
| VTuple (root : PyTree)
| VList (children : list PyTree).

Definition read_tree (heap : list (list Child)) (t : TreeVar) : TreeValue :=
  match t with
  | TRoot r l => VTuple (PyNode r (read_list (length heap) heap l))
  | TList l => VList (read_list (length heap) heap l)
  end.

(** The triple returned by [scrape] when its loop ends normally. *)
Definition returned {World} (o : Outcome (World := World))
    : option (dict Package * TreeValue * dict License) :=
  match o with
  | Next st => Some (res st, read_tree (heap st) (tree st), licenses st)
  | Fatal _ => None
  end.

Arguments State : clear implicits.
Arguments Outcome : clear implicits.

(** ** The rounds of the loop, case by case *)

Section Rounds.
Context {World : Type} (P : Platform World) (download : option string).

(** What [fetch_license] does once the page status is known to be 200. *)
Definition fetched (ident : string) (license_url : option string) (w : World)
    (body : option Response) (w' : World) (tr : list Event) : Prop :=
  match license_url with
  | None => body = None ∧ w' = w ∧ tr = []
  | Some u =>
      ∃ r, requests_get P w u = (r, w') ∧ body = Some r ∧
           tr = [GetLicense ident u r]
  end.

(** What a successful [register] does to the license map. *)
Definition registered (ls : dict License) (license : option string)
    (h : string) (ls1 : dict License) : Prop :=
  (is_Some (dict_get ls h) ∧ ls1 = ls) ∨
  (dict_get ls h = None ∧
   ∃ path, ls1 = ls ++ [(h, License_init (unique_name ls license) license h path)]).

Inductive Round : State World → State World → Prop :=
| round_skip st rest ident url l :
    todo st = rest ++ [(ident, url, l)] →
    ident ∈ done st →
    Round st
      {| world := world st; done := done st; res := res st;
         tree := TList l; licenses := licenses st; i := S (i st);
         todo := rest; heap := heap st;
         trace := trace st ++ [Progress (S (i st)) (S (i st) + length rest)] |}
| round_failed st rest ident url l w1 html w2 :
    todo st = rest ++ [(ident, url, l)] →
    ident ∉ done st →
    ensure_download P download (world st) = inr w1 →
    requests_get P w1 url = (html, w2) →
    status_code html ≠ 200%Z →
    Round st
      {| world := w2; done := {[ident]} ∪ done st; res := res st;
         tree := TList l; licenses := licenses st; i := S (i st);
         todo := rest; heap := heap st;
         trace := ((trace st ++ [Progress (S (i st)) (S (i st) + length rest)])
                   ++ [GetPage ident url html])
                  ++ [Warn (warn_no_page ident)] |}
| round_processed st rest ident url l w1 html w2 props warnings
                  body w3 tr_license licenses1 w4 heap' todo' :
    todo st = rest ++ [(ident, url, l)] →
    ident ∉ done st →
    ensure_download P download (world st) = inr w1 →
    requests_get P w1 url = (html, w2) →
    status_code html = 200%Z →
    scan_rules ident (bs4_parse P (text html)) = (props, warnings) →
    fetched ident (p_license_url props) w2 body w3 tr_license →
    registered (licenses st) (p_license props) (hash_body P body) licenses1 →
    fold_left (push_dep l) (p_deps props) (heap st, rest) = (heap', todo') →
    Round st
      {| world := w4; done := {[ident]} ∪ done st;
         res := dict_set (res st) ident
                  {| ident := ident;
                     short := h1_small (bs4_parse P (text html));
                     url := url; license := p_license props;
                     license_url := p_license_url props;
                     license_hash := Some (hash_body P body) |};
         tree := TList l;
         licenses := dict_update (append_package ident) licenses1
                                 (hash_body P body);
         i := S (i st); todo := todo'; heap := heap';
         trace := ((trace st ++ [Progress (S (i st)) (S (i st) + length rest)])
                   ++ [GetPage ident url html])
                  ++ warnings ++ tr_license |}.

(** The states at the head of the loop during a run. *)
Inductive reachable : State World → Prop :=
| reachable_init w ident url : reachable (init w ident url)
| reachable_step st st' :
    reachable st → step P download st = Some (Next st') → reachable st'.
End Rounds.

(** ** Reading the trace *)

(** The idents whose package page was requested, oldest first. *)
Definition page_ident (e : Event) : option string :=
  match e with
  | GetPage k _ _ => Some k
  | _ => None
  end.

Definition fetched_pages (tr : list Event) : list string := omap page_ident tr.

(** The idents for which a license body was requested. *)
Definition license_ident (e : Event) : option string :=
  match e with
  | GetLicense k _ _ => Some k
  | _ => None
  end.

Definition fetched_licenses (tr : list Event) : list string :=
  omap license_ident tr.

(** The response to the license request made for [k], if one was made. *)
Definition license_response (k : string) (e : Event) : option Response :=
  match e with
  | GetLicense k' _ r => if decide (k' = k) then Some r else None
  | _ => None
  end.

Definition license_body_of (tr : list Event) (k : string) : option Response :=
  head (omap (license_response k) tr).

(** The warnings printed. *)
Definition warning (e : Event) : option string :=
  match e with
  | Warn msg => Some msg
  | _ => None
  end.

Definition warnings_of (tr : list Event) : list string := omap warning tr.

(** ** Reading the license map *)

(** All the idents recorded in the packages lists, entry after entry. *)
Definition usage (ls : dict License) : list string :=
  concat ((λ kv : string * License, packages kv.2) <$> ls).

(** Two idents are recorded under the same License entry. *)
Definition same_entry (ls : dict License) (a b : string) : Prop :=
  ∃ h L, dict_get ls h = Some L ∧ a ∈ packages L ∧ b ∈ packages L.

(** The entries of [licenses] whose declared type is [t]. *)
Definition of_type (t : option string) (licenses : dict License) : dict License :=
  filter (λ kv : string * License, type kv.2 = t) licenses.

(** Two optional license bodies hash identically: both are absent, or both
    are present and [hash] agrees on their stripped texts. *)
Definition same_body_hash {World} (P : Platform World)
    (b1 b2 : option Response) : Prop :=
  match b1, b2 with
  | Some r1, Some r2 =>
      str_hash P (str_strip P (text r1)) = str_hash P (str_strip P (text r2))
  | None, None => True
  | _, _ => False
  end.

(** The last character but one. *)
Fixpoint penultimate (s : string) : option ascii :=
  match s with
  | EmptyString => None
  | String c s' =>
      match s' with
      | String _ EmptyString => Some c
      | _ => penultimate s'
      end
  end.

(** ** [unique_licenses] *)

(** The body of [for pkg in pkgs]. The dictionaries [hashes] and
    [names_count] are the mutable default arguments of the function: they
    are threaded through, and a caller that omits them passes on what the
    previous call left. *)
Definition unique_licenses_round (pkgs : dict Package)
    (acc : dict (option string) * dict (option string)
           * gmap (option string) nat)
    (pkg : string)
    : dict (option string) * dict (option string) * gmap (option string) nat :=
  let '(res, hashes, names_count) := acc in
  match dict_get pkgs pkg with
  | None => acc
  | Some pkg =>
      let license_hash :=
        match license_hash pkg with
        | Some h => h
        | None => Py.fmt (license pkg) +:+ "_unhashed"
        end in
      let '(hashes', names_count') :=
        if dict_mem license_hash hashes then (hashes, names_count)
        else
          let names_count1 :=
            match names_count !! license pkg with
            | None => <[license pkg := 0]> names_count
            | Some _ => names_count
            end in
          let n := default 0 (names_count1 !! license pkg) in
          let name :=
            if decide (n = 0) then license pkg
            else Some (Py.fmt (license pkg) +:+ "(" +:+ Py.str_of_nat n +:+ ")") in
          (dict_set hashes license_hash name,
           <[license pkg := S n]> names_count1) in
      (dict_set res (ident pkg) (default None (dict_get hashes' license_hash)),
       hashes', names_count')
  end.

Definition unique_licenses (pkgs : dict Package)
    (hashes : dict (option string)) (names_count : gmap (option string) nat)
    : dict (option string) * dict (option string) * gmap (option string) nat :=
  fold_left (unique_licenses_round pkgs) (dict_keys pkgs) ([], hashes, names_count).

(** ** [main]: the report *)

(** [hackagify] *)
Definition hackagify (package : string) : string :=
  "https://hackage.haskell.org/package/" +:+ package.

(** [set([licenses[hash].type for hash in licenses])], in the order in which
    the set is iterated. Python fixes no order for a set; the one taken here
    is that of [elements]. *)
Definition license_types (licenses : dict License) : list (option string) :=
  elements (list_to_set ((λ kv : string * License, type kv.2) <$> licenses)
            : gset (option string)).

(** [[ident for ident in pkgs if pkgs[ident].license == type]] *)
Definition used_by (pkgs : dict Package) (type : option string) : list string :=
  filter (λ ident, license <$> dict_get pkgs ident = Some type) (dict_keys pkgs).

(** The sections of the report: a type and the packages listed under it.
    The parameters [show_list] and [trim] of [main] are only logged. *)
Definition sections (show_list trim : bool) (pkgs : dict Package)
    (licenses : dict License) : list (option string * list string) :=
  (λ type, (type, used_by pkgs type)) <$> license_types licenses.

Definition esc : string := String (ascii_of_nat 27) "".

(** The lines printed for one section. *)
Definition section_lines (colors : bool) (s : option string * list string)
    : list string :=
  let accent := if colors then esc +:+ "[92;1m" else "" in
  let bold := if colors then esc +:+ "[1m" else "" in
  let end_ := if colors then esc +:+ "[0m" else "" in
  [""; "License " +:+ accent +:+ Py.fmt s.1 +:+ end_; "   Used by: "]
  ++ ((λ pkg, "   - " +:+ bold +:+ pkg +:+ end_) <$> s.2)
  ++ [""].

(** "Write the unique licenses": the lines written to [out]. *)
Definition report (colors show_list trim : bool) (pkgs : dict Package)
    (licenses : dict License) : list string :=
  concat (section_lines colors <$> sections show_list trim pkgs licenses).

(** [main], up to the opening of the output file: the lines of the report
    when the crawl returns within [fuel] rounds. *)
Definition main {World} (P : Platform World) (fuel : nat) (w : World)
    (package : string) (download : option string) (colors show_list trim : bool)
    : option (list string) :=
  match scrape P download fuel w package (hackagify package) with
  | Some (Next st) => Some (report colors show_list trim (res st) (licenses st))
  | _ => None
  end.


(** Two platforms that behave alike. *)
Definition platform_agree {World} (P1 P2 : Platform World) : Prop :=
  (∀ w u, requests_get P1 w u = requests_get P2 w u) ∧
  (∀ s, bs4_parse P1 s = bs4_parse P2 s) ∧
  (∀ s, str_hash P1 s = str_hash P2 s) ∧
  (∀ s, str_strip P1 s = str_strip P2 s) ∧
  (∀ w p, os_path_exists P1 w p = os_path_exists P2 w p) ∧
  (∀ w p, os_makedirs P1 w p = os_makedirs P2 w p) ∧
  (∀ w p s, write_file P1 w p s = write_file P2 w p s).

(** ** The report as the specification reads it *)



(** ** What the crawl leaves, in closed form *)

(** The expected [path] of a License entry created for package [ident]. *)
Definition entry_path (download : option string) (license : option string)
    (ident : string) : option string :=
  match download, license with
  | Some d, Some l => Some (Py.os_path_join (Py.os_path_join d l) ident)
  | _, _ => None
  end.

(** The Package that [scrape] builds from the page of [k] fetched at [u]
    with answer [r], when the license request, if any, was answered with
    [body]. *)
Definition package_of {World} (P : Platform World) (k u : string) (r : Response)
    (body : option Response) : Package :=
  let page := bs4_parse P (text r) in
  let props := (scan_rules k page).1 in
  {| ident := k; short := h1_small page; url := u;
     license := p_license props; license_url := p_license_url props;
     license_hash := Some (hash_body P body) |}.

(** ** The rounds as a relation, and the children lists *)

(** The [todo] items that [for dident, durl in deps] appends when the heap
    has [n] lists: the [j]-th dependency gets the list at [n + j]. *)
Fixpoint numbered (n : nat) (deps : list (string * string))
    : list (string * string * loc) :=
  match deps with
  | [] => []
  | d :: deps' => (d.1, d.2, n) :: numbered (S n) deps'
  end.

(** The entry that [tree.append((dident, ddeps))] adds for a [todo] item. *)
Definition child_of (t : string * string * loc) : Child := (t.1.1, t.2).

(** One round of the loop leads from [st] to [st']. *)
Definition next {World} (P : Platform World) (download : option string)
    (st st' : State World) : Prop :=
  step P download st = Some (Next st').

(** [st] is a state at the loop head of the run of
    [scrape(ident, url, download, delay)] started in world [w]. *)
Definition crawl {World} (P : Platform World) (download : option string)
    (w : World) (ident url : string) (st : State World) : Prop :=
  rtc (next P download) (init w ident url) st.

(** The children list [cs] holds the dependencies that the page of [k]
    named, in page order, and that page answered 200. *)
Definition node_page {World} (P : Platform World) (tr : list Event)
    (k : string) (cs : list Child) : Prop :=
  ∃ u r, GetPage k u r ∈ tr ∧ status_code r = 200%Z ∧
         cs.*1 = (p_deps (scan_rules k (bs4_parse P (text r))).1).*1.

(** ** A finite registry *)

(** Every dependency that any page names lies in [U]. *)
Definition deps_within {World} (P : Platform World) (U : gset string) : Prop :=
  ∀ html ident d,
    d ∈ p_deps (scan_rules ident (bs4_parse P html)).1 → d.1 ∈ U.

(** ** The rows of the properties table *)

(** The name that a License row gives: that of its link, or its text. *)
Definition license_of_rule (rule : Rule) : string :=
  match td_a rule with
  | Some a => a_string a
  | None => td_string rule
  end.

(** The dependencies that a Dependencies row gives: name and URL of every
    span that is not styled [font-size: small]. *)
Definition deps_of_rule (rule : Rule) : list (string * string) :=
  (λ d, (a_string (span_a d), hackage +:+ a_href (span_a d)))
  <$> filter (λ d, Py.contains "font-size: small" (span_style d) = false)
             (spans rule).

(** ** The keys of [unique_licenses] *)

(** The key under which [unique_licenses] files a package: its hash, or
    its declared license followed by [_unhashed]. *)
Definition effective_hash (pkg : Package) : string :=
  match license_hash pkg with
  | Some h => h
  | None => Py.fmt (license pkg) +:+ "_unhashed"
  end.

(** A package map as [scrape] builds it: every Package is stored under its
    own ident. *)
Definition keyed_by_ident (pkgs : dict Package) : Prop :=
  NoDup (dict_keys pkgs) ∧ ∀ k p, (k, p) ∈ pkgs → ident p = k.

(** ** Rows that raise a warning *)

(** A License row without a link. *)
Definition plain_license_row (rule : Rule) : Prop :=
  th_string rule = "License" ∧ td_a rule = None.

(** ** The progress line *)

(** The progress lines printed: [Package i/total]. *)
Definition progress (e : Event) : option (nat * nat) :=
  match e with
  | Progress i total => Some (i, total)
  | _ => None
  end.

Definition progress_lines (tr : list Event) : list (nat * nat) := omap progress tr.

(** ** The errors *)

(** The three errors that [scrape] prints, each with the failed call that
    it reports: [os.makedirs] on the download folder, [os.makedirs] on the
    folder of a license type, and the writing of a license text. *)
Definition disk_error {World} (P : Platform World) (d m : string) : Prop :=
  (∃ w e, os_makedirs P w d = inl e ∧
          m = "Failed to create license download folder '" +:+ d +:+ "': " +:+ e) ∨
  (∃ w l e, os_makedirs P w (Py.os_path_join d l) = inl e ∧
            m = "Failed to create directory '" +:+ Py.os_path_join d l
                +:+ "': " +:+ e) ∨
  (∃ w ident p text e, write_file P w p text = inl e ∧
            m = "Failed to write '" +:+ ident +:+ "' license body to '" +:+ p
                +:+ "': " +:+ e).

(** ** What the report lists *)

(** All the packages that the report lists, section after section. *)
Definition listed (secs : list (option string * list string)) : list string :=
  concat secs.*2.

(** ** What [os.path.join] leaves *)

(** [a.endswith("/")] *)
Definition ends_with_slash (a : string) : bool :=
  String.eqb (Py.slice_from (String.length a - 1) a) "/".

(** A folder name as it stands in front of a joined name: nothing for the
    empty name, and with one slash at its end otherwise. *)
Definition as_dir (a : string) : string :=
  if String.eqb a "" then "" else if ends_with_slash a then a else a +:+ "/".

(** ** A small registry to run the crawl on *)

Module Demo.

(** A server that answers from a table and answers 404 elsewhere; a parser
    that reads pages from a table; a file system on which nothing fails. *)
Definition not_found : Response := {| status_code := 404; text := "Not Found" |}.

Definition serve (site : dict Response) (u : string) : Response :=
  default not_found (dict_get site u).

Definition platform (site : dict Response) (pages : dict Page)
    (hash : string → Z) : Platform unit :=
  {| requests_get := λ w u, (serve site u, w);
     bs4_parse := λ html, default {| h1_small := ""; rules := [] |}
                                  (dict_get pages html);
     str_hash := hash;
     str_strip := λ s, s;
     os_path_exists := λ _ _, false;
     os_makedirs := λ w _, inr w;
     write_file := λ w _ _, inr w |}.

Definition ok (body : string) : Response := {| status_code := 200; text := body |}.

Definition license_link (name href : string) : Rule :=
  {| th_string := "License";
     td_a := Some {| a_string := name; a_href := href |};
     td_string := name; spans := [] |}.

Definition license_plain (name : string) : Rule :=
  {| th_string := "License"; td_a := None; td_string := name; spans := [] |}.

Definition dep (name : string) : Span :=
  {| span_style := "white-space: nowrap";
     span_a := {| a_string := name; a_href := "/package/" +:+ name |} |}.

Definition dependencies (names : list string) : Rule :=
  {| th_string := "Dependencies"; td_a := None; td_string := "";
     spans := dep <$> names |}.

Definition page_url (name : string) : string := hackage +:+ "/package/" +:+ name.

(** [app] depends on [lib1], [lib2] and [gone]; [lib1] on [base] and
    [gone]; [lib2] on [base]. [app] and [lib1] link to the same MIT text,
    [lib2] to another text under the name MIT, the license URL of [tool]
    answers 404, [base] and [extra] name their license without a link, and
    the page of [gone] answers 404. *)
Definition pages : dict Page :=
  [ ("<app>", {| h1_small := "An application";
                 rules := [license_link "MIT" "/package/app/src/LICENSE";
                           dependencies ["lib1"; "lib2"; "gone"]] |});
    ("<lib1>", {| h1_small := "A library";
                  rules := [license_link "MIT" "/package/lib1/src/LICENSE";
                            dependencies ["base"; "gone"]] |});
    ("<lib2>", {| h1_small := "Another library";
                  rules := [license_link "MIT" "/package/lib2/src/LICENSE";
                            dependencies ["base"]] |});
    ("<base>", {| h1_small := "Basic libraries";
                  rules := [license_plain "BSD-3-Clause"; dependencies []] |});
    ("<tool>", {| h1_small := "A tool";
                  rules := [license_link "MIT" "/package/tool/src/LICENSE";
                            dependencies []] |});
    ("<pair>", {| h1_small := "Two licenses without a link";
                  rules := [license_plain "MIT"; dependencies ["base"]] |}) ].

Definition site : dict Response :=
  [ (page_url "app", ok "<app>");
    (page_url "lib1", ok "<lib1>");
    (page_url "lib2", ok "<lib2>");
    (page_url "base", ok "<base>");
    (page_url "tool", ok "<tool>");
    (page_url "pair", ok "<pair>");
    (hackage +:+ "/package/app/src/LICENSE", ok "Permission is hereby granted");
    (hackage +:+ "/package/lib1/src/LICENSE", ok "Permission is hereby granted");
    (hackage +:+ "/package/lib2/src/LICENSE", ok "Permission is granted") ].

(** Two hash functions, as two interpreter processes may have them. *)
Definition hash1 (s : string) : Z := Z.of_nat (String.length s).
Definition hash2 (s : string) : Z := (- Z.of_nat (String.length s))%Z.

Definition hackage1 : Platform unit := platform site pages hash1.
Definition hackage2 : Platform unit := platform site pages hash2.

(** The state in which a run ends, when it ends at the loop head within
    [fuel] rounds. *)
Definition final (P : Platform unit) (fuel : nat) (root : string) : State unit :=
  match scrape P None fuel tt root (page_url root) with
  | Some (Next st) => st
  | _ => init tt root (page_url root)
  end.

(** A record built apart from [hackage1] that behaves like it. *)
Definition hackage1_again : Platform unit :=
  platform site pages (λ s, Z.of_nat (String.length s) + 0)%Z.

(** The run on [app]: [base] and [gone] are named by two parents each. *)
Definition app_final : State unit := final hackage1 20 "app".

(** The run on [pair]: two packages that name their license without a
    link. *)
Definition pair_final : State unit := final hackage1 20 "pair".

(** The run on [tool]: the license URL answers 404. *)
Definition tool_final : State unit := final hackage1 20 "tool".

End Demo.

(** ** A registry with many texts under one name *)

Module Many.

(** [m0] depends on [m1] ... [m6], on [b] and on [m7] ... [m11]. Every
    [m] links to a text of its own under the name MIT, [b] to a text under
    the name BSD-3-Clause. *)
Definition mname (i : nat) : string := "m" +:+ Py.str_of_nat i.

Definition license_href (name : string) : string :=
  "/package/" +:+ name +:+ "/src/LICENSE".

Definition markup (name : string) : string := "<" +:+ name +:+ ">".

Definition mit_text (i : nat) : string := Nat.iter i (String "!") "MIT License".

Definition mpage (i : nat) (deps : list string) : string * Page :=
  (markup (mname i),
   {| h1_small := "";
      rules := [Demo.license_link "MIT" (license_href (mname i));
                Demo.dependencies deps] |}).

Definition many_pages : dict Page :=
  mpage 0 ((mname <$> seq 1 6) ++ ["b"] ++ (mname <$> seq 7 5))
  :: ((λ i, mpage i []) <$> seq 1 11)
  ++ [(markup "b",
       {| h1_small := "";
          rules := [Demo.license_link "BSD-3-Clause" (license_href "b");
                    Demo.dependencies []] |})].

Definition many_site : dict Response :=
  ((λ i, (Demo.page_url (mname i), Demo.ok (markup (mname i)))) <$> seq 0 12)
  ++ ((λ i, (hackage +:+ license_href (mname i), Demo.ok (mit_text i)))
      <$> seq 0 12)
  ++ [(Demo.page_url "b", Demo.ok (markup "b"));
      (hackage +:+ license_href "b", Demo.ok "BSD")].

Definition registry : Platform unit :=
  Demo.platform many_site many_pages Demo.hash1.

(** The run on [m0]. *)
Definition many_final : State unit :=
  match scrape registry None 20 tt "m0" (Demo.page_url "m0") with
  | Some (Next st) => st
  | _ => init tt "m0" (Demo.page_url "m0")
  end.

End Many.

(** ** Runs with a download folder *)

Module Disk.

(** The demo registry on a disk that refuses every write. *)
Definition read_only : Platform unit :=
  {| requests_get := requests_get Demo.hackage1;
     bs4_parse := bs4_parse Demo.hackage1;
     str_hash := str_hash Demo.hackage1;
     str_strip := str_strip Demo.hackage1;
     os_path_exists := λ _ _, false;
     os_makedirs := λ _ _, inl "Read-only file system";
     write_file := λ _ _ _, inl "Read-only file system" |}.

(** The run on [app] that downloads the license texts to [licenses]. *)
Definition app_downloaded : State unit :=
  match scrape Demo.hackage1 (Some "licenses") 20 tt "app" (Demo.page_url "app") with
  | Some (Next st) => st
  | _ => init tt "app" (Demo.page_url "app")
  end.

(** The idents that the pages of the demo registry name. *)
Definition idents : gset string :=
  list_to_set ["app"; "lib1"; "lib2"; "base"; "gone"; "tool"; "pair"].

(** A package map as [scrape] leaves it, with two packages of one hash. *)
Definition three_packages : dict Package :=
  [("a", {| ident := "a"; short := ""; url := ""; license := Some "MIT";
            license_url := None; license_hash := Some "1f" |});
   ("b", {| ident := "b"; short := ""; url := ""; license := Some "MIT";
            license_url := None; license_hash := Some "2e" |});
   ("c", {| ident := "c"; short := ""; url := ""; license := Some "MIT";
            license_url := None; license_hash := Some "1f" |})].

(** The state of the run on [app] after [n] rounds. *)
Definition after_rounds (n : nat) : State unit :=
  Nat.iter n
    (λ st, match step Demo.hackage1 None st with
           | Some (Next st') => st'
           | _ => st
           end)
    (init tt "app" (Demo.page_url "app")).

End Disk.

(** ** Facts about the Python primitives *)

Lemma pop_snoc {A} (l : list A) (x : A) : Py.pop (l ++ [x]) = Some (l, x).
Proof.
  unfold Py.pop. rewrite rev_app_distr. simpl. by rewrite rev_involutive.
Qed.

Lemma pop_Some {A} (l rest : list A) (x : A) :
  Py.pop l = Some (rest, x) → l = rest ++ [x].
Proof.
  unfold Py.pop. destruct (rev l) as [|y r] eqn:E; [done|].
  intros [= <- <-]. rewrite <- (rev_involutive l), E. done.
Qed.

Lemma pop_None {A} (l : list A) : Py.pop l = None → l = [].
Proof.
  unfold Py.pop. destruct (rev l) eqn:E; [|done].
  intros _. rewrite <- (rev_involutive l), E. done.
Qed.

Section DictFacts.
Context {V : Type}.
Implicit Types (d : dict V) (k : string) (v : V).

Lemma dict_get_None d k : dict_get d k = None ↔ k ∉ dict_keys d.
Proof.
  unfold dict_keys. induction d as [|[k' v'] d IH]; simpl.
  - split; [intros _; apply not_elem_of_nil | done].
  - rewrite not_elem_of_cons. case_decide; [|tauto].
    split; [done | intros [? _]; done].
Qed.

Lemma dict_get_Some_keys d k v : dict_get d k = Some v → k ∈ dict_keys d.
Proof.
  intros H. destruct (decide (k ∈ dict_keys d)) as [|Hn]; [done|].
  apply dict_get_None in Hn. congruence.
Qed.

Lemma dict_get_elem_of d k v : dict_get d k = Some v → (k, v) ∈ d.
Proof.
  induction d as [|[k' v'] d IH]; simpl; [done|].
  case_decide; [intros [= ->]; subst; left | intros; right; auto].
Qed.

Lemma dict_get_NoDup d k v :
  NoDup (dict_keys d) → (k, v) ∈ d → dict_get d k = Some v.
Proof.
  unfold dict_keys. induction d as [|[k' v'] d IH]; simpl.
  - intros _ H. by apply elem_of_nil in H.
  - intros Hnd H. apply NoDup_cons in Hnd as [Hk Hnd].
    apply elem_of_cons in H as [[= -> ->]|H].
    + by rewrite decide_True.
    + rewrite decide_False; [auto|]. intros ->. apply Hk.
      apply list_elem_of_fmap. by exists (k', v).
Qed.

Lemma dict_mem_true d k : dict_mem k d = true ↔ is_Some (dict_get d k).
Proof. unfold dict_mem. apply bool_decide_eq_true. Qed.

Lemma dict_mem_false d k : dict_mem k d = false ↔ dict_get d k = None.
Proof.
  unfold dict_mem. rewrite bool_decide_eq_false, <- eq_None_not_Some. done.
Qed.

Lemma dict_set_fresh d k v : dict_get d k = None → dict_set d k v = d ++ [(k, v)].
Proof.
  induction d as [|[k' v'] d IH]; simpl; [done|].
  case_decide; [done|]. intros Hd. by rewrite IH.
Qed.

Lemma dict_get_app d1 d2 k :
  dict_get (d1 ++ d2) k =
  match dict_get d1 k with Some v => Some v | None => dict_get d2 k end.
Proof.
  induction d1 as [|[k' v'] d1 IH]; simpl; [done|]. by case_decide.
Qed.

Lemma dict_get_snoc d k v k' :
  dict_get d k = None →
  dict_get (d ++ [(k, v)]) k' = if decide (k' = k) then Some v else dict_get d k'.
Proof.
  intros Hd. rewrite dict_get_app. simpl. case_decide.
  - subst. by rewrite Hd.
  - by destruct (dict_get d k').
Qed.

Lemma dict_keys_update (f : V → V) d k :
  dict_keys (dict_update f d k) = dict_keys d.
Proof.
  unfold dict_keys. induction d as [|[k' v'] d IH]; simpl; [done|].
  case_decide; simpl; [done | f_equal; apply IH].
Qed.

Lemma dict_get_update (f : V → V) d k k' :
  dict_get (dict_update f d k) k' =
  if decide (k' = k) then f <$> dict_get d k' else dict_get d k'.
Proof.
  induction d as [|[k1 v1] d IH]; simpl; [by case_decide|].
  destruct (decide (k = k1)) as [->|Hne]; simpl.
  - destruct (decide (k' = k1)); [done|done].
  - destruct (decide (k' = k1)) as [->|]; [by rewrite decide_False|]. apply IH.
Qed.

Lemma dict_update_snoc (f : V → V) d k v :
  dict_get d k = None → dict_update f (d ++ [(k, v)]) k = d ++ [(k, f v)].
Proof.
  induction d as [|[k' v'] d IH]; simpl.
  - by rewrite decide_True.
  - case_decide; [done|]. intros Hd. by rewrite IH.
Qed.

(** An in-place mutation touches one entry and keeps the order. *)
Lemma dict_update_split (f : V → V) d k v :
  dict_get d k = Some v →
  ∃ d1 d2, d = d1 ++ (k, v) :: d2 ∧ dict_get d1 k = None ∧
           dict_update f d k = d1 ++ (k, f v) :: d2.
Proof.
  induction d as [|[k1 v1] d IH]; simpl; [done|].
  destruct (decide (k = k1)) as [->|Hne].
  - intros [= ->]. by exists [], d.
  - intros H. destruct (IH H) as (d1 & d2 & -> & Hd1 & ->).
    exists ((k1, v1) :: d1), d2. simpl. by rewrite decide_False.
Qed.
End DictFacts.

(** ** Facts about the rounds *)

Section RoundFacts.
Context {World : Type} (P : Platform World) (download : option string).

Lemma fetch_license_fetched ident html license_url w body w' tr :
  status_code html = 200%Z →
  fetch_license P ident html license_url w = (body, w', tr) →
  fetched P ident license_url w body w' tr.
Proof.
  intros Hok. unfold fetch_license, fetched.
  destruct license_url as [u|]; [|by intros [= <- <- <-]].
  destruct (requests_get P w u) as [r w1] eqn:E.
  rewrite decide_False by (by intros ?).
  intros [= <- <- <-]. by exists r.
Qed.

Lemma register_registered ident license body h ls w ls1 w1 :
  register P download ident license body h ls w = inr (ls1, w1) →
  registered ls license h ls1.
Proof.
  unfold register, registered.
  destruct (dict_mem h ls) eqn:Hm.
  - intros [= <- <-]. left. by apply dict_mem_true in Hm.
  - apply dict_mem_false in Hm. intros H. right. split; [done|].
    destruct (license_path P download ident license w) as [|[path w2]];
      [done|].
    exists path. rewrite <- (dict_set_fresh _ _ _ Hm).
    destruct body as [b|], path as [p|]; try (by injection H as <- <-).
    destruct (write_file P w2 p (text b)); [done|]. by injection H as <- <-.
Qed.

Lemma step_Round st st' : step P download st = Some (Next st') → Round P download st st'.
Proof.
  unfold step. destruct (Py.pop (todo st)) as [[rest [[ident url] l]]|] eqn:Hpop;
    [|done].
  apply pop_Some in Hpop. unfold body. simpl.
  destruct (decide (ident ∈ done st)) as [Hin|Hnin].
  { intros [= <-]. by eapply round_skip. }
  destruct (ensure_download P download (world st)) as [|w1] eqn:Hens; [done|].
  destruct (requests_get P w1 url) as [html w2] eqn:Hget.
  destruct (decide (status_code html ≠ 200%Z)) as [Hbad|Hok].
  { intros [= <-]. by eapply round_failed. }
  apply dec_stable in Hok.
  destruct (scan_rules ident (bs4_parse P (text html))) as [props warnings] eqn:Hscan.
  destruct (fetch_license P ident html (p_license_url props) w2)
    as [[lbody w3] tr_license] eqn:Hfetch.
  destruct (register P download ident (p_license props) lbody
              (hash_body P lbody) (licenses st) w3) as [|[licenses1 w4]] eqn:Hreg;
    [done|].
  destruct (fold_left (push_dep l) (p_deps props) (heap st, rest))
    as [heap' todo'] eqn:Hpush.
  intros [= <-].
  eapply round_processed; eauto using fetch_license_fetched, register_registered.
Qed.

Lemma loop_reachable fuel st o :
  reachable P download st → loop P download fuel st = Some o →
  match o with
  | Next st' => reachable P download st' ∧ todo st' = []
  | Fatal tr => ∃ st0, reachable P download st0 ∧ step P download st0 = Some (Fatal tr)
  end.
Proof.
  revert st. induction fuel as [|fuel IH]; intros st Hr; simpl; [done|].
  destruct (step P download st) as [[st1|st1]|] eqn:Hstep.
  - intros Hl. apply (IH st1); [|done]. by eapply reachable_step.
  - intros [= <-]. by exists st.
  - intros [= <-]. split; [done|]. unfold step in Hstep.
    destruct (Py.pop (todo st)) as [[? [[??]?]]|] eqn:Hpop; [done|].
    by apply pop_None.
Qed.

Lemma scrape_reachable fuel w ident url st :
  scrape P download fuel w ident url = Some (Next st) →
  reachable P download st ∧ todo st = [].
Proof. intros H. apply (loop_reachable _ _ _ (reachable_init P download w ident url) H). Qed.
End RoundFacts.

Lemma scan_rule_events ident acc rule e :
  e ∈ (scan_rule ident acc rule).2 → e ∈ acc.2 ∨ e = Warn (warn_no_url ident).
Proof.
  unfold scan_rule. destruct acc as [p out]. simpl.
  repeat case_decide; simpl; auto.
  destruct (td_a rule); simpl; auto.
  rewrite elem_of_app, list_elem_of_singleton. tauto.
Qed.

Lemma scan_rules_events ident page e :
  e ∈ (scan_rules ident page).2 → e = Warn (warn_no_url ident).
Proof.
  unfold scan_rules.
  assert (∀ rs acc, e ∈ (fold_left (scan_rule ident) rs acc).2 →
                    e ∈ acc.2 ∨ e = Warn (warn_no_url ident)) as Hgen.
  { induction rs as [|r rs IH]; intros acc; simpl; [auto|].
    intros H. apply IH in H as [H|H]; [|auto]. by apply scan_rule_events in H. }
  intros H. apply Hgen in H as [H|H]; [|done]. simpl in H.
  by apply elem_of_nil in H.
Qed.

Lemma omap_warnings_None {B} (f : Event → option B) ident page :
  f (Warn (warn_no_url ident)) = None →
  omap f (scan_rules ident page).2 = [].
Proof.
  intros Hf. pose proof (scan_rules_events ident page) as H.
  induction ((scan_rules ident page).2) as [|e l IH]; simpl; [done|].
  rewrite (H e) by left. rewrite Hf. apply IH. intros e' He'. apply H. by right.
Qed.

Lemma usage_app ls1 ls2 : usage (ls1 ++ ls2) = usage ls1 ++ usage ls2.
Proof. unfold usage. by rewrite fmap_app, concat_app. Qed.

Lemma usage_cons h L ls : usage ((h, L) :: ls) = packages L ++ usage ls.
Proof. done. Qed.

Lemma usage_append ident ls h L :
  dict_get ls h = Some L →
  usage (dict_update (append_package ident) ls h) ≡ₚ ident :: usage ls.
Proof.
  intros H. destruct (dict_update_split (append_package ident) _ _ _ H)
    as (d1 & d2 & -> & _ & ->).
  rewrite !usage_app, !usage_cons. simpl.
  rewrite (Permutation_app_comm (packages L) [ident]). simpl.
  symmetry. apply Permutation_middle.
Qed.

Lemma registered_get ls license h ls1 :
  registered ls license h ls1 →
  (∀ h', h' ≠ h → dict_get ls1 h' = dict_get ls h') ∧
  dict_keys ls1 =
    dict_keys ls ++ match dict_get ls h with Some _ => [] | None => [h] end ∧
  usage ls1 = usage ls ∧
  ∃ L0, dict_get ls1 h = Some L0 ∧
        (dict_get ls h = Some L0 ∨
         (dict_get ls h = None ∧
          L0 = License_init (unique_name ls license) license h
                            (path L0))).
Proof.
  intros [[[L0 HL0] ->]|[Hnone [pth ->]]].
  - rewrite HL0, app_nil_r. split_and!; try done. exists L0. auto.
  - rewrite Hnone. split_and!.
    + intros h' Hne. rewrite (dict_get_snoc _ _ _ _ Hnone). by rewrite decide_False.
    + unfold dict_keys. by rewrite fmap_app.
    + rewrite usage_app. unfold usage at 2. simpl. by rewrite app_nil_r.
    + eexists. rewrite (dict_get_snoc _ _ _ _ Hnone), decide_True by done.
      split; [done|]. right. done.
Qed.

(** Induction over a run and case analysis of a round, with fixed names. *)
Ltac run_induction st Hr :=
  pattern st; revert st Hr;
  match goal with
  | |- ∀ st, reachable ?P ?d st → _ =>
      let H := fresh in
      assert (∀ I : State _ → Prop,
                (∀ w ident url, I (init w ident url)) →
                (∀ st st', reachable P d st → I st → Round P d st st' → I st') →
                ∀ st, reachable P d st → I st) as H;
      [ intros I Hinit Hstep st Hr;
        induction Hr as [|st st' Hr IH Hs]; [apply Hinit|];
        apply (Hstep st st' Hr IH); by apply step_Round
      | apply H; clear H; [intros w ident url | intros st st' Hr IH Hrd] ]
  end.

Ltac round_cases Hrd :=
  destruct Hrd as
    [ st rest ident url l Htodo Hin
    | st rest ident url l w1 html w2 Htodo Hnin Hens Hget Hbad
    | st rest ident url l w1 html w2 props warnings body w3 trl ls1 w4
         heap' todo' Htodo Hnin Hens Hget Hok Hscan Hfetch Hreg Hpush ].

Section RunFacts.
Context {World : Type} (P : Platform World) (download : option string).

Abbreviation reach := (reachable P download).

(** Every key of the package map is in the visited set. *)
Lemma res_done st : reach st → ∀ k, k ∈ dict_keys (res st) → k ∈ done st.
Proof.
  intros Hr. run_induction st Hr; simpl.
  - intros k H. by apply elem_of_nil in H.
  - round_cases Hrd; simpl; intros k Hk; [auto | set_solver |].
    destruct (decide (k = ident)) as [->|Hne]; [set_solver|].
    apply elem_of_union_r, IH.
    destruct (dict_get (res st) ident) eqn:E.
    + apply dict_get_Some_keys, IH in E. done.
    + rewrite (dict_set_fresh _ _ _ E) in Hk. unfold dict_keys in *.
      rewrite fmap_app in Hk. set_solver.
Qed.

Lemma res_fresh st k : reach st → k ∉ done st → dict_get (res st) k = None.
Proof.
  intros Hr Hk. apply dict_get_None. intros H. by apply (res_done st Hr) in H.
Qed.

Lemma res_NoDup st : reach st → NoDup (dict_keys (res st)).
Proof.
  intros Hr. run_induction st Hr; simpl.
  - apply NoDup_nil_2.
  - round_cases Hrd; simpl; [done..|].
    pose proof (res_fresh st ident Hr ltac:(done)) as E.
    rewrite (dict_set_fresh _ _ _ E). unfold dict_keys in *.
    rewrite fmap_app. apply NoDup_app. split_and!; [done| |apply NoDup_singleton].
    intros k Hk ->%list_elem_of_singleton. by apply dict_get_None in E.
Qed.

(** *** What a round adds to the trace *)

Lemma fetched_pages_warnings ident page :
  fetched_pages (scan_rules ident page).2 = [].
Proof. by apply omap_warnings_None. Qed.

Lemma fetched_licenses_warnings ident page :
  fetched_licenses (scan_rules ident page).2 = [].
Proof. by apply omap_warnings_None. Qed.

Lemma license_response_warnings k ident page :
  omap (license_response k) (scan_rules ident page).2 = [].
Proof. by apply omap_warnings_None. Qed.

Lemma fetched_trace ident license_url w body w' trl :
  fetched P ident license_url w body w' trl →
  fetched_pages trl = [] ∧
  warnings_of trl = [] ∧
  fetched_licenses trl = match body with Some _ => [ident] | None => [] end ∧
  (∀ k, omap (license_response k) trl =
        if decide (ident = k) then option_list body else []) ∧
  (body = None ↔ license_url = None).
Proof.
  unfold fetched. destruct license_url as [u|].
  - intros (r & _ & -> & ->). simpl. split_and!; try done.
    intros k. by case_decide.
  - intros (-> & _ & ->). simpl. split_and!; try done.
    intros k. by case_decide.
Qed.

Lemma round_pages st st' :
  Round P download st st' →
  (fetched_pages (trace st') = fetched_pages (trace st) ∧ todo st ≠ []) ∨
  ∃ k, fetched_pages (trace st') = fetched_pages (trace st) ++ [k] ∧
       (k ∉ done st) ∧ done st' = {[k]} ∪ done st.
Proof.
  intros Hrd. unfold fetched_pages. round_cases Hrd; simpl.
  - left. rewrite omap_app. simpl. rewrite app_nil_r. split; [done|].
    rewrite Htodo. by destruct rest.
  - right. exists ident. rewrite !omap_app. simpl. by rewrite !app_nil_r.
  - right. exists ident. rewrite !omap_app. simpl.
    apply fetched_trace in Hfetch as (Hp & _).
    unfold fetched_pages in Hp. rewrite Hp.
    replace warnings with (scan_rules ident (bs4_parse P (text html))).2
      by (by rewrite Hscan).
    pose proof (fetched_pages_warnings ident (bs4_parse P (text html))) as Hw.
    unfold fetched_pages in Hw. rewrite Hw. simpl. by rewrite !app_nil_r.
Qed.

(** A page is requested only for an ident that then enters [done]. *)
Lemma pages_done st : reach st → ∀ k, k ∈ fetched_pages (trace st) → k ∈ done st.
Proof.
  intros Hr. run_induction st Hr.
  - intros k H. by apply elem_of_nil in H.
  - pose proof (round_pages _ _ Hrd) as [[-> _]|(k0 & -> & Hk0 & Hd)].
    + intros k Hk. apply IH in Hk. round_cases Hrd; simpl; set_solver.
    + intros k Hk. rewrite Hd. set_solver.
Qed.

Lemma pages_NoDup st : reach st → NoDup (fetched_pages (trace st)).
Proof.
  intros Hr. run_induction st Hr.
  - apply NoDup_nil_2.
  - pose proof (round_pages _ _ Hrd) as [[-> _]|(k0 & -> & Hk0 & Hd)]; [done|].
    apply NoDup_app. split_and!; [done| |apply NoDup_singleton].
    intros k Hk ->%list_elem_of_singleton. by apply (pages_done st Hr) in Hk.
Qed.

Lemma round_licenses st st' :
  Round P download st st' →
  ∃ ks, fetched_licenses (trace st') = fetched_licenses (trace st) ++ ks ∧
        ∀ k, k ∈ ks → k ∈ done st'.
Proof.
  intros Hrd. unfold fetched_licenses. round_cases Hrd; simpl.
  - exists []. rewrite omap_app. simpl. split; [done|]. by intros k ?%elem_of_nil.
  - exists []. rewrite !omap_app. simpl. rewrite !app_nil_r.
    split; [done|]. by intros k ?%elem_of_nil.
  - apply fetched_trace in Hfetch as (_ & _ & Hl & _).
    exists (match body with Some _ => [ident] | None => [] end).
    rewrite !omap_app. simpl. unfold fetched_licenses in Hl. rewrite Hl.
    replace warnings with (scan_rules ident (bs4_parse P (text html))).2
      by (by rewrite Hscan).
    pose proof (fetched_licenses_warnings ident (bs4_parse P (text html))) as Hw.
    unfold fetched_licenses in Hw. rewrite Hw. simpl. rewrite !app_nil_r.
    split; [done|]. destruct body; set_solver.
Qed.

Lemma round_done_mono st st' k : Round P download st st' → k ∈ done st → k ∈ done st'.
Proof. intros Hrd. round_cases Hrd; simpl; set_solver. Qed.

Lemma licenses_done st :
  reach st → ∀ k, k ∈ fetched_licenses (trace st) → k ∈ done st.
Proof.
  intros Hr. run_induction st Hr.
  - intros k H. by apply elem_of_nil in H.
  - destruct (round_licenses _ _ Hrd) as (ks & -> & Hks).
    intros k [Hk|Hk]%elem_of_app; [|auto].
    eapply round_done_mono; eauto.
Qed.

Lemma license_response_absent tr k :
  k ∉ fetched_licenses tr → omap (license_response k) tr = [].
Proof.
  unfold fetched_licenses. induction tr as [|e tr IH]; simpl; [done|].
  destruct e; simpl; auto. case_decide; subst; [set_solver|]. set_solver.
Qed.

(** *** The license map *)

Lemma round_license_body st st' :
  reach st → Round P download st st' →
  (∀ k, k ∈ done st →
        license_body_of (trace st') k = license_body_of (trace st) k) ∧
  (∀ k, (k ∉ done st) →
        omap (license_response k) (trace st) = []).
Proof.
  intros Hr Hrd. split; cycle 1.
  { intros k Hk. apply license_response_absent. intros Hin.
    by apply (licenses_done st Hr) in Hin. }
  intros k Hk. unfold license_body_of. f_equal.
  round_cases Hrd; simpl; rewrite !omap_app; simpl; rewrite ?app_nil_r; try done.
  replace warnings with (scan_rules ident (bs4_parse P (text html))).2
    by (by rewrite Hscan).
  rewrite license_response_warnings. simpl.
  apply fetched_trace in Hfetch as (_ & _ & _ & Hl & _). rewrite Hl.
  rewrite decide_False; [by rewrite app_nil_r|]. by intros ->.
Qed.

Lemma round_licenses_get st st' :
  reach st → Round P download st st' →
  (licenses st' = licenses st ∧ res st' = res st) ∨
  ∃ k p h ls1,
    (k ∉ done st) ∧ done st' = {[k]} ∪ done st ∧
    res st' = res st ++ [(k, p)] ∧
    ident p = k ∧
    license_hash p = Some h ∧
    h = hash_body P (license_body_of (trace st') k) ∧
    registered (licenses st) (license p) h ls1 ∧
    licenses st' = dict_update (append_package k) ls1 h.
Proof.
  intros Hr Hrd.
  pose proof (round_license_body st st' Hr Hrd) as [_ Habs].
  round_cases Hrd; simpl in *; [by left..|]. right.
  eexists ident, _, (hash_body P body), ls1.
  rewrite (dict_set_fresh _ _ _ (res_fresh st ident Hr Hnin)).
  split_and!; try done.
  - f_equal. unfold license_body_of. rewrite !omap_app, (Habs _ Hnin). simpl.
    replace warnings with (scan_rules ident (bs4_parse P (text html))).2
      by (by rewrite Hscan).
    rewrite license_response_warnings. simpl.
    apply fetched_trace in Hfetch as (_ & _ & _ & Hl & _). rewrite Hl.
    rewrite decide_True by done. by destruct body.
Qed.

Lemma dict_get_append k ls1 h h' :
  dict_get (dict_update (append_package k) ls1 h) h' =
  if decide (h' = h) then append_package k <$> dict_get ls1 h'
  else dict_get ls1 h'.
Proof. apply dict_get_update. Qed.

Lemma licenses_NoDup st : reach st → NoDup (dict_keys (licenses st)).
Proof.
  intros Hr. run_induction st Hr; [apply NoDup_nil_2|].
  destruct (round_licenses_get _ _ Hr Hrd)
    as [[-> _]|(k & p & h & ls1 & _ & _ & _ & _ & _ & _ & Hreg & ->)]; [done|].
  rewrite dict_keys_update.
  apply registered_get in Hreg as (_ & -> & _ & _).
  destruct (dict_get (licenses st) h) eqn:E; [by rewrite app_nil_r|].
  apply NoDup_app. split_and!; [done| |apply NoDup_singleton].
  intros x Hx ->%list_elem_of_singleton. by apply dict_get_None in E.
Qed.

(** The packages lists, taken together, hold the keys of the package map,
    each once. *)
Lemma usage_res st : reach st → usage (licenses st) ≡ₚ dict_keys (res st).
Proof.
  intros Hr. run_induction st Hr; [done|].
  destruct (round_licenses_get _ _ Hr Hrd)
    as [[-> ->]|(k & p & h & ls1 & _ & _ & -> & _ & _ & _ & Hreg & ->)]; [done|].
  apply registered_get in Hreg as (_ & _ & Hu & L0 & HL0 & _).
  rewrite (usage_append _ _ _ _ HL0), Hu, IH.
  unfold dict_keys. rewrite fmap_app. simpl. apply Permutation_cons_append.
Qed.

(** Whoever is listed in the entry of hash [h] is a package with hash [h]. *)
Lemma entry_package st :
  reach st → ∀ h L k,
  dict_get (licenses st) h = Some L → k ∈ packages L →
  ∃ p, dict_get (res st) k = Some p ∧ license_hash p = Some h.
Proof.
  intros Hr. run_induction st Hr; [done|].
  destruct (round_licenses_get _ _ Hr Hrd)
    as [[-> ->]|(k0 & p0 & h0 & ls1 & Hk0 & _ & -> & _ & Hh0 & _ & Hreg & ->)];
    [done|].
  pose proof (res_fresh st k0 Hr Hk0) as Hfresh.
  apply registered_get in Hreg as (Hother & _ & _ & L0 & HL0 & Hold).
  intros h L k. rewrite dict_get_append, (dict_get_snoc _ _ _ _ Hfresh).
  assert (∀ h1 L1, dict_get (licenses st) h1 = Some L1 → k ∈ packages L1 →
            ∃ p, (if decide (k = k0) then Some p0 else dict_get (res st) k)
                 = Some p ∧ license_hash p = Some h1) as Hkeep.
  { intros h1 L1 H1 Hk. destruct (IH h1 L1 k H1 Hk) as (p & Hp & Hhp).
    exists p. split; [|done]. rewrite decide_False; [done|].
    intros ->. congruence. }
  destruct (decide (h = h0)) as [->|Hne].
  - rewrite HL0. intros [= <-]. simpl.
    intros [Hk| ->%list_elem_of_singleton]%elem_of_app.
    + destruct Hold as [Hold|[_ HL]]; [by eapply Hkeep|].
      rewrite HL in Hk. simpl in Hk. by apply elem_of_nil in Hk.
    + exists p0. by rewrite decide_True.
  - rewrite (Hother _ Hne). apply Hkeep.
Qed.

(** Every package of the map carries its own ident and the hash of the
    license body that was fetched for it, and it is listed in the License
    entry of that hash. *)
Lemma package_entry st :
  reach st → ∀ k p,
  dict_get (res st) k = Some p →
  ident p = k ∧
  license_hash p = Some (hash_body P (license_body_of (trace st) k)) ∧
  ∃ L, dict_get (licenses st) (hash_body P (license_body_of (trace st) k))
       = Some L ∧ k ∈ packages L.
Proof.
  intros Hr. run_induction st Hr; [done|].
  pose proof (round_license_body _ _ Hr Hrd) as [Hstable _].
  assert (∀ k p, dict_get (res st) k = Some p → k ∈ done st) as Hdone.
  { intros k p Hk. apply (res_done st Hr). by eapply dict_get_Some_keys. }
  destruct (round_licenses_get _ _ Hr Hrd)
    as [[-> ->]|(k0 & p0 & h0 & ls1 & Hk0 & _ & -> & Hid & Hh0 & Hh & Hreg & ->)].
  { intros k p Hk. rewrite (Hstable k (Hdone _ _ Hk)). by apply IH. }
  pose proof (res_fresh st k0 Hr Hk0) as Hfresh.
  apply registered_get in Hreg as (Hother & _ & _ & L0 & HL0 & Hold).
  intros k p. rewrite (dict_get_snoc _ _ _ _ Hfresh).
  destruct (decide (k = k0)) as [->|Hne].
  - intros [= <-]. rewrite <- Hh. split_and!; [done..|].
    rewrite dict_get_append, decide_True, HL0 by done. simpl.
    eexists. split; [done|]. simpl. set_solver.
  - intros Hk. rewrite (Hstable k (Hdone _ _ Hk)).
    destruct (IH k p Hk) as (? & ? & L & HL & HkL). split_and!; [done..|].
    rewrite dict_get_append.
    destruct (decide (hash_body P (license_body_of (trace st) k) = h0))
      as [E|E].
    + rewrite E in HL |- *. destruct Hold as [Hold|[Hold _]]; [|congruence].
      rewrite HL0. simpl. eexists. split; [done|]. simpl.
      assert (L0 = L) as -> by congruence. set_solver.
    + rewrite (Hother _ E). by exists L.
Qed.
End RunFacts.

(** ** The hexadecimal rendering of a hash is faithful *)

Section HexFacts.
Import HexadecimalString.

Lemma to_hex_uint_nonnil (n : N) : N.to_hex_uint n ≠ Hexadecimal.Nil.
Proof.
  destruct n as [|p]; simpl; [done|].
  apply HexadecimalPos.Unsigned.to_uint_nonnil.
Qed.

Lemma hex_digits_parse (z : Z) :
  NilZero.uint_of_string (Py.hex_digits z) = Some (N.to_hex_uint (Z.abs_N z)).
Proof. apply NilZero.usu, to_hex_uint_nonnil. Qed.

Lemma hex_digits_inj (a b : Z) :
  Py.hex_digits a = Py.hex_digits b → Z.abs_N a = Z.abs_N b.
Proof.
  intros H. apply HexadecimalN.Unsigned.to_uint_inj.
  pose proof (hex_digits_parse a) as Ha. rewrite H, hex_digits_parse in Ha.
  congruence.
Qed.

Lemma hex_digits_not_x (a b : Z) : Py.hex_digits a ≠ String "x" (Py.hex_digits b).
Proof.
  intros H. pose proof (hex_digits_parse a) as Ha. rewrite H in Ha.
  simpl in Ha. by destruct (NilEmpty.uint_of_string (Py.hex_digits b)).
Qed.

Lemma hex_digits_not_sentinel (a : Z) :
  Py.hex_digits a ≠ "<unhashed>" ∧ String "x" (Py.hex_digits a) ≠ "<unhashed>".
Proof.
  split; [|done]. intros H. pose proof (hex_digits_parse a) as Ha.
  rewrite H in Ha. done.
Qed.

(** [hex(z)[2:]]: the digits of a non-negative hash, ["x"] and the digits
    of a negative one. *)
Lemma hex_slice (z : Z) :
  Py.slice_from 2 (Py.hex z) =
  if (z <? 0)%Z then String "x" (Py.hex_digits z) else Py.hex_digits z.
Proof. unfold Py.hex. by destruct (z <? 0)%Z. Qed.

Lemma hex_slice_inj (a b : Z) :
  Py.slice_from 2 (Py.hex a) = Py.slice_from 2 (Py.hex b) → a = b.
Proof.
  rewrite !hex_slice.
  destruct (Z.ltb_spec a 0), (Z.ltb_spec b 0); intros Heq.
  - injection Heq as Heq%hex_digits_inj. lia.
  - symmetry in Heq. by apply hex_digits_not_x in Heq.
  - by apply hex_digits_not_x in Heq.
  - apply hex_digits_inj in Heq. lia.
Qed.

Lemma hex_slice_not_sentinel (a : Z) : Py.slice_from 2 (Py.hex a) ≠ "<unhashed>".
Proof.
  rewrite hex_slice. destruct (a <? 0)%Z; apply hex_digits_not_sentinel.
Qed.
End HexFacts.

Lemma hash_body_eq {World} (P : Platform World) (b1 b2 : option Response) :
  hash_body P b1 = hash_body P b2 ↔ same_body_hash P b1 b2.
Proof.
  destruct b1 as [r1|], b2 as [r2|]; simpl.
  - split; [apply hex_slice_inj | by intros ->].
  - split; [|done]. intros H. by apply hex_slice_not_sentinel in H.
  - split; [|done]. intros H. symmetry in H. by apply hex_slice_not_sentinel in H.
  - done.
Qed.

(** ** Idents, packages and License entries over a run *)

Section Claims.
Context {World : Type} (P : Platform World) (download : option string).

(** A round that dies requests at most one page, for an ident that was
    not visited, and leaves the package map alone. *)
Lemma step_Fatal st tr :
  step P download st = Some (Fatal tr) →
  fetched_pages tr = fetched_pages (trace st) ∨
  ∃ k, (k ∉ done st) ∧ fetched_pages tr = fetched_pages (trace st) ++ [k].
Proof.
  unfold step. destruct (Py.pop (todo st)) as [[rest [[ident url] l]]|]; [|done].
  unfold body. simpl.
  destruct (decide (ident ∈ done st)) as [Hin|Hnin]; [done|].
  destruct (ensure_download P download (world st)) as [out|w1] eqn:Hens.
  { intros [= <-]. left.
    unfold fetched_pages. rewrite !omap_app. simpl.
    unfold ensure_download in Hens. destruct download as [d|]; [|done].
    destruct (os_path_exists P (world st) d); [done|].
    destruct (os_makedirs P (world st) d); [|done].
    injection Hens as <-. simpl. by rewrite !app_nil_r. }
  destruct (requests_get P w1 url) as [html w2].
  destruct (decide (status_code html ≠ 200%Z)) as [Hbad|Hok]; [done|].
  apply dec_stable in Hok.
  destruct (scan_rules ident (bs4_parse P (text html))) as [props warnings] eqn:Hscan.
  destruct (fetch_license P ident html (p_license_url props) w2)
    as [[lbody w3] trl] eqn:Hfetch.
  destruct (register P download ident (p_license props) lbody
              (hash_body P lbody) (licenses st) w3) as [out|[licenses1 w4]] eqn:Hreg.
  2: { by destruct (fold_left (push_dep l) (p_deps props) (heap st, rest)). }
  intros [= <-]. right. exists ident.
  split; [done|]. unfold fetched_pages. rewrite !omap_app. simpl.
  apply (fetch_license_fetched _ _ _ _ _ _ _ _ Hok), fetched_trace in Hfetch
    as (Hp & _).
  unfold fetched_pages in Hp. rewrite Hp.
  replace warnings with (scan_rules ident (bs4_parse P (text html))).2
    by (by rewrite Hscan).
  pose proof (fetched_pages_warnings ident (bs4_parse P (text html))) as Hw.
  unfold fetched_pages in Hw. rewrite Hw. simpl.
  assert (omap page_ident out = []) as ->; [|by rewrite !app_nil_r].
  unfold register in Hreg. destruct (dict_mem _ _); [done|].
  destruct (license_path P download ident (p_license props) w3)
    as [out'|[pth w5]] eqn:Hpath.
  - injection Hreg as <-. unfold license_path in Hpath.
    destruct download as [d|]; [|done].
    destruct (p_license props) as [lic|]; [|by injection Hpath as <-].
    destruct (os_path_exists _ _ _); [done|].
    destruct (os_makedirs _ _ _); [|done]. by injection Hpath as <-.
  - destruct lbody as [b|], pth as [pt|]; try done.
    destruct (write_file _ _ _ _); [|done]. by injection Hreg as <-.
Qed.

(** C2. In every state a run goes through no ident had its page requested
    twice (the page is parsed right after its request, so no ident is
    parsed twice either), no ident is twice a key of the package map,
    however many parents name it as a dependency, and the visited set lists
    no ident twice; and a run that dies has not requested the page of any
    ident twice either. *)
Theorem ident_visited_once (st : State World) :
  reachable P download st →
  (NoDup (fetched_pages (trace st)) ∧
   NoDup (dict_keys (res st)) ∧
   NoDup (elements (done st))) ∧
  (∀ tr, step P download st = Some (Fatal tr) → NoDup (fetched_pages tr)).
Proof.
  intros Hr. split.
  - split_and!; [by apply (pages_NoDup P download) |
                 by apply (res_NoDup P download) | apply NoDup_elements].
  - intros tr Hp%step_Fatal.
    destruct Hp as [->|(k & Hk & ->)]; [by apply (pages_NoDup P download)|].
    apply NoDup_app.
    split_and!; [by apply (pages_NoDup P download)| |apply NoDup_singleton].
    intros x Hx ->%list_elem_of_singleton.
    by apply (pages_done P download st Hr) in Hx.
Qed.

Lemma entry_NoDup st h L :
  reachable P download st → dict_get (licenses st) h = Some L →
  NoDup (packages L).
Proof.
  intros Hr HL. pose proof (res_NoDup P download st Hr) as Hnd.
  rewrite <- (usage_res P download st Hr) in Hnd.
  apply dict_get_elem_of, list_elem_of_split in HL as (l1 & l2 & E).
  rewrite E, usage_app, usage_cons in Hnd.
  by apply NoDup_app in Hnd as (_ & _ & (Hnd & _)%NoDup_app).
Qed.

(** C10. In every state a run goes through, the packages lists of the
    License entries are duplicate-free and pairwise disjoint, and together
    they hold exactly the keys of the package map; a round that adds an
    ident to the package map adds it to the visited set and to the
    packages lists in that same round. *)
Theorem usage_partitions_packages (st : State World) :
  reachable P download st →
  NoDup (usage (licenses st)) ∧
  (∀ h L, dict_get (licenses st) h = Some L → NoDup (packages L)) ∧
  (∀ h1 h2 L1 L2 k,
     dict_get (licenses st) h1 = Some L1 → dict_get (licenses st) h2 = Some L2 →
     k ∈ packages L1 → k ∈ packages L2 → h1 = h2) ∧
  (∀ k, k ∈ dict_keys (res st) ↔
        ∃ h L, dict_get (licenses st) h = Some L ∧ k ∈ packages L) ∧
  (∀ st' k, step P download st = Some (Next st') →
     k ∈ dict_keys (res st') → k ∉ dict_keys (res st) →
     (k ∉ done st) ∧ k ∈ done st' ∧
     (k ∉ usage (licenses st)) ∧
     ∃ h L, dict_get (licenses st') h = Some L ∧ k ∈ packages L ∧
            ∀ h' L', dict_get (licenses st') h' = Some L' →
                     k ∈ packages L' → h' = h).
Proof.
  intros Hr.
  assert (∀ st0, reachable P download st0 →
            ∀ h1 h2 L1 L2 k,
              dict_get (licenses st0) h1 = Some L1 →
              dict_get (licenses st0) h2 = Some L2 →
              k ∈ packages L1 → k ∈ packages L2 → h1 = h2) as Hdisj.
  { intros st0 Hr0 h1 h2 L1 L2 k H1 H2 Hk1 Hk2.
    destruct (entry_package P download st0 Hr0 _ _ _ H1 Hk1) as (p1 & Hp1 & Hh1).
    destruct (entry_package P download st0 Hr0 _ _ _ H2 Hk2) as (p2 & Hp2 & Hh2).
    congruence. }
  assert (∀ st0, reachable P download st0 →
            ∀ k, k ∈ dict_keys (res st0) ↔
                 ∃ h L, dict_get (licenses st0) h = Some L ∧ k ∈ packages L)
    as Hunion.
  { intros st0 Hr0 k. split.
    - intros Hk. destruct (dict_get (res st0) k) as [p|] eqn:E.
      + destruct (package_entry P download st0 Hr0 k p E) as (_ & _ & L & HL & HkL).
        eauto.
      + by apply dict_get_None in E.
    - intros (h & L & HL & Hk).
      destruct (entry_package P download st0 Hr0 _ _ _ HL Hk) as (p & Hp & _).
      by eapply dict_get_Some_keys. }
  split_and!.
  - rewrite (usage_res P download st Hr). by apply (res_NoDup P download).
  - intros h L. by apply entry_NoDup.
  - by apply Hdisj.
  - by apply Hunion.
  - intros st' k Hstep Hk' Hk.
    assert (reachable P download st') as Hr' by (by eapply reachable_step).
    apply step_Round in Hstep.
    destruct (round_licenses_get P download _ _ Hr Hstep)
      as [[_ E]|(k0 & p & h & ls1 & Hk0 & Hd & E & _)].
    { rewrite E in Hk'. done. }
    assert (k = k0) as ->.
    { rewrite E in Hk'. unfold dict_keys in *. rewrite fmap_app in Hk'.
      set_solver. }
    split_and!; [done | set_solver | |].
    + by rewrite (usage_res P download st Hr).
    + apply (Hunion st' Hr') in Hk' as (h0 & L & HL & HkL).
      exists h0, L. split_and!; [done..|].
      intros h' L' HL' Hk'. by apply (Hdisj st' Hr' h' h0 L' L k0).
Qed.

Lemma omap_NoDup_inj {A B} (f : A → option B) (l : list A) e1 e2 k :
  NoDup (omap f l) → e1 ∈ l → e2 ∈ l → f e1 = Some k → f e2 = Some k → e1 = e2.
Proof.
  induction l as [|e l IH]; simpl; [by intros _ ?%elem_of_nil|].
  intros Hnd H1 H2 Hf1 Hf2.
  assert (∀ x, x ∈ l → f x = Some k → k ∈ omap f l) as Hin.
  { intros x Hx Hfx. apply list_elem_of_omap. eauto. }
  apply elem_of_cons in H1 as [->|H1], H2 as [->|H2]; [done|..].
  - rewrite Hf1 in Hnd. apply NoDup_cons in Hnd as [Hk _].
    destruct Hk. eauto.
  - rewrite Hf2 in Hnd. apply NoDup_cons in Hnd as [Hk _].
    destruct Hk. eauto.
  - apply IH; try done. destruct (f e); [by apply NoDup_cons in Hnd as [_ ?]|done].
Qed.

(** The events of one round; a page request in them is for an ident that
    was not visited, and when it fails the round warns and leaves the
    package map alone. *)
Lemma round_events st st' :
  Round P download st st' →
  ∃ delta, trace st' = trace st ++ delta ∧
    ∀ k u r, GetPage k u r ∈ delta →
      (k ∉ done st) ∧ k ∈ done st' ∧
      (status_code r ≠ 200%Z →
       res st' = res st ∧ Warn (warn_no_page k) ∈ delta).
Proof.
  intros Hrd. round_cases Hrd; simpl.
  - eexists. split; [done|]. by intros k u r [=]%list_elem_of_singleton.
  - exists [Progress (S (i st)) (S (i st) + length rest);
            GetPage ident url html; Warn (warn_no_page ident)].
    split; [by rewrite <- !app_assoc|].
    intros k u r Hin. assert (k = ident) as ->.
    { set_solver. }
    split_and!; [done | set_solver |]. intros _. split; [done|]. set_solver.
  - exists ([Progress (S (i st)) (S (i st) + length rest);
             GetPage ident url html] ++ warnings ++ trl).
    split; [by rewrite <- !app_assoc|].
    intros k u r Hin.
    assert (k = ident ∧ r = html) as [-> ->].
    { apply elem_of_app in Hin as [Hin|Hin]; [set_solver|].
      apply elem_of_app in Hin as [Hin|Hin].
      - replace warnings with (scan_rules ident (bs4_parse P (text html))).2 in Hin
          by (by rewrite Hscan).
        by apply scan_rules_events in Hin.
      - unfold fetched in Hfetch. destruct (p_license_url props).
        + destruct Hfetch as (r0 & _ & _ & ->). set_solver.
        + destruct Hfetch as (_ & _ & ->). set_solver. }
    split_and!; [done | set_solver | done].
Qed.

Lemma failed_page_dropped st :
  reachable P download st → ∀ k u r,
  GetPage k u r ∈ trace st → status_code r ≠ 200%Z →
  dict_get (res st) k = None ∧ Warn (warn_no_page k) ∈ trace st.
Proof.
  intros Hr. run_induction st Hr; [by intros k u r ?%elem_of_nil|].
  destruct (round_events _ _ Hrd) as (delta & -> & Hdelta).
  intros k u r [Hin|Hin]%elem_of_app Hbad.
  - destruct (IH k u r Hin Hbad) as [Hres Hwarn].
    split; [|set_solver].
    assert (k ∈ done st) as Hk.
    { apply (pages_done P download st Hr), list_elem_of_omap.
      by exists (GetPage k u r). }
    destruct (round_licenses_get P download _ _ Hr Hrd)
      as [[_ ->]|(k0 & p & h & ls1 & Hk0 & _ & -> & _)]; [done|].
    rewrite (dict_get_snoc _ _ _ _ (res_fresh P download st k0 Hr Hk0)).
    rewrite decide_False; [done|]. by intros ->.
  - destruct (Hdelta k u r Hin) as (Hk & _ & Hfail).
    destruct (Hfail Hbad) as [-> Hwarn]. split; [|set_solver].
    by apply (res_fresh P download).
Qed.

(** C7. Once a page request for an ident was answered with a status other
    than 200, in every later state of the run the ident is in the visited
    set, the warning that it is skipped has been printed, the package map
    has no entry for it, and the failed request is the only page request
    ever made for it. *)
Theorem failed_page_never_retried (st : State World) (k u : string)
    (r : Response) :
  reachable P download st →
  GetPage k u r ∈ trace st →
  status_code r ≠ 200%Z →
  k ∈ done st ∧
  Warn (warn_no_page k) ∈ trace st ∧
  dict_get (res st) k = None ∧
  (∀ u' r', GetPage k u' r' ∈ trace st → u' = u ∧ r' = r) ∧
  (∀ st', step P download st = Some (Next st') →
          fetched_pages (trace st') = fetched_pages (trace st) ∨
          ∃ k', k' ≠ k ∧
                fetched_pages (trace st') = fetched_pages (trace st) ++ [k']).
Proof.
  intros Hr Hin Hbad.
  destruct (failed_page_dropped st Hr k u r Hin Hbad) as [Hres Hwarn].
  assert (k ∈ done st) as Hk.
  { apply (pages_done P download st Hr), list_elem_of_omap.
    by exists (GetPage k u r). }
  split_and!; [done..| |].
  - intros u' r' Hin'.
    assert (GetPage k u' r' = GetPage k u r) as [= -> ->]; [|done].
    by apply (omap_NoDup_inj page_ident (trace st) _ _ k
                (pages_NoDup P download st Hr)).
  - intros st' Hstep%step_Round.
    destruct (round_pages P download _ _ Hstep) as [[-> _]|(k' & -> & Hk' & _)];
      [by left|].
    right. exists k'. split; [|done]. by intros ->.
Qed.

(** *** Names of License entries *)

Lemma n_of_this_type_types (l l' : dict License) t :
  (λ kv : string * License, type kv.2) <$> l =
  (λ kv : string * License, type kv.2) <$> l' →
  n_of_this_type l t = n_of_this_type l' t.
Proof.
  unfold n_of_this_type. revert l'.
  induction l as [|[h L] l IH]; intros [|[h' L'] l']; simpl; try done.
  intros [= Ht Hl]. rewrite Ht. f_equal. by apply IH.
Qed.

Lemma unique_name_types (l l' : dict License) t :
  (λ kv : string * License, type kv.2) <$> l =
  (λ kv : string * License, type kv.2) <$> l' →
  unique_name l t = unique_name l' t.
Proof. intros H. unfold unique_name. by rewrite (n_of_this_type_types l l' t H). Qed.

Lemma append_package_types k (ls : dict License) h :
  (λ kv : string * License, type kv.2) <$> dict_update (append_package k) ls h =
  (λ kv : string * License, type kv.2) <$> ls.
Proof.
  induction ls as [|[h' L] ls IH]; simpl; [done|].
  case_decide; simpl; [done|]. f_equal. apply IH.
Qed.

Lemma append_package_lookup k (ls : dict License) h n h' L' :
  dict_update (append_package k) ls h !! n = Some (h', L') →
  ∃ L, ls !! n = Some (h', L) ∧ name L' = name L ∧ type L' = type L.
Proof.
  revert n. induction ls as [|[h0 L0] ls IH]; intros n; simpl; [done|].
  case_decide; destruct n as [|n]; simpl.
  - intros [= <- <-]. by exists L0.
  - intros H1. by exists L'.
  - intros [= <- <-]. by exists L0.
  - apply IH.
Qed.

(** Every entry is named after the entries of its type that precede it. *)
Lemma names_by_count st :
  reachable P download st → ∀ n h L,
  licenses st !! n = Some (h, L) →
  name L = unique_name (take n (licenses st)) (type L).
Proof.
  intros Hr. run_induction st Hr; [done|].
  destruct (round_licenses_get P download _ _ Hr Hrd)
    as [[-> _]|(k & p & h0 & ls1 & _ & _ & _ & _ & _ & _ & Hreg & ->)]; [done|].
  intros n h L Hn.
  apply append_package_lookup in Hn as (L1 & Hn & -> & ->).
  rewrite (unique_name_types _ (take n ls1)); cycle 1.
  { rewrite !fmap_take. f_equal. apply append_package_types. }
  destruct Hreg as [[_ ->]|[Hnone [pth ->]]]; [by apply (IH n h)|].
  destruct (decide (n < length (licenses st))) as [Hlt|Hge].
  - rewrite lookup_app_l in Hn by done.
    rewrite take_app_le by lia. by apply (IH n h).
  - rewrite lookup_app_r in Hn by lia.
    destruct (n - length (licenses st)) as [|m] eqn:E; [|done].
    injection Hn as <- <-. simpl.
    rewrite take_app_ge by lia. rewrite E. simpl. by rewrite app_nil_r.
Qed.

(** *** Decimal numerals *)

(** [str(n)] read back as a decimal numeral is [n], and it begins with a
    zero only when [n] is zero: it is the decimal numeral of [n]. *)
Lemma str_of_nat_read (n : nat) :
  Nat.of_uint <$> DecimalString.NilZero.uint_of_string (Py.str_of_nat n) = Some n.
Proof.
  unfold Py.str_of_nat. rewrite DecimalString.NilZero.usu.
  - simpl. by rewrite DecimalNat.Unsigned.of_to.
  - rewrite <- (DecimalNat.Unsigned.of_to n) at 1.
    rewrite DecimalNat.Unsigned.to_of. apply DecimalFacts.unorm_nonnil.
Qed.

Lemma str_of_nat_no_leading_zero (n : nat) :
  String.prefix "0" (Py.str_of_nat n) = true → n = 0.
Proof.
  unfold Py.str_of_nat. intros H.
  assert (∃ d, Nat.to_uint n = Decimal.D0 d) as [d Hd].
  { destruct (Nat.to_uint n) as [|d|d|d|d|d|d|d|d|d|d] eqn:E; simpl in H;
      try discriminate; eauto.
    exfalso. apply (DecimalFacts.unorm_nonnil (Nat.to_uint n)).
    by rewrite <- DecimalNat.Unsigned.to_of, DecimalNat.Unsigned.of_to. }
  pose proof (DecimalNat.Unsigned.to_of (Nat.to_uint n)) as Hn.
  rewrite DecimalNat.Unsigned.of_to, Hd in Hn. unfold Decimal.unorm in Hn.
  destruct (Decimal.nzhead (Decimal.D0 d)) eqn:E;
    try (by apply DecimalFacts.nzhead_nonzero in E);
    try (symmetry in Hn; rewrite <- E in Hn;
         by apply DecimalFacts.nzhead_nonzero in Hn).
  rewrite <- (DecimalNat.Unsigned.of_to n), Hd. by injection Hn as ->.
Qed.

Lemma str_of_nat_inj (n n' : nat) : Py.str_of_nat n = Py.str_of_nat n' → n = n'.
Proof.
  intros H. pose proof (str_of_nat_read n) as Hn.
  rewrite H, str_of_nat_read in Hn. by injection Hn.
Qed.

Lemma string_length_append (a b : string) :
  String.length (a +:+ b) = String.length a + String.length b.
Proof.
  induction a as [|c a IH]; [done|].
  change (S (String.length (a +:+ b)) = S (String.length a + String.length b)).
  by rewrite IH.
Qed.

Lemma string_append_inj_l (a b c : string) : a +:+ b = a +:+ c → b = c.
Proof.
  induction a as [|x a IH]; [done|].
  change (String x (a +:+ b) = String x (a +:+ c) → b = c).
  intros [= H]. by apply IH.
Qed.

Lemma string_snoc_inj (a b : string) (c : ascii) :
  a +:+ String c "" = b +:+ String c "" → a = b.
Proof.
  revert b. induction a as [|x a IH]; intros [|y b]; try done.
  - change (String c "" = String y (b +:+ String c "") → "" = String y b).
    intros [= _ H]. by destruct b.
  - change (String x (a +:+ String c "") = String c "" → String x a = "").
    intros [= _ H]. by destruct a.
  - change (String x (a +:+ String c "") = String y (b +:+ String c "")
            → String x a = String y b).
    intros [= -> H]. f_equal. by apply IH.
Qed.

(** *** Names of License entries, counted *)

Lemma n_of_this_type_of_type (ls : dict License) (t : option string) :
  n_of_this_type ls t = length (of_type t ls).
Proof.
  unfold n_of_this_type, of_type.
  induction ls as [|[h L] ls IH]; [done|].
  rewrite fmap_cons. cbn [sum_list sum_list_with]. rewrite IH.
  destruct (decide (type L = t)) as [Ht|Ht].
  - rewrite filter_cons_True by done. simpl. by rewrite decide_True.
  - rewrite filter_cons_False by done. simpl. by rewrite decide_False.
Qed.

Lemma of_type_take_lt (ls : dict License) n1 n2 h L :
  n1 < n2 → ls !! n1 = Some (h, L) →
  length (of_type (type L) (take n1 ls)) < length (of_type (type L) (take n2 ls)).
Proof.
  intros Hlt Hn1.
  assert (take n2 ls = take n1 ls ++ (h, L) :: take (n2 - S n1) (drop (S n1) ls))
    as ->.
  { rewrite <- (take_drop_middle ls n1 (h, L) Hn1) at 1.
    rewrite take_app_ge; rewrite length_take_le;
      try (apply Nat.lt_le_incl; by eapply lookup_lt_Some); try lia.
    replace (n2 - n1) with (S (n2 - S n1)) by lia. done. }
  unfold of_type. rewrite filter_app, filter_cons_True by done.
  rewrite length_app. simpl. lia.
Qed.

(** The name given to the entry of type [t] that [c] entries of that type
    precede. *)
Lemma counted_name_inj (t : option string) (c c' : nat) :
  (if decide (c = 0) then t
   else Some (match t with Some s => s | None => "None" end
              +:+ "(" +:+ Py.str_of_nat c +:+ ")")) =
  (if decide (c' = 0) then t
   else Some (match t with Some s => s | None => "None" end
              +:+ "(" +:+ Py.str_of_nat c' +:+ ")")) →
  c = c'.
Proof.
  assert (∀ s x, s ≠ s +:+ "(" +:+ x) as Hlen.
  { intros s x H. apply (f_equal String.length) in H.
    rewrite string_length_append in H.
    change (String.length ("(" +:+ x)) with (S (String.length x)) in H. lia. }
  destruct (decide (c = 0)) as [->|Hc], (decide (c' = 0)) as [->|Hc']; try done.
  - destruct t as [s|]; [|done]. intros [= H]. by apply Hlen in H.
  - destruct t as [s|]; [|done]. intros [= H]. symmetry in H. by apply Hlen in H.
  - intros [= H]. apply string_append_inj_l in H.
    apply (string_append_inj_l "(") in H.
    apply string_snoc_inj in H. by apply str_of_nat_inj.
Qed.

(** C4. A round that resolves a hash that the license map did not know
    appends one entry for it, whose type is the declared type of the
    package and whose name is that type when no entry of the map had it
    and, when [n > 0] entries had it, that type followed by [(n)], with
    [n] written as a decimal numeral; all other entries keep their name
    and type. So in every state of a run each entry is named after the
    number of entries of its own type that precede it, however many
    entries of other types there are, and no two entries of one type have
    the same name. *)
Theorem names_count_per_type (st : State World) :
  reachable P download st →
  (∀ st' k p h,
     step P download st = Some (Next st') →
     dict_get (res st) k = None → dict_get (res st') k = Some p →
     license_hash p = Some h → dict_get (licenses st) h = None →
     ∃ L, licenses st' !! length (licenses st) = Some (h, L) ∧
          length (licenses st') = S (length (licenses st)) ∧
          type L = license p ∧
          name L =
            (let n := length (of_type (license p) (licenses st)) in
             if decide (n = 0) then license p
             else Some (match license p with Some s => s | None => "None" end
                        +:+ "(" +:+ Py.str_of_nat n +:+ ")"))) ∧
  (∀ n h L,
     licenses st !! n = Some (h, L) →
     name L =
       (let c := length (of_type (type L) (take n (licenses st))) in
        if decide (c = 0) then type L
        else Some (match type L with Some s => s | None => "None" end
                   +:+ "(" +:+ Py.str_of_nat c +:+ ")"))) ∧
  (∀ n, Nat.of_uint <$> DecimalString.NilZero.uint_of_string (Py.str_of_nat n) = Some n ∧
        (String.prefix "0" (Py.str_of_nat n) = true → n = 0)) ∧
  (∀ n1 n2 h1 h2 L1 L2,
     licenses st !! n1 = Some (h1, L1) → licenses st !! n2 = Some (h2, L2) →
     type L1 = type L2 → name L1 = name L2 → n1 = n2).
Proof.
  intros Hr.
  assert (∀ n h L,
     licenses st !! n = Some (h, L) →
     name L =
       (let c := length (of_type (type L) (take n (licenses st))) in
        if decide (c = 0) then type L
        else Some (match type L with Some s => s | None => "None" end
                   +:+ "(" +:+ Py.str_of_nat c +:+ ")"))) as Hnames.
  { intros n h L Hn. rewrite (names_by_count st Hr n h L Hn).
    unfold unique_name. rewrite n_of_this_type_of_type. by destruct (type L). }
  split_and!.
  - intros st' k p h Hstep%step_Round Hk Hp Hh Hnew.
    destruct (round_licenses_get P download _ _ Hr Hstep)
      as [[_ E]|(k0 & p0 & h0 & ls1 & Hk0 & _ & E & _ & Hh0 & _ & Hreg & ->)].
    { rewrite E in Hp. congruence. }
    rewrite E, (dict_get_snoc _ _ _ _ (res_fresh P download st k0 Hr Hk0)) in Hp.
    destruct (decide (k = k0)) as [->|]; [|congruence].
    injection Hp as ->. assert (h0 = h) as -> by congruence.
    destruct Hreg as [[[? ?] _]|[_ [pth ->]]]; [congruence|].
    rewrite (dict_update_snoc _ _ _ _ Hnew).
    eexists. rewrite lookup_app_r, Nat.sub_diag by done. simpl.
    split_and!; [done | rewrite length_app; simpl; lia | done |].
    unfold unique_name. rewrite n_of_this_type_of_type. by destruct (license p).
  - exact Hnames.
  - intros n. split; [apply str_of_nat_read | apply str_of_nat_no_leading_zero].
  - intros n1 n2 h1 h2 L1 L2 H1 H2 Ht Hname.
    rewrite (Hnames _ _ _ H1), (Hnames _ _ _ H2), <- Ht in Hname.
    apply counted_name_inj in Hname.
    destruct (Nat.lt_trichotomy n1 n2) as [Hlt|[?|Hlt]]; [|done|].
    + pose proof (of_type_take_lt _ _ _ _ _ Hlt H1). lia.
    + pose proof (of_type_take_lt _ _ _ _ _ Hlt H2) as Hc. rewrite <- Ht in Hc. lia.
Qed.

(** *** The children lists *)

Lemma push_deps_spec l deps : ∀ hp td hp' td',
  fold_left (push_dep l) deps (hp, td) = (hp', td') →
  l < length hp →
  ∃ new, td' = td ++ new ∧
         length new = length deps ∧
         length hp' = length hp + length deps ∧
         (∀ l', l' ≠ l → l' < length hp → hp' !! l' = hp !! l') ∧
         Forall (λ t : string * string * loc,
                   length hp ≤ t.2 ∧ hp' !! t.2 = Some []) new ∧
         NoDup (snd <$> new).
Proof.
  induction deps as [|[dident durl] deps IH]; intros hp td hp' td'; simpl.
  - intros [= <- <-] _. exists []. rewrite app_nil_r.
    split_and!; try done; try lia. apply NoDup_nil_2.
  - intros Hfold Hl.
    apply IH in Hfold as (new & -> & Hlen & Hhp & Hold & Hnew & Hnd);
      [|rewrite length_alter, length_app; simpl; lia].
    rewrite length_alter, length_app in *. simpl in *.
    assert (∀ l', l' ≠ l → l' < length hp + 1 →
              hp' !! l' = (hp ++ [[]]) !! l') as Hold'.
    { intros l' Hne Hlt. rewrite (Hold l' Hne Hlt).
      by rewrite list_lookup_alter_ne. }
    exists ((dident, durl, length hp) :: new). rewrite <- app_assoc.
    split_and!.
    + done.
    + simpl. lia.
    + lia.
    + intros l' Hne Hlt. rewrite Hold' by lia. by rewrite lookup_app_l.
    + apply Forall_cons. split.
      * simpl. split; [lia|]. rewrite Hold' by lia.
        by rewrite lookup_app_r, Nat.sub_diag.
      * eapply Forall_impl; [exact Hnew|]. simpl. intros t [? ?]. split; [lia|done].
    + simpl. apply NoDup_cons. split; [|done].
      intros (t & Ht & Hin)%list_elem_of_fmap.
      rewrite Forall_forall in Hnew. apply Hnew in Hin as [Hge _]. lia.
Qed.

(** At the head of the loop every [todo] item holds an empty children
    list of its own, and when [todo] is empty the variable [tree] is the
    (empty) list of the item popped last. *)
Lemma tree_var_invariant st :
  reachable P download st →
  Forall (λ t : string * string * loc, heap st !! t.2 = Some []) (todo st) ∧
  NoDup (snd <$> todo st) ∧
  (todo st = [] → ∃ l, tree st = TList l ∧ heap st !! l = Some []).
Proof.
  intros Hr. run_induction st Hr.
  - simpl. split_and!; [by apply Forall_singleton | apply NoDup_singleton | done].
  - destruct IH as (Hall & Hnd & _).
    assert (∀ rest ident url l, todo st = rest ++ [(ident, url, l)] →
              Forall (λ t : string * string * loc, heap st !! t.2 = Some []) rest ∧
              NoDup (snd <$> rest) ∧
              heap st !! l = Some [] ∧ l ∉ (snd <$> rest)) as Hpop.
    { intros rest ident url l E. rewrite E in Hall, Hnd.
      apply Forall_app in Hall as [Hrest Hl]. rewrite Forall_singleton in Hl.
      rewrite fmap_app in Hnd. apply NoDup_app in Hnd as (Hnd & Hdisj & _).
      simpl in *. split_and!; try done.
      intros Hin. apply (Hdisj _ Hin). set_solver. }
    round_cases Hrd; simpl;
      destruct (Hpop _ _ _ _ Htodo) as (Hrest & Hndr & Hl & Hnotin);
      [split_and!; eauto..|].
    assert (todo' = [] → heap' !! l = Some []) as Hlast.
    { destruct (p_deps props) as [|d ds]; [by injection Hpush as <- <-|].
      intros ->. apply push_deps_spec in Hpush as (new & E & Hlen & _);
        [|by eapply lookup_lt_Some].
      symmetry in E. apply app_eq_nil in E as [_ ->]. done. }
    apply push_deps_spec in Hpush
      as (new & -> & Hlen & Hhp & Hold & Hnew & Hndn);
      [|by eapply lookup_lt_Some].
    split_and!.
    + apply Forall_app. split.
      * rewrite Forall_forall in Hrest |- *. intros t Ht.
        rewrite Hold; [by apply Hrest| |eapply lookup_lt_Some; by apply Hrest].
        intros E. apply Hnotin. rewrite <- E. apply list_elem_of_fmap. eauto.
      * eapply Forall_impl; [exact Hnew|]. by intros t [_ ?].
    + rewrite fmap_app. apply NoDup_app. split_and!; [done| |done].
      intros x (t & -> & Ht)%list_elem_of_fmap (t' & E & Ht')%list_elem_of_fmap.
      rewrite Forall_forall in Hrest, Hnew.
      apply Hrest, lookup_lt_Some in Ht. apply Hnew in Ht' as [Hge _]. lia.
    + intros E. exists l. split; [done|]. by apply Hlast.
Qed.

(** Whenever the loop of [scrape] ends, the value of [tree] that is
    returned is the empty list. *)
Lemma returned_tree_empty fuel w ident url st :
  scrape P download fuel w ident url = Some (Next st) →
  read_tree (heap st) (tree st) = VList [].
Proof.
  intros [Hr Htodo]%scrape_reachable.
  destruct (tree_var_invariant st Hr) as (_ & _ & Hlast).
  destruct (Hlast Htodo) as (l & -> & Hl). simpl.
  destruct (length (heap st)) eqn:E.
  - apply lookup_lt_Some in Hl. lia.
  - simpl. by rewrite Hl.
Qed.

(** C1. Two packages of the package map are recorded under the same License
    entry exactly when their license bodies hash identically (both bodies
    absent counts as identical, a present and an absent body never do),
    which is also exactly when they store the same license hash; and two
    packages whose fetched bodies have the same text are listed in one
    entry, the only entry that lists either of them. *)
Theorem same_entry_iff_same_hash (st : State World) (a b : string)
    (pa pb : Package) :
  reachable P download st →
  dict_get (res st) a = Some pa →
  dict_get (res st) b = Some pb →
  (same_entry (licenses st) a b ↔
   same_body_hash P (license_body_of (trace st) a)
                    (license_body_of (trace st) b)) ∧
  (same_entry (licenses st) a b ↔ license_hash pa = license_hash pb) ∧
  (∀ ra rb,
     license_body_of (trace st) a = Some ra →
     license_body_of (trace st) b = Some rb →
     text ra = text rb →
     ∃ h L, dict_get (licenses st) h = Some L ∧
            a ∈ packages L ∧ b ∈ packages L ∧
            ∀ h' L', dict_get (licenses st) h' = Some L' →
                     a ∈ packages L' ∨ b ∈ packages L' → h' = h).
Proof.
  intros Hr Ha Hb.
  destruct (package_entry P download st Hr a pa Ha) as (_ & Hha & La & HLa & HaL).
  destruct (package_entry P download st Hr b pb Hb) as (_ & Hhb & Lb & HLb & HbL).
  assert (same_entry (licenses st) a b ↔ license_hash pa = license_hash pb)
    as Hiff.
  { split.
    - intros (h & L & HL & Hal & Hbl).
      destruct (entry_package P download st Hr _ _ _ HL Hal) as (p1 & Hp1 & Hh1).
      destruct (entry_package P download st Hr _ _ _ HL Hbl) as (p2 & Hp2 & Hh2).
      congruence.
    - rewrite Hha, Hhb. intros [= E]. rewrite <- E in HLb.
      exists (hash_body P (license_body_of (trace st) a)), La.
      split_and!; [done..|]. congruence. }
  split_and!; [|done|].
  - rewrite Hiff, Hha, Hhb, <- hash_body_eq. split; congruence.
  - intros ra rb Hra Hrb Htext.
    assert (hash_body P (license_body_of (trace st) a)
            = hash_body P (license_body_of (trace st) b)) as E.
    { rewrite Hra, Hrb. simpl. by rewrite Htext. }
    rewrite <- E in HLb. assert (Lb = La) as -> by congruence.
    exists (hash_body P (license_body_of (trace st) a)), La.
    split_and!; [done..|].
    intros h' L' HL' [Hk|Hk];
      destruct (entry_package P download st Hr _ _ _ HL' Hk) as (p & Hp & Hh);
      congruence.
Qed.
End Claims.

(** ** Missing license bodies and failed license requests *)

Section Bodies.
Context {World : Type} (P : Platform World) (download : option string).

Lemma round_license_requests st st' :
  Round P download st st' →
  fetched_licenses (trace st') = fetched_licenses (trace st) ∨
  ∃ k, (k ∉ done st) ∧
       fetched_licenses (trace st') = fetched_licenses (trace st) ++ [k].
Proof.
  intros Hrd. unfold fetched_licenses. round_cases Hrd; simpl.
  - left. rewrite omap_app. simpl. by rewrite app_nil_r.
  - left. rewrite !omap_app. simpl. by rewrite !app_nil_r.
  - apply fetched_trace in Hfetch as (_ & _ & Hl & _).
    rewrite !omap_app. simpl. unfold fetched_licenses in Hl. rewrite Hl.
    replace warnings with (scan_rules ident (bs4_parse P (text html))).2
      by (by rewrite Hscan).
    pose proof (fetched_licenses_warnings ident (bs4_parse P (text html))) as Hw.
    unfold fetched_licenses in Hw. rewrite Hw. simpl. rewrite !app_nil_r.
    destruct body; [right; by exists ident | left; by rewrite app_nil_r].
Qed.

(** A license body is requested at most once per ident. *)
Lemma license_requests_NoDup st :
  reachable P download st → NoDup (fetched_licenses (trace st)).
Proof.
  intros Hr. run_induction st Hr; [apply NoDup_nil_2|].
  destruct (round_license_requests _ _ Hrd) as [->|(k & Hk & ->)]; [done|].
  apply NoDup_app. split_and!; [done| |apply NoDup_singleton].
  intros x Hx ->%list_elem_of_singleton.
  by apply (licenses_done P download st Hr) in Hx.
Qed.

(** The answer to the license request of [k] is the body that is hashed
    for [k]. *)
Lemma license_body_of_answer st k u r :
  reachable P download st →
  GetLicense k u r ∈ trace st → license_body_of (trace st) k = Some r.
Proof.
  intros Hr Hin. unfold license_body_of.
  assert (r ∈ omap (license_response k) (trace st)) as Hr0.
  { apply list_elem_of_omap. exists (GetLicense k u r). split; [done|].
    simpl. by rewrite decide_True. }
  destruct (omap (license_response k) (trace st)) as [|x l] eqn:E;
    [by apply elem_of_nil in Hr0|].
  simpl. f_equal.
  assert (x ∈ omap (license_response k) (trace st)) as Hx by (rewrite E; left).
  apply list_elem_of_omap in Hx as (e & He & Hfe).
  destruct e as [| | | |k' u' r']; try done. simpl in Hfe.
  case_decide; [subst k'|done]. injection Hfe as ->.
  assert (GetLicense k u' x = GetLicense k u r) as [= _ ->]; [|done].
  by apply (omap_NoDup_inj license_ident (trace st) _ _ k
              (license_requests_NoDup st Hr)).
Qed.

(** Whatever the status of the answer to its license request, the package
    stores the hash of the text of that answer, never the sentinel. *)
Lemma license_answer_hashed st k p u r :
  reachable P download st →
  dict_get (res st) k = Some p →
  GetLicense k u r ∈ trace st →
  license_hash p =
    Some (Py.slice_from 2 (Py.hex (str_hash P (str_strip P (text r))))) ∧
  license_hash p ≠ Some "<unhashed>".
Proof.
  intros Hr Hp Hin.
  destruct (package_entry P download st Hr k p Hp) as (_ & -> & _).
  rewrite (license_body_of_answer st k u r Hr Hin). simpl. split; [done|].
  intros [= E]. by apply hex_slice_not_sentinel in E.
Qed.

(** A package without a license URL stores the sentinel, whatever type it
    declares. *)
Lemma no_url_unhashed st :
  reachable P download st → ∀ k p,
  dict_get (res st) k = Some p → license_url p = None →
  license_hash p = Some "<unhashed>".
Proof.
  intros Hr. run_induction st Hr; [done|].
  round_cases Hrd; simpl; [done..|].
  rewrite (dict_set_fresh _ _ _ (res_fresh P download st ident Hr Hnin)).
  intros k p. rewrite (dict_get_snoc _ _ _ _ (res_fresh P download st ident Hr Hnin)).
  case_decide; [|apply IH]. intros [= <-]. simpl. intros Hnone.
  apply fetched_trace in Hfetch as (_ & _ & _ & _ & Hb).
  apply Hb in Hnone as ->. done.
Qed.

(** Two packages without a license URL are recorded under the same
    License entry, whatever types they declare. *)
Lemma no_url_same_entry st a b pa pb :
  reachable P download st →
  dict_get (res st) a = Some pa → dict_get (res st) b = Some pb →
  license_url pa = None → license_url pb = None →
  same_entry (licenses st) a b.
Proof.
  intros Hr Ha Hb Hua Hub.
  pose proof (no_url_unhashed st Hr a pa Ha Hua) as Hha.
  pose proof (no_url_unhashed st Hr b pb Hb Hub) as Hhb.
  destruct (package_entry P download st Hr a pa Ha) as (_ & Ea & La & HLa & HaL).
  destruct (package_entry P download st Hr b pb Hb) as (_ & Eb & Lb & HLb & HbL).
  rewrite Hha in Ea. rewrite Hhb in Eb.
  injection Ea as Ea. injection Eb as Eb. rewrite <- Ea in HLa. rewrite <- Eb in HLb.
  exists "<unhashed>", La. split_and!; [done..|]. congruence.
Qed.
End Bodies.

(** ** The warnings of a run *)

Lemma penultimate_append (a s : string) :
  penultimate s ≠ None → penultimate (a +:+ s) = penultimate s.
Proof.
  intros Hs. induction a as [|c a IH]; [done|].
  change (String c a +:+ s) with (String c (a +:+ s)).
  destruct (a +:+ s) as [|y [|z t]] eqn:E; simpl in *; congruence.
Qed.

Lemma warn_no_body_fresh (k k' : string) :
  warn_no_body k ≠ warn_no_page k' ∧ warn_no_body k ≠ warn_no_url k'.
Proof.
  unfold warn_no_body, warn_no_page, warn_no_url.
  split; intros H.
  { apply (f_equal (Py.slice_from 14)) in H. simpl in H. discriminate. }
  apply (f_equal (Py.slice_from 40)) in H. simpl in H.
  apply (f_equal penultimate) in H.
  change (String.append EmptyString) with (λ s : string, s) in H. cbv beta in H.
  rewrite (penultimate_append k "' (cannot verify license hash)"),
          (penultimate_append k' "' (no URL given)") in H by done.
  simpl in H. discriminate.
Qed.

Section Warnings.
Context {World : Type} (P : Platform World) (download : option string).

Lemma warnings_printed st :
  reachable P download st → ∀ m,
  Warn m ∈ trace st → ∃ k, m = warn_no_page k ∨ m = warn_no_url k.
Proof.
  intros Hr. run_induction st Hr; [by intros m ?%elem_of_nil|].
  intros m. round_cases Hrd; simpl; rewrite ?elem_of_app.
  - intros [?|[=]%list_elem_of_singleton]. eauto.
  - intros [[[?|[=]%list_elem_of_singleton]|[=]%list_elem_of_singleton]
           |[= ->]%list_elem_of_singleton]; eauto.
  - intros [[[?|[=]%list_elem_of_singleton]|[=]%list_elem_of_singleton]|[Hw|Hl]];
      eauto.
    + replace warnings with (scan_rules ident (bs4_parse P (text html))).2 in Hw
        by (by rewrite Hscan).
      apply scan_rules_events in Hw as [= ->]. eauto.
    + unfold fetched in Hfetch. destruct (p_license_url props).
      * destruct Hfetch as (r0 & _ & _ & ->). set_solver.
      * destruct Hfetch as (_ & _ & ->). set_solver.
Qed.

(** The warning that a license body could not be fetched is never
    printed. *)
Lemma never_warns_no_body st k :
  reachable P download st → Warn (warn_no_body k) ∉ trace st.
Proof.
  intros Hr Hin. apply (warnings_printed st Hr) in Hin as [k' [E|E]];
    by apply (warn_no_body_fresh k k') in E.
Qed.
End Warnings.

(** ** The crawl is a function of what its platform does *)

Section Determinism.
Context {World : Type} (P1 P2 : Platform World) (download : option string).
Hypothesis Hagree : platform_agree P1 P2.

Lemma ensure_download_agree w :
  ensure_download P1 download w = ensure_download P2 download w.
Proof.
  destruct Hagree as (_ & _ & _ & _ & Hex & Hmk & _).
  unfold ensure_download. destruct download; [|done]. by rewrite Hex, Hmk.
Qed.

Lemma fetch_license_agree ident html license_url w :
  fetch_license P1 ident html license_url w =
  fetch_license P2 ident html license_url w.
Proof.
  destruct Hagree as (Hget & _).
  unfold fetch_license. destruct license_url; [|done]. by rewrite Hget.
Qed.

Lemma hash_body_agree body : hash_body P1 body = hash_body P2 body.
Proof.
  destruct Hagree as (_ & _ & Hh & Hs & _).
  unfold hash_body. destruct body; [|done]. by rewrite Hs, Hh.
Qed.

Lemma license_path_agree ident license w :
  license_path P1 download ident license w =
  license_path P2 download ident license w.
Proof.
  destruct Hagree as (_ & _ & _ & _ & Hex & Hmk & _).
  unfold license_path. destruct download; [|done].
  destruct license; [|done]. by rewrite Hex, Hmk.
Qed.

Lemma register_agree ident license body h ls w :
  register P1 download ident license body h ls w =
  register P2 download ident license body h ls w.
Proof.
  destruct Hagree as (_ & _ & _ & _ & _ & _ & Hwr).
  unfold register. destruct (dict_mem h ls); [done|].
  rewrite license_path_agree.
  destruct (license_path P2 download ident license w) as [|[pth w1]]; [done|].
  destruct body, pth; try done. by rewrite Hwr.
Qed.

Lemma body_agree st ident url l :
  body P1 download st ident url l = body P2 download st ident url l.
Proof.
  unfold body. destruct (decide (ident ∈ done st)); [done|].
  rewrite ensure_download_agree.
  destruct (ensure_download P2 download (world st)) as [|w1]; [done|].
  destruct Hagree as (Hget & Hparse & _). rewrite Hget.
  destruct (requests_get P2 w1 url) as [html w2].
  destruct (decide (status_code html ≠ 200%Z)); [done|].
  rewrite Hparse.
  destruct (scan_rules ident (bs4_parse P2 (text html))) as [props warnings].
  rewrite fetch_license_agree.
  destruct (fetch_license P2 ident html (p_license_url props) w2)
    as [[lbody w3] trl].
  rewrite hash_body_agree, register_agree.
  destruct (register P2 download ident (p_license props) lbody
              (hash_body P2 lbody) (licenses st) w3) as [|[ls1 w4]]; [done|].
  done.
Qed.

Lemma loop_agree fuel st :
  loop P1 download fuel st = loop P2 download fuel st.
Proof.
  revert st. induction fuel as [|fuel IH]; intros st; simpl; [done|].
  assert (step P1 download st = step P2 download st) as ->.
  { unfold step. destruct (Py.pop (todo st)) as [[rest [[ident url] l]]|];
      [|done]. by rewrite body_agree. }
  destruct (step P2 download st) as [[st'|st']|]; [apply IH|done..].
Qed.
End Determinism.

(** ** The report *)


(** ** Runs on the demo registry *)

Lemma demo_app_reachable :
  reachable Demo.hackage1 None (Demo.app_final).
Proof.
  apply (scrape_reachable Demo.hackage1 None 20 tt "app" (Demo.page_url "app")).
  vm_compute. reflexivity.
Defined.

Lemma demo_pair_reachable :
  reachable Demo.hackage1 None (Demo.pair_final).
Proof.
  apply (scrape_reachable Demo.hackage1 None 20 tt "pair" (Demo.page_url "pair")).
  vm_compute. reflexivity.
Defined.

(** C3, on the code. [pair] declares MIT and [base] declares BSD-3-Clause,
    both without a license URL: both store the same constant
    ["<unhashed>"], and the run ends with one License entry, of type MIT,
    that lists both. *)
Theorem unhashed_sentinel_ignores_type :
  let st := Demo.pair_final in
  scrape Demo.hackage1 None 20 tt "pair" (Demo.page_url "pair") = Some (Next st) ∧
  (λ p, (license p, license_url p, license_hash p)) <$> dict_get (res st) "pair"
    = Some (Some "MIT", None, Some "<unhashed>") ∧
  (λ p, (license p, license_url p, license_hash p)) <$> dict_get (res st) "base"
    = Some (Some "BSD-3-Clause", None, Some "<unhashed>") ∧
  licenses st =
    [("<unhashed>",
      {| name := Some "MIT"; type := Some "MIT"; shash := "<unhashed>";
         path := None; packages := ["pair"; "base"] |})] ∧
  same_entry (licenses st) "pair" "base".
Proof.
  split_and!; [by vm_compute..|].
  eapply (no_url_same_entry Demo.hackage1 None _ "pair" "base");
    [exact demo_pair_reachable | vm_compute; reflexivity..].
Qed.

(** The sibling [unique_licenses] does derive the sentinel from the declared
    type: two packages without a hash and with different types get
    different identities. *)
Lemma unique_licenses_separates_types :
  (unique_licenses
     [("pair", {| ident := "pair"; short := ""; url := ""; license := Some "MIT";
                  license_url := None; license_hash := None |});
      ("base", {| ident := "base"; short := ""; url := "";
                  license := Some "BSD-3-Clause";
                  license_url := None; license_hash := None |})] [] ∅).1
  = ([("pair", Some "MIT"); ("base", Some "BSD-3-Clause")],
     [("MIT_unhashed", Some "MIT");
      ("BSD-3-Clause_unhashed", Some "BSD-3-Clause")]).
Proof. by vm_compute. Qed.

(** C5, on the code. [app] has three dependencies and they have their own,
    yet the value of [tree] that [scrape] returns is the empty list: it is
    the children list of the item popped last, not the tuple of the root.
    The children list of the root, which is not returned, holds the tree. *)
Theorem returned_tree_is_last_children_list :
  let st := Demo.app_final in
  scrape Demo.hackage1 None 20 tt "app" (Demo.page_url "app") = Some (Next st) ∧
  dict_keys (res st) = ["app"; "lib2"; "base"; "lib1"] ∧
  read_tree (heap st) (tree st) = VList [] ∧
  read_tree (heap st) (TRoot "app" 0) =
    VTuple (PyNode "app"
              [PyNode "lib1" [PyNode "base" []; PyNode "gone" []];
               PyNode "lib2" [PyNode "base" []];
               PyNode "gone" []]).
Proof. split_and!; by vm_compute. Qed.

(** C6, on the code. The license URL of [tool] answers 404: nothing is
    printed about it, the text of the 404 answer is hashed and stored as the
    license hash of [tool], and a License entry is created for that hash. *)
Theorem failed_license_body_is_hashed :
  let st := Demo.tool_final in
  scrape Demo.hackage1 None 20 tt "tool" (Demo.page_url "tool") = Some (Next st) ∧
  trace st =
    [Progress 1 1;
     GetPage "tool" (Demo.page_url "tool") (Demo.ok "<tool>");
     GetLicense "tool" (hackage +:+ "/package/tool/src/LICENSE") Demo.not_found] ∧
  status_code Demo.not_found ≠ 200%Z ∧
  warnings_of (trace st) = [] ∧
  license_hash <$> dict_get (res st) "tool"
    = Some (Some (Py.slice_from 2 (Py.hex (Demo.hash1 (text Demo.not_found))))) ∧
  license_hash <$> dict_get (res st) "tool" ≠ Some (Some "<unhashed>") ∧
  licenses st =
    [("9", {| name := Some "MIT"; type := Some "MIT"; shash := "9";
              path := None; packages := ["tool"] |})].
Proof. split_and!; by vm_compute. Qed.

(** C8, on the code. Two runs on the same server and the same pages, in two
    processes whose [hash] differs, store different license hashes: the
    package maps differ. *)
Lemma hash_salt_changes_package_map :
  let st1 := Demo.app_final in
  let st2 := Demo.final Demo.hackage2 20 "app" in
  (∀ w u, requests_get Demo.hackage1 w u = requests_get Demo.hackage2 w u) ∧
  (∀ html, bs4_parse Demo.hackage1 html = bs4_parse Demo.hackage2 html) ∧
  scrape Demo.hackage1 None 20 tt "app" (Demo.page_url "app") = Some (Next st1) ∧
  scrape Demo.hackage2 None 20 tt "app" (Demo.page_url "app") = Some (Next st2) ∧
  license_hash <$> dict_get (res st1) "app" = Some (Some "1c") ∧
  license_hash <$> dict_get (res st2) "app" = Some (Some "x1c") ∧
  res st1 ≠ res st2.
Proof. split_and!; by vm_compute. Qed.

(** C8, as the code has it. Two runs whose platforms behave alike (the same
    answers of the server and of the file system, the same parser, and the
    same [hash] and [strip], as within one interpreter process) and that
    start from the same arguments end in the same state: the same package
    map with the same license hashes, the same License entries with the
    same packages lists, the same trace; and [main] writes the same
    report. *)
Theorem same_platform_same_result {World} (P1 P2 : Platform World)
    (download : option string) (fuel : nat) (w : World) (ident url : string)
    (colors show_list trim : bool) :
  platform_agree P1 P2 →
  scrape P1 download fuel w ident url = scrape P2 download fuel w ident url ∧
  main P1 fuel w ident download colors show_list trim =
  main P2 fuel w ident download colors show_list trim.
Proof.
  intros H. unfold main, scrape. by rewrite !(loop_agree P1 P2 download H).
Qed.

Lemma same_platform_same_result_witness :
  platform_agree Demo.hackage1 Demo.hackage1_again ∧
  returned <$> scrape Demo.hackage1 None 20 tt "app" (Demo.page_url "app") =
  returned <$> scrape Demo.hackage1_again None 20 tt "app" (Demo.page_url "app").
Proof.
  assert (platform_agree Demo.hackage1 Demo.hackage1_again) as H.
  { unfold platform_agree. simpl. split_and!; try done.
    intros s. unfold Demo.hash1. lia. }
  split; [exact H|].
  by rewrite (proj1 (same_platform_same_result Demo.hackage1 Demo.hackage1_again None 20 tt
                       "app" (Demo.page_url "app") false false false H)).
Defined.


Lemma ident_visited_once_witness :
  reachable Demo.hackage1 None Demo.app_final ∧
  fetched_pages (trace Demo.app_final) = ["app"; "gone"; "lib2"; "base"; "lib1"] ∧
  NoDup (fetched_pages (trace Demo.app_final)) ∧
  NoDup (dict_keys (res Demo.app_final)) ∧
  NoDup (elements (done Demo.app_final)).
Proof.
  split; [exact demo_app_reachable|]. split; [by vm_compute|].
  exact (proj1 (ident_visited_once Demo.hackage1 None Demo.app_final demo_app_reachable)).
Defined.

Lemma usage_partitions_packages_witness :
  reachable Demo.hackage1 None Demo.app_final ∧
  usage (licenses Demo.app_final) = ["app"; "lib1"; "lib2"; "base"] ∧
  dict_keys (res Demo.app_final) = ["app"; "lib2"; "base"; "lib1"] ∧
  NoDup (usage (licenses Demo.app_final)) ∧
  (∀ k, k ∈ dict_keys (res Demo.app_final) ↔
        ∃ h L, dict_get (licenses Demo.app_final) h = Some L ∧ k ∈ packages L).
Proof.
  split; [exact demo_app_reachable|]. split_and!; [by vm_compute..| |].
  - exact (proj1 (usage_partitions_packages Demo.hackage1 None Demo.app_final
                    demo_app_reachable)).
  - exact (proj1 (proj2 (proj2 (proj2
             (usage_partitions_packages Demo.hackage1 None Demo.app_final
                demo_app_reachable))))).
Defined.

Lemma same_entry_iff_same_hash_witness :
  reachable Demo.hackage1 None Demo.app_final ∧
  license_body_of (trace Demo.app_final) "app"
    = Some (Demo.ok "Permission is hereby granted") ∧
  license_body_of (trace Demo.app_final) "lib1"
    = Some (Demo.ok "Permission is hereby granted") ∧
  license_body_of (trace Demo.app_final) "lib2" = Some (Demo.ok "Permission is granted") ∧
  same_entry (licenses Demo.app_final) "app" "lib1" ∧
  ¬ same_entry (licenses Demo.app_final) "app" "lib2".
Proof.
  split; [exact demo_app_reachable|]. split_and!; [by vm_compute..| |].
  - eapply (same_entry_iff_same_hash Demo.hackage1 None Demo.app_final "app" "lib1");
      [exact demo_app_reachable | vm_compute; reflexivity..].
  - intros H.
    eapply (same_entry_iff_same_hash Demo.hackage1 None Demo.app_final "app" "lib2")
      in H; [|exact demo_app_reachable | vm_compute; reflexivity..].
    vm_compute in H. discriminate.
Defined.

Lemma failed_page_never_retried_witness :
  reachable Demo.hackage1 None Demo.app_final ∧
  GetPage "gone" (Demo.page_url "gone") Demo.not_found ∈ trace Demo.app_final ∧
  "gone" ∈ done Demo.app_final ∧
  Warn (warn_no_page "gone") ∈ trace Demo.app_final ∧
  dict_get (res Demo.app_final) "gone" = None ∧
  (∀ u' r', GetPage "gone" u' r' ∈ trace Demo.app_final →
            u' = Demo.page_url "gone" ∧ r' = Demo.not_found).
Proof.
  assert (GetPage "gone" (Demo.page_url "gone") Demo.not_found ∈ trace Demo.app_final)
    as Hin by (by apply (list_elem_of_lookup_2 _ 4)).
  split; [exact demo_app_reachable|]. split; [exact Hin|].
  pose proof (failed_page_never_retried Demo.hackage1 None Demo.app_final "gone"
                (Demo.page_url "gone") Demo.not_found demo_app_reachable Hin
                ltac:(discriminate)) as (H1 & H2 & H3 & H4 & _).
  exact (conj H1 (conj H2 (conj H3 H4))).
Defined.

Lemma names_count_per_type_witness :
  reachable Many.registry None Many.many_final ∧
  (λ kv : string * License, (type kv.2, name kv.2)) <$> licenses Many.many_final
    = [(Some "MIT", Some "MIT"); (Some "MIT", Some "MIT(1)");
       (Some "MIT", Some "MIT(2)"); (Some "MIT", Some "MIT(3)");
       (Some "MIT", Some "MIT(4)"); (Some "MIT", Some "MIT(5)");
       (Some "BSD-3-Clause", Some "BSD-3-Clause");
       (Some "MIT", Some "MIT(6)"); (Some "MIT", Some "MIT(7)");
       (Some "MIT", Some "MIT(8)"); (Some "MIT", Some "MIT(9)");
       (Some "MIT", Some "MIT(10)"); (Some "MIT", Some "MIT(11)")] ∧
  (∀ n h L,
     licenses Many.many_final !! n = Some (h, L) →
     name L =
       (let c := length (of_type (type L) (take n (licenses Many.many_final))) in
        if decide (c = 0) then type L
        else Some (match type L with Some s => s | None => "None" end
                   +:+ "(" +:+ Py.str_of_nat c +:+ ")"))) ∧
  (∀ n1 n2 h1 h2 L1 L2,
     licenses Many.many_final !! n1 = Some (h1, L1) →
     licenses Many.many_final !! n2 = Some (h2, L2) →
     type L1 = type L2 → name L1 = name L2 → n1 = n2).
Proof.
  assert (reachable Many.registry None Many.many_final) as Hr.
  { apply (scrape_reachable Many.registry None 20 tt "m0" (Demo.page_url "m0")).
    vm_compute. reflexivity. }
  split; [exact Hr|]. split; [by vm_compute|].
  pose proof (names_count_per_type Many.registry None Many.many_final Hr)
    as (_ & Hnames & _ & Hdistinct).
  exact (conj Hnames Hdistinct).
Defined.

(** * Further properties of the crawl *)

(** ** The package map and the license map, read off the trace *)

Section MoreRunFacts.
Context {World : Type} (P : Platform World) (download : option string).

(** What a round does to [done], [res] and the trace, with the package it
    builds spelled out. *)
Lemma round_package st st' :
  reachable P download st → Round P download st st' →
  (∃ delta, trace st' = trace st ++ delta ∧ res st' = res st ∧
            done st' = done st ∧ fetched_pages delta = [] ∧
            fetched_licenses delta = []) ∨
  (∃ k u r, (k ∉ done st) ∧ status_code r ≠ 200%Z ∧
            trace st' = trace st ++ [Progress (i st') (i st' + length (todo st'))]
                        ++ [GetPage k u r; Warn (warn_no_page k)] ∧
            res st' = res st ∧ done st' = {[k]} ∪ done st) ∨
  (∃ k u r delta, (k ∉ done st) ∧ status_code r = 200%Z ∧
            trace st' = trace st ++ delta ∧
            GetPage k u r ∈ delta ∧
            (∀ k' u' r', GetPage k' u' r' ∈ delta → k' = k ∧ u' = u ∧ r' = r) ∧
            (∀ k' u' r', GetLicense k' u' r' ∈ delta →
                         k' = k ∧ p_license_url (scan_rules k (bs4_parse P (text r))).1 = Some u' ∧
                         license_body_of (trace st') k = Some r') ∧
            (p_license_url (scan_rules k (bs4_parse P (text r))).1 = None →
             license_body_of (trace st') k = None) ∧
            (∀ u', p_license_url (scan_rules k (bs4_parse P (text r))).1 = Some u' →
                   ∃ r', GetLicense k u' r' ∈ delta) ∧
            res st' = res st ++ [(k, package_of P k u r (license_body_of (trace st') k))] ∧
            done st' = {[k]} ∪ done st).
Proof.
  intros Hr Hrd.
  pose proof (round_license_body P download st st' Hr Hrd) as [_ Habs].
  round_cases Hrd; simpl in *.
  - left. eexists. split_and!; done.
  - right. left. exists ident, url, html. split_and!; try done.
    by rewrite <- !app_assoc.
  - right. right.
    exists ident, url, html,
      ([Progress (S (i st)) (S (i st) + length rest); GetPage ident url html]
         ++ warnings ++ trl).
    assert (warnings = (scan_rules ident (bs4_parse P (text html))).2) as Hw
      by (by rewrite Hscan).
    assert (props = (scan_rules ident (bs4_parse P (text html))).1) as Hp
      by (by rewrite Hscan).
    assert (∀ n, license_body_of
              (((trace st ++ [Progress (S (i st)) n])
                ++ [GetPage ident url html]) ++ warnings ++ trl) ident = body)
      as Hbody.
    { intros n. unfold license_body_of. rewrite !omap_app, (Habs _ Hnin). simpl.
      rewrite Hw, license_response_warnings. simpl.
      apply fetched_trace in Hfetch as (_ & _ & _ & Hl & _). rewrite Hl.
      rewrite decide_True by done. by destruct body. }
    rewrite Hbody. subst props.
    unfold fetched in Hfetch.
    split_and!; try done.
    + by rewrite <- !app_assoc.
    + set_solver.
    + intros k' u' r' Hin. apply elem_of_app in Hin as [Hin|Hin]; [set_solver|].
      apply elem_of_app in Hin as [Hin|Hin].
      * rewrite Hw in Hin. by apply scan_rules_events in Hin.
      * destruct (p_license_url _).
        -- destruct Hfetch as (r0 & _ & _ & ->). set_solver.
        -- destruct Hfetch as (_ & _ & ->). set_solver.
    + intros k' u' r' Hin. apply elem_of_app in Hin as [Hin|Hin]; [set_solver|].
      apply elem_of_app in Hin as [Hin|Hin].
      * rewrite Hw in Hin. by apply scan_rules_events in Hin.
      * destruct (p_license_url _).
        -- destruct Hfetch as (r0 & _ & -> & ->).
           apply list_elem_of_singleton in Hin as [= -> -> ->]. done.
        -- destruct Hfetch as (_ & _ & ->). set_solver.
    + intros Hnone. rewrite Hnone in Hfetch. by destruct Hfetch as (-> & _).
    + intros u' Hu'. rewrite Hu' in Hfetch. destruct Hfetch as (r0 & _ & _ & ->).
      exists r0. set_solver.
    + by rewrite (dict_set_fresh _ _ _ (res_fresh P download st ident Hr Hnin)).
Qed.

Lemma no_page_event (delta : list Event) k u r :
  fetched_pages delta = [] → GetPage k u r ∉ delta.
Proof.
  intros H Hin. assert (k ∈ fetched_pages delta) as Hk.
  { apply list_elem_of_omap. by exists (GetPage k u r). }
  rewrite H in Hk. by apply elem_of_nil in Hk.
Qed.

Lemma license_body_of_app tr delta k :
  k ∉ fetched_licenses delta →
  license_body_of (tr ++ delta) k = license_body_of tr k.
Proof.
  intros H. unfold license_body_of.
  by rewrite omap_app, (license_response_absent delta k H), app_nil_r.
Qed.

(** X1. The visited set holds exactly the idents whose page was requested,
    and the package map holds exactly the idents whose page answered 200,
    each with the Package that its own page and its own license answer
    determine. *)
Theorem packages_are_answered_pages (st : State World) :
  reachable P download st →
  (∀ k, k ∈ done st ↔ k ∈ fetched_pages (trace st)) ∧
  (∀ k p, dict_get (res st) k = Some p ↔
          ∃ u r, GetPage k u r ∈ trace st ∧ status_code r = 200%Z ∧
                 p = package_of P k u r (license_body_of (trace st) k)).
Proof.
  intros Hr. run_induction st Hr.
  { split; [set_solver|]. intros k p. split; [done|].
    by intros (u & r & ?%elem_of_nil & _). }
  destruct IH as [IHd IHp].
  pose proof (pages_done P download st Hr) as Hpd.
  pose proof (round_license_body P download st st' Hr Hrd) as [Hstable _].
  destruct (round_package st st' Hr Hrd)
    as [(delta & -> & -> & -> & Hnp & Hnl)
       |[(k0 & u0 & r0 & Hk0 & Hbad & -> & -> & ->)
        |(k0 & u0 & r0 & delta & Hk0 & Hok & Ht & Hin & Huniq & _ & _ & _ & Hres & Hdone)]].
  - split.
    + intros k. unfold fetched_pages in *. rewrite omap_app, Hnp, app_nil_r. apply IHd.
    + intros k p. rewrite IHp, license_body_of_app
        by (rewrite Hnl; apply not_elem_of_nil).
      split; intros (u & r & Hin & Hrest); exists u, r; (split; [|done]).
      * set_solver.
      * apply elem_of_app in Hin as [?|Hin]; [done|].
        by apply no_page_event in Hin.
  - split.
    + intros k. unfold fetched_pages in *. rewrite !omap_app. simpl.
      rewrite ?app_nil_r, elem_of_app, list_elem_of_singleton, <- IHd. set_solver.
    + intros k p. rewrite IHp, app_assoc, license_body_of_app
        by (simpl; apply not_elem_of_nil).
      rewrite license_body_of_app by (simpl; apply not_elem_of_nil).
      split; intros (u & r & Hin & Hrest); exists u, r; (split; [|done]).
      * set_solver.
      * destruct Hrest as [Hok _].
        apply elem_of_app in Hin as [Hin|Hin]; [|set_solver].
        apply elem_of_app in Hin as [?|Hin]; [done|set_solver].
  - split.
    + intros k. rewrite Hdone, Ht. unfold fetched_pages in *. rewrite omap_app.
      rewrite elem_of_union, elem_of_singleton, elem_of_app, IHd.
      split; intros [Hk|Hk]; auto.
      * subst k. right. apply list_elem_of_omap. by exists (GetPage k0 u0 r0).
      * apply list_elem_of_omap in Hk as (e & He & Hfe).
        destruct e; try done. injection Hfe as ->.
        apply Huniq in He as (-> & _). by left.
    + intros k p. rewrite Hres, (dict_get_snoc _ _ _ _ (res_fresh P download st k0 Hr Hk0)).
      destruct (decide (k = k0)) as [->|Hne].
      * split.
        -- intros [= <-]. exists u0, r0. split_and!; [|done..].
           rewrite Ht. set_solver.
        -- intros (u & r & Hin' & _ & ->). rewrite Ht in Hin'.
           apply elem_of_app in Hin' as [Hin'|Hin'].
           ++ exfalso. apply Hk0, Hpd, list_elem_of_omap. by exists (GetPage k0 u r).
           ++ by apply Huniq in Hin' as (_ & -> & ->).
      * rewrite IHp. split; intros (u & r & Hin' & Hok' & Hp).
        -- exists u, r. split_and!; [rewrite Ht; set_solver | done |].
           rewrite Hstable; [done|]. apply Hpd, list_elem_of_omap.
           by exists (GetPage k u r).
        -- rewrite Ht in Hin'. apply elem_of_app in Hin' as [Hin'|Hin'];
             [|by apply Huniq in Hin' as (? & _)].
           exists u, r. split_and!; [done..|].
           rewrite Hstable in Hp; [done|]. apply Hpd, list_elem_of_omap.
           by exists (GetPage k u r).
Qed.

(** The page of every package of the map was requested. *)
Lemma res_pages st :
  reachable P download st →
  ∀ k, k ∈ dict_keys (res st) → k ∈ fetched_pages (trace st).
Proof.
  intros Hr. run_induction st Hr; [by intros k' ?%elem_of_nil|].
  intros k. unfold fetched_pages in *.
  destruct (round_package st st' Hr Hrd)
    as [(delta & -> & -> & _)
       |[(k0 & u0 & r0 & _ & _ & -> & -> & _)
        |(k0 & u0 & r0 & delta & _ & _ & -> & Hin & _ & _ & _ & _ & -> & _)]].
  - intros Hk. rewrite omap_app, elem_of_app. left. by apply IH.
  - intros Hk. rewrite omap_app, elem_of_app. left. by apply IH.
  - unfold dict_keys. rewrite fmap_app, omap_app, !elem_of_app. simpl.
    intros [Hk| ->%list_elem_of_singleton]; [left; by apply IH|].
    right. apply list_elem_of_omap. by exists (GetPage k0 u0 r0).
Qed.

Lemma license_event_ident (delta : list Event) k :
  k ∈ fetched_licenses delta ↔ ∃ u r, GetLicense k u r ∈ delta.
Proof.
  unfold fetched_licenses. rewrite list_elem_of_omap. split.
  - intros (e & He & Hfe). destruct e; try done. injection Hfe as ->. eauto.
  - intros (u & r & Hin). by exists (GetLicense k u r).
Qed.

Lemma fetched_licenses_app_inv (tr delta : list Event) k :
  k ∈ fetched_licenses (tr ++ delta) →
  k ∈ fetched_licenses tr ∨ ∃ u r, GetLicense k u r ∈ delta.
Proof.
  unfold fetched_licenses. rewrite omap_app, elem_of_app.
  intros [?|Hk]; [by left|]. right. by apply license_event_ident.
Qed.

Lemma license_requests_url st :
  reachable P download st →
  (∀ k p, dict_get (res st) k = Some p →
     (license_url p = None → k ∉ fetched_licenses (trace st)) ∧
     (∀ u, license_url p = Some u → ∃ r, GetLicense k u r ∈ trace st)) ∧
  (∀ k u r, GetLicense k u r ∈ trace st →
     ∃ p, dict_get (res st) k = Some p ∧ license_url p = Some u).
Proof.
  intros Hr. run_induction st Hr.
  { split; [done|]. by intros k u r ?%elem_of_nil. }
  destruct IH as [IHp IHl].
  pose proof (licenses_done P download st Hr) as Hld.
  assert (∀ k p, dict_get (res st) k = Some p → k ∈ done st) as Hrd'.
  { intros k p Hk. apply (res_done P download st Hr). by eapply dict_get_Some_keys. }
  destruct (round_package st st' Hr Hrd)
    as [(delta & -> & -> & _ & Hnp & Hnl)
       |[(k0 & u0 & r0 & Hk0 & Hbad & -> & -> & _)
        |(k0 & u0 & r0 & delta & Hk0 & Hok & -> & Hin & _ & Hlic & _ & Hreq & -> & Hdone)]].
  - split.
    + intros k p Hk. destruct (IHp k p Hk) as [H1 H2]. split.
      * intros Hu. unfold fetched_licenses in *. rewrite omap_app, Hnl, app_nil_r. auto.
      * intros u Hu. destruct (H2 u Hu) as [r ?]. exists r. set_solver.
    + intros k u r [Hin|Hin]%elem_of_app; [by apply (IHl k u r)|].
      assert (k ∈ fetched_licenses delta) as Hk by (apply license_event_ident; eauto).
      rewrite Hnl in Hk. by apply elem_of_nil in Hk.
  - split.
    + intros k p Hk. destruct (IHp k p Hk) as [H1 H2]. split.
      * intros Hu. unfold fetched_licenses in *. rewrite !omap_app. simpl.
        rewrite ?app_nil_r. auto.
      * intros u Hu. destruct (H2 u Hu) as [r ?]. exists r. set_solver.
    + intros k u r [Hin|Hin]%elem_of_app; [by apply (IHl k u r)|]. set_solver.
  - pose proof (res_fresh P download st k0 Hr Hk0) as Hfresh. split.
    + intros k p. rewrite (dict_get_snoc _ _ _ _ Hfresh).
      destruct (decide (k = k0)) as [->|Hne].
      * intros [= <-]. simpl. split.
        -- intros Hu [Hk|(u & r & Hd)]%fetched_licenses_app_inv;
             [by apply Hk0, Hld|].
           apply Hlic in Hd as (_ & Hd & _). congruence.
        -- intros u Hu. destruct (Hreq u Hu) as [r ?]. exists r. set_solver.
      * intros Hk. destruct (IHp k p Hk) as [H1 H2]. split.
        -- intros Hu [Hk'|(u & r & Hd)]%fetched_licenses_app_inv; [by apply H1|].
           by apply Hlic in Hd as (? & _).
        -- intros u Hu. destruct (H2 u Hu) as [r ?]. exists r. set_solver.
    + intros k u r [Hin'|Hin']%elem_of_app.
      * destruct (IHl k u r Hin') as (p & Hp & Hu). exists p. split; [|done].
        rewrite (dict_get_snoc _ _ _ _ Hfresh), decide_False; [done|].
        intros ->. by apply Hk0, (Hrd' _ _ Hp).
      * apply Hlic in Hin' as (-> & Hu & _). eexists.
        rewrite (dict_get_snoc _ _ _ _ Hfresh), decide_True by done. done.
Qed.

(** X2. A package stores ["<unhashed>"] exactly when its page gave no
    license URL, and then no license request was made for it; a package
    with a license URL had that URL requested, and stores the hash of the
    text of the answer, whatever its status. A license request is only made
    for a package of the map, at its license URL. *)
Theorem license_hash_by_url (st : State World) :
  reachable P download st →
  (∀ k p, dict_get (res st) k = Some p →
     (license_url p = None ↔ license_hash p = Some "<unhashed>") ∧
     (license_url p = None ↔ k ∉ fetched_licenses (trace st)) ∧
     (∀ u, license_url p = Some u →
           ∃ r, GetLicense k u r ∈ trace st ∧
                license_hash p =
                  Some (Py.slice_from 2
                          (Py.hex (str_hash P (str_strip P (text r))))))) ∧
  (∀ k u r, GetLicense k u r ∈ trace st →
     ∃ p, dict_get (res st) k = Some p ∧ license_url p = Some u).
Proof.
  intros Hr. destruct (license_requests_url st Hr) as [Hp Hl]. split; [|done].
  intros k p Hk. destruct (Hp k p Hk) as [Hnone Hsome].
  assert (∀ u, license_url p = Some u →
            ∃ r, GetLicense k u r ∈ trace st ∧
                 license_hash p =
                   Some (Py.slice_from 2
                           (Py.hex (str_hash P (str_strip P (text r))))) ∧
                 license_hash p ≠ Some "<unhashed>") as Hhashed.
  { intros u Hu. destruct (Hsome u Hu) as [r Hin]. exists r. split; [done|].
    by apply (license_answer_hashed P download st k p u r). }
  split_and!.
  - split; [by apply (no_url_unhashed P download st Hr k p)|].
    intros Hs. destruct (license_url p) as [u|] eqn:Hu; [|done].
    destruct (Hhashed u eq_refl) as (r & _ & _ & Hne). done.
  - split; [done|]. intros Hnot. destruct (license_url p) as [u|] eqn:Hu; [|done].
    destruct (Hsome u eq_refl) as [r Hin]. exfalso. apply Hnot.
    apply license_event_ident. eauto.
  - intros u Hu. destruct (Hhashed u Hu) as (r & ? & ? & _). eauto.
Qed.

Lemma license_path_value ident license w pth w' :
  license_path P download ident license w = inr (pth, w') →
  pth = entry_path download license ident ∧ (download ≠ None → license ≠ None).
Proof.
  unfold license_path, entry_path. destruct download as [d|].
  - destruct license as [l|]; [|done].
    destruct (os_path_exists P w _).
    + by intros [= <- <-].
    + destruct (os_makedirs P w _); [done|]. by intros [= <- <-].
  - by intros [= <- <-].
Qed.

Lemma register_entry ident license body h ls w ls1 w1 :
  register P download ident license body h ls w = inr (ls1, w1) →
  (is_Some (dict_get ls h) ∧ ls1 = ls) ∨
  (dict_get ls h = None ∧ (download ≠ None → license ≠ None) ∧
   ls1 = ls ++ [(h, License_init (unique_name ls license) license h
                      (entry_path download license ident))]).
Proof.
  unfold register. destruct (dict_mem h ls) eqn:Hm.
  - intros [= <- <-]. left. by apply dict_mem_true in Hm.
  - apply dict_mem_false in Hm. intros H. right. split; [done|].
    destruct (license_path P download ident license w) as [|[pth w2]] eqn:Hp;
      [done|].
    apply license_path_value in Hp as [-> Hl]. split; [done|].
    rewrite <- (dict_set_fresh _ _ _ Hm).
    destruct body as [b|], (entry_path download license ident) as [p|];
      try (by injection H as <- <-).
    destruct (write_file P w2 p (text b)); [done|]. by injection H as <- <-.
Qed.

(** What a round does to the license map. *)
Lemma step_licenses st st' :
  reachable P download st → step P download st = Some (Next st') →
  (licenses st' = licenses st ∧ res st' = res st) ∨
  ∃ k p h,
    (k ∉ done st) ∧ res st' = res st ++ [(k, p)] ∧ license_hash p = Some h ∧
    ((∃ L, dict_get (licenses st) h = Some L ∧
           licenses st' = dict_update (append_package k) (licenses st) h) ∨
     (dict_get (licenses st) h = None ∧ (download ≠ None → license p ≠ None) ∧
      licenses st' =
        licenses st ++
        [(h, {| name := unique_name (licenses st) (license p);
                type := license p; shash := h;
                path := entry_path download (license p) k;
                packages := [k] |})])).
Proof.
  intros Hr. unfold step.
  destruct (Py.pop (todo st)) as [[rest [[ident url] l]]|] eqn:Hpop; [|done].
  unfold body. simpl.
  destruct (decide (ident ∈ done st)) as [Hin|Hnin].
  { intros [= <-]. by left. }
  destruct (ensure_download P download (world st)) as [|w1] eqn:Hens; [done|].
  destruct (requests_get P w1 url) as [html w2] eqn:Hget.
  destruct (decide (status_code html ≠ 200%Z)) as [Hbad|Hok].
  { intros [= <-]. by left. }
  destruct (scan_rules ident (bs4_parse P (text html))) as [props warnings] eqn:Hscan.
  destruct (fetch_license P ident html (p_license_url props) w2)
    as [[lbody w3] tr_license] eqn:Hfetch.
  destruct (register P download ident (p_license props) lbody
              (hash_body P lbody) (licenses st) w3) as [|[licenses1 w4]] eqn:Hreg;
    [done|].
  destruct (fold_left (push_dep l) (p_deps props) (heap st, rest))
    as [heap' todo'] eqn:Hpush.
  intros [= <-]. simpl. right.
  eexists ident, _, (hash_body P lbody).
  rewrite (dict_set_fresh _ _ _ (res_fresh P download st ident Hr Hnin)).
  split_and!; [done..|]. simpl.
  apply register_entry in Hreg as [[[L HL] ->]|(Hnone & Hl & ->)].
  - left. by exists L.
  - right. split_and!; [done..|]. by rewrite (dict_update_snoc _ _ _ _ Hnone).
Qed.

(** The License entries, as the rounds that create and extend them leave
    them. *)
Lemma license_entry_invariant st h L :
  reachable P download st →
  dict_get (licenses st) h = Some L →
  shash L = h ∧
  ∃ k0 rest p0,
    packages L = k0 :: rest ∧
    dict_get (res st) k0 = Some p0 ∧
    license p0 = type L ∧
    path L = entry_path download (type L) k0 ∧
    (download ≠ None → type L ≠ None).
Proof.
  intros Hr. revert h L. induction Hr as [|st st' Hr IH Hstep]; [done|].
  assert (∀ k p, dict_get (res st) k = Some p → k ∈ done st) as Hrd.
  { intros k p Hk. apply (res_done P download st Hr). by eapply dict_get_Some_keys. }
  destruct (step_licenses st st' Hr Hstep)
    as [[-> ->]|(k & p & h0 & Hk & -> & Hh0 & Hcase)]; [done|].
  pose proof (res_fresh P download st k Hr Hk) as Hfresh.
  assert (∀ h L, dict_get (licenses st) h = Some L →
            shash L = h ∧
            ∃ k0 rest p0,
              packages L = k0 :: rest ∧
              dict_get (res st ++ [(k, p)]) k0 = Some p0 ∧
              license p0 = type L ∧
              path L = entry_path download (type L) k0 ∧
              (download ≠ None → type L ≠ None)) as IH'.
  { intros h L HL. destruct (IH h L HL) as (? & k0 & rest & p0 & ? & Hp0 & ?).
    split; [done|]. exists k0, rest, p0. split_and!; try tauto.
    rewrite (dict_get_snoc _ _ _ _ Hfresh), decide_False; [done|].
    intros ->. by apply Hk, (Hrd _ _ Hp0). }
  intros h L.
  destruct Hcase as [(L0 & HL0 & ->)|(Hnone & Hl & ->)].
  - rewrite dict_get_update. destruct (decide (h = h0)) as [->|Hne]; [|apply IH'].
    rewrite HL0. intros [= <-]. simpl.
    destruct (IH' h0 L0 HL0) as (? & k0 & rest & p0 & Hp & ?).
    split; [done|]. exists k0, (rest ++ [k]), p0. by rewrite Hp.
  - rewrite (dict_get_snoc _ _ _ _ Hnone).
    destruct (decide (h = h0)) as [->|Hne]; [|apply IH'].
    intros [= <-]. simpl. split; [done|]. exists k, [], p.
    rewrite (dict_get_snoc _ _ _ _ Hfresh), decide_True by done. done.
Qed.

(** X3. Every License entry is stored under its own hash and lists at
    least one package, none twice; every package it lists is a package of
    the map that stores the hash of the entry; the entry has the declared
    license of the first package it lists as its type, and has as path
    [download/type/first package], or no path when nothing is
    downloaded. *)
Theorem license_entries_wellformed (st : State World) (h : string)
    (L : License) :
  reachable P download st →
  dict_get (licenses st) h = Some L →
  shash L = h ∧
  NoDup (packages L) ∧
  (∀ k, k ∈ packages L →
        ∃ p, dict_get (res st) k = Some p ∧ license_hash p = Some h) ∧
  ∃ k0 rest p0,
    packages L = k0 :: rest ∧
    dict_get (res st) k0 = Some p0 ∧
    license p0 = type L ∧
    path L = entry_path download (type L) k0 ∧
    (download ≠ None → type L ≠ None).
Proof.
  intros Hr HL.
  destruct (license_entry_invariant st h L Hr HL) as [Hh Hfirst].
  split_and!.
  - exact Hh.
  - by apply (entry_NoDup P download st h L).
  - intros k Hk. by apply (entry_package P download st Hr h L k).
  - exact Hfirst.
Qed.
End MoreRunFacts.

(** ** The children lists *)

Lemma numbered_length n deps : length (numbered n deps) = length deps.
Proof. revert n. induction deps as [|d deps IH]; intros n; simpl; [done|]. by rewrite IH. Qed.

Lemma numbered_locs n deps : (numbered n deps).*2 = seq n (length deps).
Proof.
  revert n. induction deps as [|d deps IH]; intros n; simpl; [done|].
  f_equal. apply IH.
Qed.

Lemma numbered_names n deps : (child_of <$> numbered n deps).*1 = deps.*1.
Proof.
  revert n. induction deps as [|d deps IH]; intros n; simpl; [done|].
  f_equal. apply IH.
Qed.

Lemma numbered_child_locs n deps : (child_of <$> numbered n deps).*2 = seq n (length deps).
Proof.
  revert n. induction deps as [|d deps IH]; intros n; simpl; [done|].
  f_equal. apply IH.
Qed.

(** The loop over the dependencies in closed form: one empty list per
    dependency is allocated and the current list gets one entry per
    dependency, in page order. *)
Lemma push_deps_closed l deps : ∀ hp td hp' td',
  fold_left (push_dep l) deps (hp, td) = (hp', td') →
  l < length hp →
  hp' = alter (λ cs, cs ++ (child_of <$> numbered (length hp) deps)) l
              (hp ++ replicate (length deps) []) ∧
  td' = td ++ numbered (length hp) deps.
Proof.
  induction deps as [|[dident durl] deps IH]; intros hp td hp' td'; simpl.
  - intros [= <- <-] Hl. rewrite !app_nil_r. split; [|done].
    symmetry. apply list_eq. intros j. destruct (decide (j = l)) as [->|Hne].
    + rewrite list_lookup_alter_eq.
      unfold loc in *. destruct (hp !! l) as [cs|]; simpl; by rewrite ?app_nil_r.
    + by rewrite list_lookup_alter_ne.
  - intros Hfold Hl.
    apply IH in Hfold as [-> ->]; [|rewrite length_alter, length_app; simpl; lia].
    rewrite length_alter, length_app. simpl.
    replace (length hp + 1) with (S (length hp)) by lia.
    split; [|by rewrite <- app_assoc].
    rewrite (alter_app_l _ (alter _ l (hp ++ [[]]))) by
      (rewrite length_alter, length_app; simpl; lia).
    rewrite list_alter_alter_eq.
    replace (hp ++ [] :: replicate (length deps) [])
      with ((hp ++ [[]]) ++ replicate (length deps) [])
      by (by rewrite <- app_assoc).
    rewrite (alter_app_l _ (hp ++ [[]])) by (rewrite length_app; simpl; lia).
    f_equal. apply list_alter_ext; [|done]. intros cs _. simpl.
    by rewrite <- app_assoc.
Qed.

Lemma concat_replicate_nil {A} n : concat (replicate n ([] : list A)) = [].
Proof. induction n; simpl; done. Qed.

Lemma concat_alter_app {A} (X : list (list A)) (ch : list A) l :
  l < length X → concat (alter (λ cs, cs ++ ch) l X) ≡ₚ concat X ++ ch.
Proof.
  revert l. induction X as [|x X IH]; intros l Hl; simpl in *; [lia|].
  destruct l as [|l]; simpl.
  - rewrite <- !app_assoc. f_equiv. apply Permutation_app_comm.
  - change (x ++ concat (alter (λ cs, cs ++ ch) l X) ≡ₚ (x ++ concat X) ++ ch).
    rewrite IH by lia. by rewrite app_assoc.
Qed.

Section Tree.
Context {World : Type} (P : Platform World) (download : option string).

Lemma crawl_reachable w ident url st :
  crawl P download w ident url st → reachable P download st.
Proof.
  unfold crawl. intros H.
  apply (rtc_ind_r (R := next P download)
           (λ st, reachable P download st) (init w ident url));
    [apply reachable_init | | exact H].
  intros y z _ Hnext IH. by eapply reachable_step.
Qed.

Lemma reachable_crawl st :
  reachable P download st → ∃ w ident url, crawl P download w ident url st.
Proof.
  induction 1 as [w ident url|st st' Hr (w & ident & url & IH) Hstep].
  - exists w, ident, url. apply rtc_refl.
  - exists w, ident, url. eapply rtc_r; [exact IH|exact Hstep].
Qed.

(** What a round does to the children lists. *)
Lemma round_heap st st' :
  reachable P download st → Round P download st st' →
  ∃ rest k u l, todo st = rest ++ [(k, u, l)] ∧ heap st !! l = Some [] ∧
    ((heap st' = heap st ∧ todo st' = rest) ∨
     ∃ r deps, GetPage k u r ∈ trace st' ∧ status_code r = 200%Z ∧
               deps = p_deps (scan_rules k (bs4_parse P (text r))).1 ∧
               heap st' = alter (λ cs, cs ++ (child_of <$> numbered (length (heap st)) deps)) l
                            (heap st ++ replicate (length deps) []) ∧
               todo st' = rest ++ numbered (length (heap st)) deps).
Proof.
  intros Hr Hrd. destruct (tree_var_invariant P download st Hr) as (Hall & _ & _).
  assert (∀ rest k u l, todo st = rest ++ [(k, u, l)] → heap st !! l = Some [])
    as Hl.
  { intros rest k u l E. rewrite E in Hall. apply Forall_app in Hall as [_ Hx].
    by rewrite Forall_singleton in Hx. }
  round_cases Hrd; simpl; exists rest, ident, url, l;
    (split; [done|]); (split; [by eapply Hl|]); [by left..|].
  right. exists html, (p_deps props).
  apply push_deps_closed in Hpush as [-> ->];
    [|eapply lookup_lt_Some; by eapply Hl].
  split_and!; try done.
  - set_solver.
  - by rewrite Hscan.
Qed.

Lemma elem_of_concat {A} (x : A) (ls : list (list A)) :
  x ∈ concat ls ↔ ∃ l, l ∈ ls ∧ x ∈ l.
Proof.
  rewrite list_elem_of_In, in_concat. split; intros (l & H1 & H2); exists l;
    by rewrite ?list_elem_of_In in *.
Qed.

Lemma tree_shape st :
  reachable P download st →
  (∀ l cs c, heap st !! l = Some cs → c ∈ cs →
             l < c.2 ∧ c.2 < length (heap st)) ∧
  NoDup (concat (heap st)).*2 ∧
  length (heap st) = S (length (concat (heap st))).
Proof.
  intros Hr. run_induction st Hr.
  { simpl. split_and!; [|apply NoDup_nil_2|done].
    intros [|l] cs c; simpl; [|done]. intros [= <-] ?%elem_of_nil. done. }
  destruct IH as (IHa & IHb & IHc).
  destruct (round_heap st st' Hr Hrd)
    as (rest & k & u & l & Htodo & Hl & [[-> _]|(r & deps & _ & _ & _ & -> & _)]);
    [done|].
  assert (l < length (heap st)) as Hlt by (by eapply lookup_lt_Some).
  unfold loc in *.
  set (ch := child_of <$> numbered (length (heap st)) deps).
  assert (∀ c, c ∈ ch → length (heap st) ≤ c.2 ∧
                        c.2 < length (heap st) + length deps) as Hch.
  { intros c Hc. assert (c.2 ∈ ch.*2) as Hc2 by (apply list_elem_of_fmap; eauto).
    unfold ch in Hc2. rewrite numbered_child_locs, elem_of_seq in Hc2. lia. }
  rewrite length_alter, length_app, length_replicate.
  split_and!.
  - intros l' cs c. destruct (decide (l' = l)) as [->|Hne].
    + rewrite list_lookup_alter_eq, lookup_app_l, Hl by done. simpl.
      intros [= <-] Hc. apply Hch in Hc. lia.
    + rewrite list_lookup_alter_ne by done.
      destruct (decide (l' < length (heap st))) as [Hl'|Hl'].
      * rewrite lookup_app_l by done. intros Hcs Hc.
        destruct (IHa l' cs c Hcs Hc). lia.
      * rewrite lookup_app_r by lia. intros Hcs Hc.
        apply lookup_replicate in Hcs as [-> _]. by apply elem_of_nil in Hc.
  - rewrite concat_alter_app by (rewrite length_app; lia).
    rewrite concat_app, concat_replicate_nil, app_nil_r, fmap_app.
    apply NoDup_app. split_and!; [done| |].
    + intros x (c & -> & Hc)%list_elem_of_fmap (c' & E & Hc')%list_elem_of_fmap.
      apply elem_of_concat in Hc as (cs & Hcs & Hc).
      apply list_elem_of_lookup in Hcs as [j Hj].
      destruct (IHa j cs c Hj Hc). apply Hch in Hc'. lia.
    + unfold ch. rewrite numbered_child_locs. apply NoDup_seq.
  - rewrite concat_alter_app by (rewrite length_app; lia).
    rewrite concat_app, concat_replicate_nil, app_nil_r, length_app.
    unfold ch. rewrite length_fmap, numbered_length. lia.
Qed.

(** X4. The children lists form a forest in memory: an entry of a list
    refers to a list allocated later, and the lists referred to are the
    lists 1, 2, ... up to the last, each referred to exactly once; a list
    still waiting in [todo] is empty. *)
Theorem children_lists_form_a_tree (st : State World) :
  reachable P download st →
  (∀ l cs c, heap st !! l = Some cs → c ∈ cs →
             l < c.2 ∧ c.2 < length (heap st)) ∧
  (concat (heap st)).*2 ≡ₚ seq 1 (length (heap st) - 1) ∧
  (∀ t, t ∈ todo st → heap st !! t.2 = Some []).
Proof.
  intros Hr. destruct (tree_shape st Hr) as (Ha & Hb & Hc).
  destruct (tree_var_invariant P download st Hr) as (Hall & _ & _).
  split_and!; [done| |by apply Forall_forall].
  apply submseteq_length_Permutation.
  - apply NoDup_submseteq; [done|].
    intros x (c & -> & Hin)%list_elem_of_fmap.
    apply elem_of_concat in Hin as (cs & Hcs & Hin).
    apply list_elem_of_lookup in Hcs as [j Hj].
    destruct (Ha j cs c Hj Hin). apply elem_of_seq.
    unfold loc in *. lia.
  - rewrite length_seq, length_fmap, Hc. simpl. by rewrite Nat.sub_0_r.
Qed.

Lemma loop_rounds fuel st st' :
  loop P download fuel st = Some (Next st') → rtc (next P download) st st'.
Proof.
  revert st. induction fuel as [|fuel IH]; intros st; simpl; [done|].
  destruct (step P download st) as [[st1|tr]|] eqn:Hstep.
  - intros Hl. eapply rtc_l; [exact Hstep|by apply IH].
  - done.
  - intros [= <-]. apply rtc_refl.
Qed.

Lemma scrape_crawl fuel w ident url st :
  scrape P download fuel w ident url = Some (Next st) →
  crawl P download w ident url st ∧ todo st = [].
Proof.
  intros H. split; [by eapply loop_rounds|].
  by apply (scrape_reachable P download fuel w ident url).
Qed.

Lemma round_trace_grows st st' :
  Round P download st st' → ∃ delta, trace st' = trace st ++ delta.
Proof.
  intros Hrd. round_cases Hrd; simpl; eexists; by rewrite <- ?app_assoc.
Qed.

Lemma node_page_grows tr delta k cs :
  node_page P tr k cs → node_page P (tr ++ delta) k cs.
Proof. intros (u & r & Hin & ?). exists u, r. split; [set_solver|done]. Qed.

(** X5. In every state of a run, a children list that is not empty belongs
    to a node (the root for list 0, otherwise the ident of the entry that
    refers to the list) whose page answered 200, and it names the
    dependencies of that page, in page order. *)
Theorem children_lists_hold_dependencies (w : World) (root url : string)
    (st : State World) (l : loc) (cs : list Child) :
  crawl P download w root url st →
  heap st !! l = Some cs → cs ≠ [] →
  ∃ k, ((l = 0 ∧ k = root) ∨ (k, l) ∈ concat (heap st)) ∧
       node_page P (trace st) k cs.
Proof.
  intros Hc. revert l cs.
  cut ((∀ t, t ∈ todo st →
           (t.2 = 0 ∧ t.1.1 = root) ∨ (t.1.1, t.2) ∈ concat (heap st)) ∧
       (∀ l cs, heap st !! l = Some cs → cs ≠ [] →
           ∃ k, ((l = 0 ∧ k = root) ∨ (k, l) ∈ concat (heap st)) ∧
                node_page P (trace st) k cs)); [tauto|].
  unfold crawl in Hc.
  apply (rtc_ind_r (R := next P download)
           (λ st, (∀ t, t ∈ todo st →
                     (t.2 = 0 ∧ t.1.1 = root) ∨ (t.1.1, t.2) ∈ concat (heap st)) ∧
                  (∀ l cs, heap st !! l = Some cs → cs ≠ [] →
                     ∃ k, ((l = 0 ∧ k = root) ∨ (k, l) ∈ concat (heap st)) ∧
                          node_page P (trace st) k cs))
           (init w root url)); [| |exact Hc]; clear st Hc.
  { simpl. split.
    - intros t ->%list_elem_of_singleton. by left.
    - intros [|l] cs; simpl; [|done]. by intros [= <-]. }
  intros st st' Hc Hnext [IH1 IH2].
  assert (reachable P download st) as Hr by (by eapply crawl_reachable).
  apply step_Round in Hnext.
  destruct (round_trace_grows st st' Hnext) as [delta Htr].
  destruct (round_heap st st' Hr Hnext)
    as (rest & k & u & l & Htodo & Hl &
        [[Hh Ht]|(r & deps & Hin & Hok & Hdeps & Hh & Ht)]).
  { rewrite Hh, Ht, Htr. split.
    - intros t Hin. apply IH1. rewrite Htodo. set_solver.
    - intros l' cs Hcs Hne. destruct (IH2 l' cs Hcs Hne) as (k' & ? & ?).
      exists k'. split; [done|]. by apply node_page_grows. }
  assert (l < length (heap st)) as Hlt by (by eapply lookup_lt_Some).
  set (ch := child_of <$> numbered (length (heap st)) deps) in *.
  assert (∀ c, c ∈ concat (heap st') ↔ c ∈ concat (heap st) ∨ c ∈ ch) as Hmem.
  { intros c. rewrite Hh, concat_alter_app by (rewrite length_app; lia).
    rewrite concat_app, concat_replicate_nil, app_nil_r. apply elem_of_app. }
  assert ((l = 0 ∧ k = root) ∨ (k, l) ∈ concat (heap st)) as Hk.
  { apply (IH1 (k, u, l)). rewrite Htodo. set_solver. }
  split.
  - intros t. rewrite Ht, elem_of_app. intros [Hin'|Hin'].
    + destruct (IH1 t) as [?|?]; [rewrite Htodo; set_solver|by left|].
      right. apply Hmem. by left.
    + right. apply Hmem. right. unfold ch. apply list_elem_of_fmap.
      by exists t.
  - assert (∀ l', heap st' !! l' =
                   alter (λ cs : list Child, cs ++ ch) l
                     (heap st ++ replicate (length deps) []) !! l') as Hlook
      by (by rewrite Hh).
    intros l' cs. rewrite Hlook. unfold loc in *.
    destruct (decide (l' = l)) as [->|Hne].
    + rewrite list_lookup_alter_eq, lookup_app_l, Hl by done. simpl.
      intros [= <-] _. exists k. split.
      * destruct Hk as [?|Hk]; [by left|]. right. apply Hmem. by left.
      * exists u, r. split_and!; [done..|].
        unfold ch. by rewrite numbered_names, Hdeps.
    + rewrite list_lookup_alter_ne by done.
      destruct (decide (l' < length (heap st))) as [Hl'|Hl'].
      * rewrite lookup_app_l by done. intros Hcs Hne'.
        destruct (IH2 l' cs Hcs Hne') as (k' & Hk' & Hnode).
        exists k'. split.
        -- destruct Hk' as [?|Hk']; [by left|]. right. apply Hmem. by left.
        -- rewrite Htr. by apply node_page_grows.
      * rewrite lookup_app_r by lia. intros Hcs Hne'.
        by apply lookup_replicate in Hcs as [-> _].
Qed.
End Tree.

(** ** Rounds only add *)

Section Later.
Context {World : Type} (P : Platform World) (download : option string).

(** X6. Rounds only add: along a run the visited set, the trace and the
    round counter grow, a Package of the map is never changed or removed,
    and a License entry keeps its name, type, hash and path while its
    packages list is only extended at the end. *)
Theorem rounds_only_add (st st' : State World) :
  reachable P download st →
  rtc (next P download) st st' →
  done st ⊆ done st' ∧
  trace st `prefix_of` trace st' ∧
  i st ≤ i st' ∧
  dict_keys (res st) `prefix_of` dict_keys (res st') ∧
  (∀ k p, dict_get (res st) k = Some p → dict_get (res st') k = Some p) ∧
  (∀ h L, dict_get (licenses st) h = Some L →
     ∃ L', dict_get (licenses st') h = Some L' ∧
           name L' = name L ∧ type L' = type L ∧ shash L' = shash L ∧
           path L' = path L ∧ packages L `prefix_of` packages L').
Proof.
  intros Hr Hrtc. induction Hrtc as [st|st st1 st' Hnext Hrtc IH].
  { split_and!; try done. intros h L HL. exists L. by split_and!. }
  assert (reachable P download st1) as Hr1 by (by eapply reachable_step).
  destruct (IH Hr1) as (IHd & IHt & IHi & IHk & IHp & IHl). clear IH.
  pose proof (step_Round P download st st1 Hnext) as Hrd.
  destruct (round_trace_grows P download st st1 Hrd) as [delta Htr].
  assert (done st ⊆ done st1 ∧ i st ≤ i st1) as [Hd Hi].
  { clear -Hrd. round_cases Hrd; simpl; split; (set_solver || lia). }
  destruct (step_licenses P download st st1 Hr Hnext)
    as [[Hls Hres]|(k & p & h0 & Hk & Hres & Hh0 & Hcase)].
  { split_and!.
    - set_solver.
    - etrans; [|exact IHt]. rewrite Htr. by apply prefix_app_r.
    - lia.
    - by rewrite <- Hres.
    - intros k p Hp. apply IHp. by rewrite Hres.
    - intros h L HL. apply IHl. by rewrite Hls. }
  pose proof (res_fresh P download st k Hr Hk) as Hfresh.
  split_and!.
  - set_solver.
  - etrans; [|exact IHt]. rewrite Htr. by apply prefix_app_r.
  - lia.
  - etrans; [|exact IHk]. rewrite Hres. unfold dict_keys. rewrite fmap_app.
    by apply prefix_app_r.
  - intros k' p' Hp'. apply IHp. rewrite Hres, (dict_get_snoc _ _ _ _ Hfresh).
    rewrite decide_False; [done|]. intros ->. congruence.
  - intros h L HL.
    assert (∃ L1, dict_get (licenses st1) h = Some L1 ∧
                  name L1 = name L ∧ type L1 = type L ∧ shash L1 = shash L ∧
                  path L1 = path L ∧ packages L `prefix_of` packages L1)
      as (L1 & HL1 & Hn & Hty & Hs & Hpa & Hpk).
    { destruct Hcase as [(L0 & HL0 & ->)|(Hnone & _ & ->)].
      - rewrite dict_get_update. destruct (decide (h = h0)) as [->|Hne].
        + rewrite HL. eexists. split; [done|]. simpl.
          split_and!; try done. by apply prefix_app_r.
        + exists L. by split_and!.
      - exists L. rewrite (dict_get_snoc _ _ _ _ Hnone).
        rewrite decide_False by congruence. by split_and!. }
    destruct (IHl h L1 HL1) as (L' & HL' & ? & ? & ? & ? & ?).
    exists L'. split_and!; try congruence. by etrans.
Qed.
End Later.

(** ** Termination *)

Lemma push_deps_todo l deps : ∀ hp td,
  (fold_left (push_dep l) deps (hp, td)).2 = td ++ numbered (length hp) deps ∧
  length (fold_left (push_dep l) deps (hp, td)).1 = length hp + length deps.
Proof.
  induction deps as [|[dident durl] deps IH]; intros hp td; simpl.
  - rewrite app_nil_r. split; [done|lia].
  - destruct (IH (alter (λ cs, cs ++ [(dident, length hp)]) l (hp ++ [[]]))
                 (td ++ [(dident, durl, length hp)])) as [-> ->].
    rewrite length_alter, length_app. simpl.
    replace (length hp + 1) with (S (length hp)) by lia.
    split; [by rewrite <- app_assoc|lia].
Qed.

Lemma numbered_idents n deps t : t ∈ numbered n deps → ∃ d, d ∈ deps ∧ t.1.1 = d.1.
Proof.
  revert n. induction deps as [|d deps IH]; intros n; simpl.
  - by intros ?%elem_of_nil.
  - intros [->|Hin]%elem_of_cons.
    + exists d. split; [left|done].
    + destruct (IH _ Hin) as (d' & ? & ?). exists d'. split; [by right|done].
Qed.

Section Termination.
Context {World : Type} (P : Platform World) (download : option string).

Lemma loop_more_fuel fuel : ∀ fuel' st o,
  loop P download fuel st = Some o → fuel ≤ fuel' →
  loop P download fuel' st = Some o.
Proof.
  induction fuel as [|fuel IH]; intros fuel' st o; simpl; [done|].
  intros Hl Hle. destruct fuel' as [|fuel']; [lia|]. simpl.
  destruct (step P download st) as [[st1|tr]|]; [|done..].
  apply IH; [done|lia].
Qed.

(** What a round does to [done] and to the idents waiting in [todo]. *)
Lemma round_todo U st st' :
  deps_within P U → Round P download st st' →
  (∀ t, t ∈ todo st → t.1.1 ∈ U) →
  (∀ t, t ∈ todo st' → t.1.1 ∈ U) ∧
  ((done st' = done st ∧ S (length (todo st')) = length (todo st)) ∨
   ∃ k, k ∈ U ∧ (k ∉ done st) ∧ done st' = {[k]} ∪ done st).
Proof.
  intros HU Hrd HtU. round_cases Hrd; simpl.
  - split; [intros t Ht; apply HtU; rewrite Htodo; set_solver|].
    left. split; [done|]. rewrite Htodo, length_app. simpl. lia.
  - split; [intros t Ht; apply HtU; rewrite Htodo; set_solver|].
    right. exists ident. split_and!; [|done..].
    apply (HtU (ident, url, l)). rewrite Htodo. set_solver.
  - split.
    + pose proof (push_deps_todo l (p_deps props) (heap st) rest) as [Ht _].
      rewrite Hpush in Ht. simpl in Ht. subst todo'.
      intros t [Hin|Hin]%elem_of_app.
      * apply HtU. rewrite Htodo. set_solver.
      * apply numbered_idents in Hin as (d & Hd & ->).
        apply (HU (text html) ident). by rewrite Hscan.
    + right. exists ident. split_and!; [|done..].
      apply (HtU (ident, url, l)). rewrite Htodo. set_solver.
Qed.

Lemma loop_terminates U :
  deps_within P U →
  ∀ n m st,
    size (U ∖ done st) = n → length (todo st) = m →
    (∀ t, t ∈ todo st → t.1.1 ∈ U) →
    ∃ fuel o, loop P download fuel st = Some o.
Proof.
  intros HU n. induction n as [n IHn] using lt_wf_ind.
  intros m. induction m as [m IHm] using lt_wf_ind.
  intros st Hn Hm Htodo.
  destruct (step P download st) as [[st'|tr]|] eqn:Hstep.
  - pose proof (step_Round P download st st' Hstep) as Hrd.
    destruct (round_todo U st st' HU Hrd Htodo)
      as [Htodo' [[Hd Hlen]|(k & HkU & Hk & Hd)]].
    + destruct (IHm (length (todo st')) ltac:(lia) st') as (fuel & o & Hl);
        [by rewrite Hd|done|done|].
      exists (S fuel), o. simpl. by rewrite Hstep.
    + destruct (IHn (size (U ∖ done st'))) with (m := length (todo st')) (st := st')
        as (fuel & o & Hl); [|done..|].
      * rewrite <- Hn, Hd. apply subset_size. set_solver.
      * exists (S fuel), o. simpl. by rewrite Hstep.
  - exists 1, (Fatal tr). simpl. by rewrite Hstep.
  - exists 1, (Next st). simpl. by rewrite Hstep.
Qed.

(** X7. When the dependencies that the pages can name, and the root, lie in
    a finite set of idents, [scrape] ends: from some amount of fuel on it
    gives one and the same outcome. *)
Theorem scrape_terminates (U : gset string) (w : World) (ident url : string) :
  deps_within P U → ident ∈ U →
  ∃ fuel o, ∀ fuel', fuel ≤ fuel' →
    scrape P download fuel' w ident url = Some o.
Proof.
  intros HU Hroot.
  destruct (loop_terminates U HU _ _ (init w ident url) eq_refl eq_refl)
    as (fuel & o & Hl).
  { simpl. by intros t ->%list_elem_of_singleton. }
  exists fuel, o. intros fuel' Hle. by apply (loop_more_fuel fuel).
Qed.

Lemma crawl_within U w root url st :
  deps_within P U → root ∈ U → crawl P download w root url st →
  (∀ t, t ∈ todo st → t.1.1 ∈ U) ∧ done st ⊆ U.
Proof.
  intros HU Hroot Hc. unfold crawl in Hc.
  apply (rtc_ind_r (R := next P download)
           (λ st, (∀ t, t ∈ todo st → t.1.1 ∈ U) ∧ done st ⊆ U)
           (init w root url)); [| |exact Hc]; clear st Hc.
  { simpl. split; [by intros t ->%list_elem_of_singleton|set_solver]. }
  intros st st' _ Hnext%step_Round [IHt IHd].
  destruct (round_todo U st st' HU Hnext IHt) as [Ht [[-> _]|(k & ? & _ & ->)]];
    split; set_solver.
Qed.

(** X8. When the root and the dependencies that the pages can name lie in a
    finite set [U], a run requests at most [size U] pages; and it never
    makes more license requests than the package map has entries, nor has
    more entries than it has requested pages. *)
Theorem requests_bounded (U : gset string) (w : World) (root url : string)
    (st : State World) :
  deps_within P U → root ∈ U →
  crawl P download w root url st →
  length (fetched_pages (trace st)) ≤ size U ∧
  length (res st) ≤ length (fetched_pages (trace st)) ∧
  length (fetched_licenses (trace st)) ≤ length (res st).
Proof.
  intros HU Hroot Hc.
  pose proof (crawl_reachable P download _ _ _ _ Hc) as Hr.
  destruct (crawl_within U w root url st HU Hroot Hc) as [_ Hd].
  destruct (license_requests_url P download st Hr) as [_ Hlic].
  split_and!.
  - unfold size, set_size. simpl.
    apply submseteq_length, NoDup_submseteq; [by apply (pages_NoDup P download)|].
    intros k Hk. apply elem_of_elements, Hd. by apply (pages_done P download st).
  - rewrite <- (length_fmap fst (res st)).
    apply submseteq_length, NoDup_submseteq; [by apply (res_NoDup P download)|].
    intros k Hk. by apply (res_pages P download st Hr).
  - rewrite <- (length_fmap fst (res st)).
    apply submseteq_length, NoDup_submseteq;
      [by apply (license_requests_NoDup P download)|].
    intros k (u & r & Hin)%license_event_ident.
    destruct (Hlic k u r Hin) as (p & Hp & _). by eapply dict_get_Some_keys.
Qed.
End Termination.

(** ** The shortest runs *)

Section EndToEnd.
Context {World : Type} (P : Platform World).

Lemma scrape_root_failure (download : option string) (w w1 w2 : World)
    (ident url : string) (html : Response) (fuel : nat) :
  ensure_download P download w = inr w1 →
  requests_get P w1 url = (html, w2) →
  status_code html ≠ 200%Z →
  2 ≤ fuel →
  ∃ st, scrape P download fuel w ident url = Some (Next st) ∧
        res st = [] ∧ licenses st = [] ∧ done st = {[ident]} ∧
        trace st = [Progress 1 1; GetPage ident url html;
                    Warn (warn_no_page ident)].
Proof.
  intros Hens Hget Hbad Hfuel.
  destruct fuel as [|[|fuel]]; [lia..|].
  unfold scrape. cbn [loop]. unfold step at 1. simpl. unfold body. simpl.
  rewrite decide_False by set_solver. rewrite Hens, Hget.
  rewrite decide_True by done.
  unfold step. simpl.
  eexists. split; [done|]. simpl. split_and!; try done. set_solver.
Qed.

(** X9. When the page of the root does not answer 200, the crawl ends after
    one round with an empty package map and an empty license map, having
    printed the progress line and the warning, and [main] writes an empty
    report. *)
Theorem root_page_failure (download : option string) (w w1 w2 : World)
    (package : string) (html : Response) (fuel : nat)
    (colors show_list trim : bool) :
  ensure_download P download w = inr w1 →
  requests_get P w1 (hackagify package) = (html, w2) →
  status_code html ≠ 200%Z →
  2 ≤ fuel →
  (∃ st, scrape P download fuel w package (hackagify package) = Some (Next st) ∧
         res st = [] ∧ licenses st = [] ∧ done st = {[package]} ∧
         trace st = [Progress 1 1; GetPage package (hackagify package) html;
                     Warn (warn_no_page package)]) ∧
  main P fuel w package download colors show_list trim = Some [].
Proof.
  intros Hens Hget Hbad Hfuel.
  destruct (scrape_root_failure download w w1 w2 package (hackagify package)
              html fuel Hens Hget Hbad Hfuel) as (st & Hs & Hres & Hls & Hd & Htr).
  split; [by exists st|].
  unfold main. rewrite Hs, Hres, Hls. done.
Qed.

Lemma scrape_leaf (w w2 : World) (ident url : string) (html : Response)
    (fuel : nat) :
  requests_get P w url = (html, w2) →
  status_code html = 200%Z →
  p_deps (scan_rules ident (bs4_parse P (text html))).1 = [] →
  2 ≤ fuel →
  let props := (scan_rules ident (bs4_parse P (text html))).1 in
  let body := (fetch_license P ident html (p_license_url props) w2).1.1 in
  ∃ st, scrape P None fuel w ident url = Some (Next st) ∧
        res st = [(ident, package_of P ident url html body)] ∧
        licenses st =
          [(hash_body P body,
            {| name := p_license props; type := p_license props;
               shash := hash_body P body; path := None;
               packages := [ident] |})] ∧
        done st = {[ident]}.
Proof.
  intros Hget Hok Hdeps Hfuel. simpl.
  destruct fuel as [|[|fuel]]; [lia..|].
  unfold scrape. cbn [loop]. unfold step at 1. simpl. unfold body. simpl.
  rewrite decide_False by set_solver. rewrite Hget.
  rewrite decide_False by (by intros ?).
  destruct (scan_rules ident (bs4_parse P (text html))) as [props warnings] eqn:Hscan.
  simpl in *.
  destruct (fetch_license P ident html (p_license_url props) w2)
    as [[lbody w3] trl] eqn:Hfetch.
  unfold package_of. rewrite Hscan. cbn [fst snd].
  remember (hash_body P lbody) as h eqn:Hh. clear Hh.
  unfold register, license_path.
  rewrite (proj2 (dict_mem_false [] h)) by done.
  rewrite Hdeps.
  assert (unique_name [] (p_license props) = p_license props) as -> by done.
  assert (dict_update (append_package ident)
            (dict_set [] h (License_init (p_license props) (p_license props) h None)) h
          = [(h, {| name := p_license props; type := p_license props;
                    shash := h; path := None; packages := [ident] |})]) as Hls.
  { simpl. by rewrite decide_True. }
  destruct lbody; simpl; rewrite ?Hls; unfold step; simpl;
    (eexists; split; [done|]); simpl;
    (split_and!; [done..|set_solver]).
Qed.

Lemma license_types_single h (L : License) : license_types [(h, L)] = [type L].
Proof.
  unfold license_types. simpl.
  rewrite (right_id_L ∅ (∪)). apply elements_singleton.
Qed.

(** X10. A package whose page answers 200 and names no dependency is crawled
    in one round (nothing being downloaded): the package map has this one
    Package, the license map has one entry, named after the declared
    license and listing the package, and the report of [main] is the one
    section of that license with the package under it. *)
Theorem single_package_crawl (w w2 : World) (package : string)
    (html : Response) (fuel : nat) (colors show_list trim : bool) :
  requests_get P w (hackagify package) = (html, w2) →
  status_code html = 200%Z →
  p_deps (scan_rules package (bs4_parse P (text html))).1 = [] →
  2 ≤ fuel →
  let props := (scan_rules package (bs4_parse P (text html))).1 in
  let body := (fetch_license P package html (p_license_url props) w2).1.1 in
  (∃ st, scrape P None fuel w package (hackagify package) = Some (Next st) ∧
         res st = [(package, package_of P package (hackagify package) html body)] ∧
         licenses st =
           [(hash_body P body,
             {| name := p_license props; type := p_license props;
                shash := hash_body P body; path := None;
                packages := [package] |})]) ∧
  main P fuel w package None colors show_list trim =
    Some (section_lines colors (p_license props, [package])).
Proof.
  intros Hget Hok Hdeps Hfuel props body.
  destruct (scrape_leaf w w2 package (hackagify package) html fuel
              Hget Hok Hdeps Hfuel) as (st & Hs & Hres & Hls & _).
  fold props body in Hres, Hls.
  split; [by exists st|].
  unfold main. rewrite Hs, Hres, Hls. unfold report, sections.
  rewrite license_types_single. cbn [fmap list_fmap type concat].
  rewrite app_nil_r. do 2 f_equal.
  unfold used_by, dict_keys. cbn [fmap list_fmap fst].
  rewrite filter_cons_True; [done|].
  cbn [dict_get]. rewrite decide_True by done. done.
Qed.
End EndToEnd.

(** ** What the parsing loop keeps *)

Lemma scan_rules_snoc ident h1 rs r :
  scan_rules ident {| h1_small := h1; rules := rs ++ [r] |} =
  scan_rule ident (scan_rules ident {| h1_small := h1; rules := rs |}) r.
Proof. unfold scan_rules. simpl. by rewrite fold_left_app. Qed.

(** X11. What the loop over the rows of the properties table leaves: the
    license is that of the last License row, the license URL that of the
    last License row that has a link (also when a later License row has
    none), the dependencies are those of the last Dependencies row, and one
    warning is printed per License row without a link. Without a License
    row the license is [None]; without a Dependencies row there are no
    dependencies. *)
Theorem scan_rules_last_rows (ident : string) (page : Page) :
  let lic := filter (λ r, th_string r = "License") (rules page) in
  let dep := filter (λ r, th_string r = "Dependencies") (rules page) in
  let result := scan_rules ident page in
  p_license result.1 = license_of_rule <$> last lic ∧
  p_license_url result.1 =
    (λ a, hackage +:+ a_href a) <$> last (omap td_a lic) ∧
  p_deps result.1 = default [] (deps_of_rule <$> last dep) ∧
  result.2 = replicate (length (filter (λ r, td_a r = None) lic))
                       (Warn (warn_no_url ident)).
Proof.
  destruct page as [h1 rs]. simpl.
  induction rs as [|r rs IH] using rev_ind; [done|].
  rewrite scan_rules_snoc, !filter_app.
  destruct (scan_rules ident {| h1_small := h1; rules := rs |}) as [p out].
  simpl in IH. destruct IH as (IH1 & IH2 & IH3 & IH4).
  unfold scan_rule.
  destruct (decide (th_string r = "License")) as [Hl|Hl].
  - rewrite (filter_cons_True _ r []) by done.
    rewrite (filter_cons_False _ r []) by (rewrite Hl; done).
    rewrite ?filter_nil, ?app_nil_r, ?omap_app, ?filter_app, ?last_snoc.
    unfold license_of_rule. simpl.
    destruct (td_a r) as [a|] eqn:Ha; simpl.
    + rewrite last_snoc, (filter_cons_False _ r []) by (rewrite Ha; done).
      by rewrite filter_nil, app_nil_r.
    + rewrite app_nil_r, (filter_cons_True _ r []) by done.
      rewrite filter_nil, length_app. simpl. rewrite Nat.add_1_r.
      rewrite replicate_S_end, IH4. done.
  - rewrite (filter_cons_False _ r []) by done.
    rewrite filter_nil, !app_nil_r.
    destruct (decide (th_string r = "Dependencies")) as [Hd|Hd].
    + rewrite (filter_cons_True _ r []) by done.
      rewrite filter_nil, last_snoc. simpl. done.
    + rewrite (filter_cons_False _ r []) by done.
      rewrite filter_nil, app_nil_r. done.
Qed.

(** ** [unique_licenses] resolves by hash *)

Section DictSet.
Context {V : Type}.
Implicit Types (d : dict V) (k : string) (v : V).

Lemma dict_get_set d k v k' :
  dict_get (dict_set d k v) k' = if decide (k' = k) then Some v else dict_get d k'.
Proof.
  induction d as [|[k1 v1] d IH]; simpl.
  - by destruct (decide (k' = k)).
  - destruct (decide (k = k1)) as [->|Hne]; simpl.
    + by destruct (decide (k' = k1)).
    + destruct (decide (k' = k1)) as [->|]; [by rewrite decide_False|done].
Qed.

Lemma dict_keys_set d k v :
  dict_keys (dict_set d k v) =
  dict_keys d ++ match dict_get d k with Some _ => [] | None => [k] end.
Proof.
  unfold dict_keys. induction d as [|[k1 v1] d IH]; simpl; [done|].
  destruct (decide (k = k1)) as [->|Hne]; simpl.
  - by rewrite app_nil_r.
  - f_equal. apply IH.
Qed.
End DictSet.

(** One round of [unique_licenses] on the package itself. *)
Lemma unique_licenses_round_pkg pkgs acc k p :
  dict_get pkgs k = Some p →
  unique_licenses_round pkgs acc k =
  let '(res, hashes, names_count) := acc in
  let h := effective_hash p in
  let '(hashes', names_count') :=
    if dict_mem h hashes then (hashes, names_count)
    else
      let names_count1 :=
        match names_count !! license p with
        | None => <[license p := 0]> names_count
        | Some _ => names_count
        end in
      let n := default 0 (names_count1 !! license p) in
      (dict_set hashes h (if decide (n = 0) then license p
                          else Some (Py.fmt (license p) +:+ "("
                                     +:+ Py.str_of_nat n +:+ ")")),
       <[license p := S n]> names_count1) in
  (dict_set res (ident p) (default None (dict_get hashes' h)), hashes', names_count').
Proof.
  intros Hp. unfold unique_licenses_round. destruct acc as [[res hashes] nc].
  rewrite Hp. done.
Qed.

(** What one round does to [hashes]: known entries stay, and the hash of
    the package is known afterwards. *)
Lemma unique_licenses_round_hashes pkgs res hashes nc k p res' hashes' nc' :
  dict_get pkgs k = Some p →
  unique_licenses_round pkgs (res, hashes, nc) k = (res', hashes', nc') →
  (∀ h n, dict_get hashes h = Some n → dict_get hashes' h = Some n) ∧
  (∃ n, dict_get hashes' (effective_hash p) = Some n ∧
        res' = dict_set res (ident p) n) ∧
  (is_Some (dict_get hashes (effective_hash p)) → hashes' = hashes ∧ nc' = nc).
Proof.
  intros Hp. rewrite (unique_licenses_round_pkg _ _ _ _ Hp). simpl.
  destruct (dict_mem (effective_hash p) hashes) eqn:Hm.
  - apply dict_mem_true in Hm as [n Hn]. intros [= <- <- <-].
    rewrite Hn. split_and!; [done|by exists n|done].
  - apply dict_mem_false in Hm. intros [= <- <- <-]. split_and!.
    + intros h n Hh. rewrite dict_get_set, decide_False; [done|]. congruence.
    + rewrite dict_get_set, decide_True by done. eauto.
    + rewrite Hm. by intros [? ?].
Qed.

Lemma unique_licenses_fold pkgs ks : ∀ res hashes nc res' hashes' nc',
  (∀ k, k ∈ ks → is_Some (dict_get pkgs k)) →
  fold_left (unique_licenses_round pkgs) ks (res, hashes, nc) = (res', hashes', nc') →
  (∀ h n, dict_get hashes h = Some n → dict_get hashes' h = Some n) ∧
  (∀ k p, k ∈ ks → dict_get pkgs k = Some p →
          is_Some (dict_get hashes' (effective_hash p))) ∧
  res' = fold_left
           (λ r k, match dict_get pkgs k with
                   | Some p =>
                       dict_set r (ident p)
                         (default None (dict_get hashes' (effective_hash p)))
                   | None => r
                   end) ks res ∧
  ((∀ k p, k ∈ ks → dict_get pkgs k = Some p →
           is_Some (dict_get hashes (effective_hash p))) →
   hashes' = hashes ∧ nc' = nc).
Proof.
  induction ks as [|k ks IH]; intros res hashes nc res' hashes' nc' Hks;
    cbn [fold_left].
  { intros [= <- <- <-]. split_and!; try done. by intros k p ?%elem_of_nil. }
  destruct (Hks k ltac:(left)) as [p Hp].
  destruct (unique_licenses_round pkgs (res, hashes, nc) k) as [[res1 hashes1] nc1]
    eqn:Hround.
  destruct (unique_licenses_round_hashes _ _ _ _ _ _ _ _ _ Hp Hround)
    as (Hmono1 & (n & Hn & ->) & Hsame1).
  intros Hfold.
  destruct (IH _ _ _ _ _ _ (λ k' Hk', Hks k' (list_elem_of_further _ _ _ Hk')) Hfold)
    as (Hmono & Hall & -> & Hsame).
  split_and!.
  - auto.
  - intros k' p' [->|Hin]%elem_of_cons Hp'; [|by eapply Hall].
    assert (p' = p) as -> by congruence. exists n. by apply Hmono.
  - rewrite Hp, (Hmono _ _ Hn). done.
  - intros Hknown. destruct (Hsame1 (Hknown k p ltac:(left) Hp)) as [-> ->].
    apply Hsame. intros k' p' Hin. apply Hknown. by right.
Qed.

Lemma setter_fold {V} (G : string → V) ks : ∀ r : dict V,
  NoDup ks → (∀ k, k ∈ ks → dict_get r k = None) →
  dict_keys (fold_left (λ r k, dict_set r k (G k)) ks r) = dict_keys r ++ ks ∧
  (∀ k, k ∈ ks →
        dict_get (fold_left (λ r k, dict_set r k (G k)) ks r) k = Some (G k)) ∧
  (∀ k, k ∉ ks →
        dict_get (fold_left (λ r k, dict_set r k (G k)) ks r) k = dict_get r k).
Proof.
  induction ks as [|k ks IH]; intros r Hnd Hfresh; simpl.
  { rewrite app_nil_r. split_and!; try done. by intros k ?%elem_of_nil. }
  apply NoDup_cons in Hnd as [Hk Hnd].
  destruct (IH (dict_set r k (G k)) Hnd) as (Hkeys & Hin & Hout).
  { intros k' Hk'. rewrite dict_get_set, decide_False by (by intros ->).
    apply Hfresh. by right. }
  split_and!.
  - rewrite Hkeys, dict_keys_set, (Hfresh k) by left. by rewrite <- app_assoc.
  - intros k' [->|Hk']%elem_of_cons; [|by apply Hin].
    rewrite (Hout k Hk), dict_get_set. by rewrite decide_True.
  - intros k' Hk'. apply not_elem_of_cons in Hk' as [Hne Hk'].
    rewrite (Hout k' Hk'), dict_get_set. by rewrite decide_False.
Qed.

(** X12. [unique_licenses] on a package map keyed by ident: the result has
    the keys of the map, in order; every package gets the identity that
    [hashes] holds for its hash afterwards, so two packages with the same
    hash get the same identity; identities that [hashes] held before the
    call are kept; and a second call with the dictionaries that the first
    one left (the mutable default arguments) returns the same result and
    leaves them as they are. *)
Theorem unique_licenses_by_hash (pkgs : dict Package)
    (hashes : dict (option string)) (names_count : gmap (option string) nat)
    (res' hashes' : dict (option string))
    (names_count' : gmap (option string) nat) :
  keyed_by_ident pkgs →
  unique_licenses pkgs hashes names_count = (res', hashes', names_count') →
  dict_keys res' = dict_keys pkgs ∧
  (∀ k p, dict_get pkgs k = Some p →
     ∃ n, dict_get res' k = Some n ∧
          dict_get hashes' (effective_hash p) = Some n) ∧
  (∀ a b pa pb,
     dict_get pkgs a = Some pa → dict_get pkgs b = Some pb →
     effective_hash pa = effective_hash pb →
     dict_get res' a = dict_get res' b) ∧
  (∀ h n, dict_get hashes h = Some n → dict_get hashes' h = Some n) ∧
  unique_licenses pkgs hashes' names_count' = (res', hashes', names_count').
Proof.
  intros [Hnd Hid] Hul. unfold unique_licenses in *.
  assert (∀ k, k ∈ dict_keys pkgs → is_Some (dict_get pkgs k)) as Hks.
  { intros k Hk. destruct (dict_get pkgs k) eqn:E; [done|].
    by apply dict_get_None in E. }
  assert (∀ k p, dict_get pkgs k = Some p → ident p = k) as Hid'.
  { intros k p Hp. by apply Hid, dict_get_elem_of. }
  destruct (unique_licenses_fold pkgs _ _ _ _ _ _ _ Hks Hul)
    as (Hmono & Hall & Hres & _).
  set (G := λ k, default None
                   (p ← dict_get pkgs k; dict_get hashes' (effective_hash p))).
  assert (∀ ks r, (∀ k, k ∈ ks → is_Some (dict_get pkgs k)) →
            fold_left
              (λ r k, match dict_get pkgs k with
                      | Some p =>
                          dict_set r (ident p)
                            (default None (dict_get hashes' (effective_hash p)))
                      | None => r
                      end) ks r
            = fold_left (λ r k, dict_set r k (G k)) ks r) as Hsetter.
  { induction ks as [|k ks IH]; intros r Hin; simpl; [done|].
    destruct (Hin k ltac:(left)) as [p Hp]. rewrite Hp, (Hid' _ _ Hp).
    unfold G at 2. rewrite Hp. simpl. apply IH. intros k' Hk'. apply Hin. by right. }
  rewrite Hsetter in Hres by done.
  destruct (setter_fold G (dict_keys pkgs) [] Hnd ltac:(done)) as (Hkeys & Hin & _).
  rewrite <- Hres in Hkeys, Hin.
  assert (∀ k p, dict_get pkgs k = Some p →
            ∃ n, dict_get res' k = Some n ∧
                 dict_get hashes' (effective_hash p) = Some n) as Hident.
  { intros k p Hp. destruct (Hall k p (dict_get_Some_keys _ _ _ Hp) Hp) as [n Hn].
    exists n. split; [|done]. rewrite (Hin k (dict_get_Some_keys _ _ _ Hp)).
    unfold G. rewrite Hp. simpl. by rewrite Hn. }
  split_and!; [done..| | done |].
  - intros a b pa pb Ha Hb E.
    destruct (Hident a pa Ha) as (na & -> & Hna).
    destruct (Hident b pb Hb) as (nb & -> & Hnb). congruence.
  - destruct (fold_left (unique_licenses_round pkgs) (dict_keys pkgs)
                ([], hashes', names_count')) as [[res2 hashes2] nc2] eqn:Hul2.
    destruct (unique_licenses_fold pkgs _ _ _ _ _ _ _ Hks Hul2)
      as (_ & _ & Hres2 & Hsame).
    destruct (Hsame Hall) as [-> ->].
    rewrite Hsetter in Hres2 by done. by rewrite Hres2, <- Hres.
Qed.

(** ** Hash strings, URLs and messages *)

(** X13. The hash string of a fetched body, [hex(hash(...))[2:]], is the
    lower-case hexadecimal digits of the absolute value of the hash, with
    an [x] in front when the hash is negative (the slice keeps one character
    of the prefix [-0x]); it is never the sentinel ["<unhashed>"], and two
    bodies get the same string exactly when [hash] agrees on their stripped
    texts. *)
Theorem license_hash_string {World} (P : Platform World) (r r' : Response) :
  let h := str_hash P (str_strip P (text r)) in
  hash_body P (Some r) =
    (if (h <? 0)%Z then "x" else "") +:+ Py.hex_digits h ∧
  hash_body P (Some r) ≠ hash_body P None ∧
  (hash_body P (Some r) = hash_body P (Some r') ↔
   h = str_hash P (str_strip P (text r'))).
Proof.
  cbv zeta. unfold hash_body. split_and!.
  - rewrite hex_slice. by destruct (_ <? _)%Z.
  - apply hex_slice_not_sentinel.
  - split; [apply hex_slice_inj | by intros ->].
Qed.

Lemma append_assoc (a b c : string) : (a +:+ b) +:+ c = a +:+ (b +:+ c).
Proof.
  induction a as [|x a IH]; [done|].
  change (String x ((a +:+ b) +:+ c) = String x (a +:+ (b +:+ c))).
  by rewrite IH.
Qed.


(** X14. [hackagify] gives distinct URLs to distinct packages, and the URL
    that the crawl derives for a dependency whose link goes to
    [/package/<name>] is the one that [hackagify] gives for [<name>]: the
    root and the dependencies are fetched from the same pages. *)
Theorem hackagify_dependency_url (ident : string) (acc : Props * list Event)
    (rule : Rule) :
  th_string rule = "Dependencies" →
  (∀ d, d ∈ spans rule →
        a_href (span_a d) = "/package/" +:+ a_string (span_a d)) →
  (∀ a b, hackagify a = hackagify b → a = b) ∧
  ∀ dident durl,
    (dident, durl) ∈ p_deps (scan_rule ident acc rule).1 →
    durl = hackagify dident.
Proof.
  intros Hth Hhref. split.
  { intros a b. apply string_append_inj_l. }
  intros dident durl. unfold scan_rule. destruct acc as [p out].
  rewrite Hth. simpl.
  intros (d & [= -> ->] & [_ Hd]%list_elem_of_filter)%list_elem_of_fmap.
  rewrite (Hhref d Hd). unfold hackagify, hackage.
  by rewrite <- append_assoc.
Qed.

Lemma scan_rules_warn_row ident page e :
  e ∈ (scan_rules ident page).2 →
  ∃ rule, rule ∈ rules page ∧ plain_license_row rule.
Proof.
  unfold scan_rules.
  assert (∀ rs acc, e ∈ (fold_left (scan_rule ident) rs acc).2 →
                    e ∈ acc.2 ∨ ∃ rule, rule ∈ rs ∧ plain_license_row rule) as Hgen.
  { induction rs as [|r rs IH]; intros acc; simpl; [auto|].
    intros [H|(rule & ? & ?)]%IH.
    - unfold scan_rule in H. destruct acc as [p out].
      destruct (decide (th_string r = "License")) as [Hl|Hl].
      + destruct (td_a r) eqn:Ha; simpl in H; [by left|].
        apply elem_of_app in H as [H|H]; [by left|].
        right. exists r. split; [left|done].
      + destruct (decide (th_string r = "Dependencies")); by left.
    - right. exists rule. split; [by right|done]. }
  intros H. apply Hgen in H as [H|H]; [|done]. by apply elem_of_nil in H.
Qed.

Section Messages.
Context {World : Type} (P : Platform World) (download : option string).

Lemma fetched_events ident license_url w body w' trl e :
  fetched P ident license_url w body w' trl → e ∈ trl →
  ∃ u r, e = GetLicense ident u r.
Proof.
  unfold fetched. destruct license_url as [u|].
  - intros (r & _ & _ & ->) ->%list_elem_of_singleton. eauto.
  - by intros (_ & _ & ->) ?%elem_of_nil.
Qed.

Lemma no_error_printed st m : reachable P download st → Error m ∉ trace st.
Proof.
  intros Hr. run_induction st Hr; [by intros ?%elem_of_nil|].
  round_cases Hrd; simpl; rewrite ?elem_of_app, ?list_elem_of_singleton.
  - intros [?|[=]]. done.
  - intros [[[?|[=]]|[=]]|[=]]. done.
  - intros [[[?|[=]]|[=]]|[Hw|Hl]]; [done| |].
    + replace warnings with (scan_rules ident (bs4_parse P (text html))).2 in Hw
        by (by rewrite Hscan).
      by apply scan_rules_events in Hw.
    + by destruct (fetched_events _ _ _ _ _ _ _ Hfetch Hl) as (? & ? & ?).
Qed.

(** X15. What a run prints besides the progress line. No error is printed
    in a run that goes on. Every warning has its cause in the trace: "Failed
    to get package" for a page request that was not answered with 200,
    and every such request is followed by that warning; "no URL given" for
    a page answered with 200 that has a License row without a link. The
    third warning of the source, "cannot verify license hash", is never
    printed. *)
Theorem warnings_have_a_cause (st : State World) :
  reachable P download st →
  (∀ m, Error m ∉ trace st) ∧
  (∀ k, Warn (warn_no_body k) ∉ trace st) ∧
  (∀ m, Warn m ∈ trace st →
     ∃ k u r, GetPage k u r ∈ trace st ∧
       ((m = warn_no_page k ∧ status_code r ≠ 200%Z) ∨
        (m = warn_no_url k ∧ status_code r = 200%Z ∧
         ∃ rule, rule ∈ rules (bs4_parse P (text r)) ∧ plain_license_row rule))) ∧
  (∀ k u r, GetPage k u r ∈ trace st → status_code r ≠ 200%Z →
            Warn (warn_no_page k) ∈ trace st).
Proof.
  intros Hr. split_and!.
  - intros m. by apply no_error_printed.
  - intros k. by apply (never_warns_no_body P download).
  - run_induction st Hr; [by intros m ?%elem_of_nil|].
    assert (∀ m delta,
              Warn m ∈ trace st →
              ∃ k u r, GetPage k u r ∈ trace st ++ delta ∧
                ((m = warn_no_page k ∧ status_code r ≠ 200%Z) ∨
                 (m = warn_no_url k ∧ status_code r = 200%Z ∧
                  ∃ rule, rule ∈ rules (bs4_parse P (text r)) ∧
                          plain_license_row rule))) as Hold.
    { intros m delta (k & u & r & Hin & Hc)%IH. exists k, u, r.
      split; [|done]. apply elem_of_app. by left. }
    intros m. round_cases Hrd; simpl; rewrite <- ?app_assoc;
      (intros [Hm|Hm]%elem_of_app; [by apply Hold|]).
    + by apply list_elem_of_singleton in Hm.
    + exists ident, url, html.
      split; [rewrite !elem_of_app, !list_elem_of_singleton; auto|].
      left. split; [|done].
      rewrite !elem_of_app, !list_elem_of_singleton in Hm.
      by destruct Hm as [[=]|[[=]|[= ->]]].
    + exists ident, url, html.
      split; [rewrite !elem_of_app, !list_elem_of_singleton; auto|].
      right. rewrite !elem_of_app, !list_elem_of_singleton in Hm.
      destruct Hm as [[=]|[[=]|[Hw|Hl]]].
      * replace warnings with (scan_rules ident (bs4_parse P (text html))).2 in Hw
          by (by rewrite Hscan).
        pose proof (scan_rules_events _ _ _ Hw) as [= ->].
        apply scan_rules_warn_row in Hw. done.
      * by destruct (fetched_events _ _ _ _ _ _ _ Hfetch Hl) as (? & ? & ?).
  - run_induction st Hr; [by intros k u r ?%elem_of_nil|].
    intros k u r. round_cases Hrd; simpl;
      rewrite ?elem_of_app, ?list_elem_of_singleton.
    + intros [Hin'|[=]] Hbad'. left. by eapply IH.
    + intros [[[Hin'|[=]]|[= -> -> ->]]|[=]] Hbad'; [|by right].
      left. left. left. by eapply IH.
    + intros [[[Hin'|[=]]|[= -> -> ->]]|[Hw|Hl]] Hbad'; [|done| |].
      * left. left. left. by eapply IH.
      * replace warnings with (scan_rules ident (bs4_parse P (text html))).2 in Hw
          by (by rewrite Hscan).
        by apply scan_rules_events in Hw.
      * by destruct (fetched_events _ _ _ _ _ _ _ Hfetch Hl) as (? & ? & ?).
Qed.

(** X16. Whenever [scrape] returns, the tree it returns is the empty list;
    the two maps are those of the last state of the loop. *)
Theorem scrape_returns_empty_list (fuel : nat) (w : World) (ident url : string)
    (o : Outcome World) (pkgs : dict Package) (t : TreeValue)
    (ls : dict License) :
  scrape P download fuel w ident url = Some o →
  returned o = Some (pkgs, t, ls) →
  t = VList [] ∧
  ∃ st, o = Next st ∧ todo st = [] ∧ pkgs = res st ∧ ls = licenses st.
Proof.
  intros Hs. destruct o as [st|tr]; [|done]. simpl. intros [= <- <- <-].
  split; [by eapply returned_tree_empty|].
  exists st. by destruct (scrape_reachable _ _ _ _ _ _ _ Hs).
Qed.
End Messages.

(** ** The progress line and the ways to die *)

Section Progress.
Context {World : Type} (P : Platform World) (download : option string).

Lemma fetched_progress ident license_url w body w' trl :
  fetched P ident license_url w body w' trl → progress_lines trl = [].
Proof.
  unfold fetched. destruct license_url as [u|].
  - by intros (r & _ & _ & ->).
  - by intros (_ & _ & ->).
Qed.

(** What a round adds to the progress lines: one line, with the new value
    of [i] and the length of [todo] after the pop. *)
Lemma round_progress st st' :
  Round P download st st' →
  ∃ rest t, todo st = rest ++ [t] ∧ i st' = S (i st) ∧
    progress_lines (trace st') =
      progress_lines (trace st) ++ [(S (i st), S (i st) + length rest)] ∧
    ∃ new, todo st' = rest ++ new.
Proof.
  intros Hrd. unfold progress_lines. round_cases Hrd; simpl.
  - exists rest, (ident, url, l). rewrite omap_app. split_and!; try done.
    exists []. by rewrite app_nil_r.
  - exists rest, (ident, url, l). rewrite !omap_app. simpl. rewrite !app_nil_r.
    split_and!; try done. exists []. by rewrite app_nil_r.
  - exists rest, (ident, url, l). rewrite !omap_app. simpl.
    replace warnings with (scan_rules ident (bs4_parse P (text html))).2
      by (by rewrite Hscan).
    rewrite (omap_warnings_None progress) by done.
    pose proof (fetched_progress _ _ _ _ _ _ Hfetch) as Hp.
    unfold progress_lines in Hp. rewrite Hp, !app_nil_r.
    split_and!; try done.
    assert (∀ deps hp td hp' td',
              fold_left (push_dep l) deps (hp, td) = (hp', td') →
              ∃ new, td' = td ++ new) as Hgen.
    { induction deps as [|[dident durl] deps IH]; intros hp td hp' td'; simpl.
      - intros [= <- <-]. exists []. by rewrite app_nil_r.
      - intros (new & ->)%IH. eexists. by rewrite <- app_assoc. }
    by apply Hgen in Hpush.
Qed.

(** X17. The progress line is printed once per item popped from [todo],
    also for an item that is skipped because its ident was visited: the
    lines are numbered 1, 2, ... up to [i], the total shown is never below
    the number, no more pages are requested than lines are printed, and
    when the loop ends the last line printed reads [i/i]. *)
Theorem progress_counts_rounds (st : State World) :
  reachable P download st →
  (progress_lines (trace st)).*1 = seq 1 (i st) ∧
  Forall (λ line, line.1 ≤ line.2) (progress_lines (trace st)) ∧
  length (fetched_pages (trace st)) ≤ i st ∧
  (todo st = [] → last (progress_lines (trace st)) = Some (i st, i st)).
Proof.
  intros Hr. run_induction st Hr.
  { split_and!; try done; apply Forall_nil. }
  destruct IH as (IHn & IHt & IHp & _).
  destruct (round_progress st st' Hrd) as (rest & t & Htodo & -> & -> & new & Hnew).
  split_and!.
  - rewrite fmap_app, IHn, seq_S. done.
  - apply Forall_app. split; [done|]. apply Forall_singleton. simpl. lia.
  - destruct (round_pages P download st st' Hrd) as [[-> _]|(k & -> & _)].
    + lia.
    + rewrite length_app. simpl. lia.
  - intros E. rewrite E in Hnew. symmetry in Hnew.
    apply app_eq_nil in Hnew as [-> _]. rewrite last_snoc. simpl.
    by rewrite Nat.add_0_r.
Qed.

(** What a round that dies has printed: nothing that is an error, or one
    error, last, for a call of the file system that failed. *)
Lemma step_Fatal_error st tr :
  step P download st = Some (Fatal tr) →
  ∃ delta, (∀ m, Error m ∉ delta) ∧
    (tr = trace st ++ delta ∨
     ∃ d m, download = Some d ∧ disk_error P d m ∧
            tr = (trace st ++ delta) ++ [Error m]).
Proof.
  unfold step. destruct (Py.pop (todo st)) as [[rest [[ident url] l]]|]; [|done].
  unfold body. simpl.
  destruct (decide (ident ∈ done st)) as [Hin|Hnin]; [done|].
  destruct (ensure_download P download (world st)) as [out|w1] eqn:Hens.
  { intros [= <-]. unfold ensure_download in Hens.
    destruct download as [d|]; [|done].
    destruct (os_path_exists P (world st) d); [done|].
    destruct (os_makedirs P (world st) d) as [e|] eqn:Hmk; [|done].
    injection Hens as <-.
    exists [Progress (S (i st)) (S (i st + length rest))]. split; [|right].
    - by intros m [=]%list_elem_of_singleton.
    - exists d. eexists. split; [done|]. split; [|done]. left. eauto. }
  destruct (requests_get P w1 url) as [html w2].
  destruct (decide (status_code html ≠ 200%Z)) as [Hbad|Hok]; [done|].
  apply dec_stable in Hok.
  destruct (scan_rules ident (bs4_parse P (text html))) as [props warnings] eqn:Hscan.
  destruct (fetch_license P ident html (p_license_url props) w2)
    as [[lbody w3] trl] eqn:Hfetch.
  apply (fetch_license_fetched _ _ _ _ _ _ _ _ Hok) in Hfetch.
  destruct (register P download ident (p_license props) lbody
              (hash_body P lbody) (licenses st) w3) as [out|[licenses1 w4]] eqn:Hreg.
  2: { by destruct (fold_left (push_dep l) (p_deps props) (heap st, rest)). }
  intros [= <-].
  assert (∀ m, Error m ∉ [Progress (S (i st)) (S (i st + length rest));
                           GetPage ident url html] ++ warnings ++ trl) as Hclean.
  { intros m. rewrite !elem_of_app, !elem_of_cons, elem_of_nil.
    intros [[[=]|[[=]|[]]]|[Hw|Hl]].
    - replace warnings with (scan_rules ident (bs4_parse P (text html))).2 in Hw
        by (by rewrite Hscan).
      by apply scan_rules_events in Hw.
    - by destruct (fetched_events P _ _ _ _ _ _ _ Hfetch Hl) as (? & ? & ?). }
  assert (((trace st ++ [Progress (S (i st)) (S (i st + length rest))])
           ++ [GetPage ident url html]) ++ warnings ++ trl
          = trace st ++ [Progress (S (i st)) (S (i st + length rest));
                         GetPage ident url html] ++ warnings ++ trl) as Htr.
  { by rewrite <- !app_assoc. }
  eexists. split; [exact Hclean|].
  unfold register in Hreg. destruct (dict_mem _ _); [done|].
  destruct (license_path P download ident (p_license props) w3)
    as [out'|[pth w5]] eqn:Hpath.
  - injection Hreg as <-. unfold license_path in Hpath.
    destruct download as [d|]; [|done].
    destruct (p_license props) as [lic|] eqn:Hlic.
    + destruct (os_path_exists _ _ _); [done|].
      destruct (os_makedirs _ _ _) as [e|] eqn:Hmk; [|done]. injection Hpath as <-.
      right. exists d. eexists. split; [done|]. rewrite Htr. split; [|done].
      right. left. eauto.
    + injection Hpath as <-. left. by rewrite app_nil_r, Htr.
  - destruct lbody as [b|], pth as [pt|]; try done.
    destruct (write_file _ _ _ _) as [e|] eqn:Hwr; [|done]. injection Hreg as <-.
    unfold license_path in Hpath. destruct download as [d|]; [|done].
    right. exists d. eexists. split; [done|]. rewrite Htr. split; [|done].
    right. right. eauto 10.
Qed.

(** X18. The errors that a run of [scrape] prints. A run that returns has
    printed none. A run that dies has printed at most one, as the last
    thing it printed, and only when a download folder was given: the error
    reports an [os.makedirs] or a writing of a license text that failed.
    (A death that prints no error, such as an exception of [requests.get]
    or of the parser, leaves this as it is.) *)
Theorem errors_come_from_the_disk (fuel : nat) (w : World) (ident url : string)
    (o : Outcome World) :
  scrape P download fuel w ident url = Some o →
  match o with
  | Next st => ∀ m, Error m ∉ trace st
  | Fatal tr =>
      ∀ m, Error m ∈ tr →
        ∃ d pre, download = Some d ∧ disk_error P d m ∧
                 tr = pre ++ [Error m] ∧ ∀ m', Error m' ∉ pre
  end.
Proof.
  intros Hs.
  pose proof (loop_reachable P download _ _ _
                (reachable_init P download w ident url) Hs) as Ho.
  destruct o as [st|tr].
  { destruct Ho as [Hr _]. intros m. by apply (no_error_printed P download). }
  destruct Ho as (st0 & Hr & Hstep).
  destruct (step_Fatal_error st0 tr Hstep)
    as (delta & Hclean & [->|(d & m0 & Hd & Herr & ->)]); intros m Hm.
  - exfalso. apply elem_of_app in Hm as [Hm|Hm]; [|by apply (Hclean m)].
    by apply (no_error_printed P download st0 m).
  - assert (∀ m', Error m' ∉ trace st0 ++ delta) as Hpre.
    { intros m' [Hin|Hin]%elem_of_app; [|by apply (Hclean m')].
      by apply (no_error_printed P download st0 m'). }
    apply elem_of_app in Hm as [Hm|[= ->]%list_elem_of_singleton];
      [by apply Hpre in Hm|].
    by exists d, (trace st0 ++ delta).
Qed.
End Progress.

(** ** The report of a crawl *)

Lemma used_by_spec pkgs t k :
  k ∈ used_by pkgs t ↔ ∃ p, dict_get pkgs k = Some p ∧ license p = t.
Proof.
  unfold used_by. rewrite list_elem_of_filter. split.
  - intros [Hl Hk]. destruct (dict_get pkgs k) as [p|]; [|done].
    exists p. split; [done|]. simpl in Hl. congruence.
  - intros (p & Hp & <-). rewrite Hp. split; [done|].
    by eapply dict_get_Some_keys.
Qed.

Lemma listed_sections show_list trim pkgs licenses k :
  k ∈ listed (sections show_list trim pkgs licenses) ↔
  ∃ t, t ∈ license_types licenses ∧ k ∈ used_by pkgs t.
Proof.
  unfold listed, sections. rewrite <- list_fmap_compose. simpl.
  rewrite elem_of_concat. split.
  - intros (l & (t & -> & Ht)%list_elem_of_fmap & Hk). eauto.
  - intros (t & Ht & Hk). exists (used_by pkgs t). split; [|done].
    apply list_elem_of_fmap. eauto.
Qed.

Lemma listed_NoDup show_list trim pkgs licenses :
  NoDup (dict_keys pkgs) → NoDup (listed (sections show_list trim pkgs licenses)).
Proof.
  intros Hnd. unfold listed, sections. rewrite <- list_fmap_compose.
  pose proof (NoDup_elements
                (list_to_set ((λ kv : string * License, type kv.2) <$> licenses)
                 : gset (option string))) as Hty.
  fold (license_types licenses) in Hty.
  induction (license_types licenses) as [|t ts IH]; simpl; [apply NoDup_nil_2|].
  apply NoDup_cons in Hty as [Ht Hts].
  apply NoDup_app. split_and!.
  - unfold used_by. by apply NoDup_filter.
  - intros k (p & Hp & Hl)%used_by_spec
           (l & (t' & -> & Ht')%list_elem_of_fmap & Hk)%elem_of_concat.
    simpl in Hk. apply used_by_spec in Hk as (p' & Hp' & Hl').
    apply Ht. congruence.
  - by apply IH.
Qed.

Lemma section_lines_length colors s :
  length (section_lines colors s) = 4 + length s.2.
Proof.
  unfold section_lines. rewrite !length_app, length_fmap. simpl. lia.
Qed.

Lemma report_length colors show_list trim pkgs licenses :
  length (report colors show_list trim pkgs licenses) =
  4 * length (sections show_list trim pkgs licenses)
  + length (listed (sections show_list trim pkgs licenses)).
Proof.
  unfold report, listed.
  induction (sections show_list trim pkgs licenses) as [|s secs IH]; [done|].
  rewrite !fmap_cons. cbn [concat]. rewrite !length_app, section_lines_length, IH.
  cbn [length]. lia.
Qed.

Section Report.
Context {World : Type} (P : Platform World).

(** X19. What [main] writes after a crawl that returns: the sections of the
    final package and license maps. No package is listed twice, only
    packages of the map are listed, a package is listed exactly when some
    License entry has its declared license as type, which is the case for
    the first package of every License entry, and the report has four
    lines per section and one per listed package. *)
Theorem main_lists_each_package_once (fuel : nat) (w : World)
    (package : string) (download : option string)
    (colors show_list trim : bool) (lines : list string) :
  main P fuel w package download colors show_list trim = Some lines →
  ∃ st, scrape P download fuel w package (hackagify package) = Some (Next st) ∧
    let secs := sections show_list trim (res st) (licenses st) in
    lines = concat (section_lines colors <$> secs) ∧
    NoDup (listed secs) ∧
    (∀ k, k ∈ listed secs ↔
          ∃ p h L, dict_get (res st) k = Some p ∧
                   dict_get (licenses st) h = Some L ∧ type L = license p) ∧
    (∀ h L, dict_get (licenses st) h = Some L →
            ∃ k0, head (packages L) = Some k0 ∧ k0 ∈ listed secs) ∧
    length lines = 4 * length secs + length (listed secs).
Proof.
  unfold main.
  destruct (scrape P download fuel w package (hackagify package))
    as [[st|]|] eqn:Hs; [|done..].
  intros [= <-]. exists st. split; [done|].
  destruct (scrape_reachable _ _ _ _ _ _ _ Hs) as [Hr _]. cbv zeta.
  assert (∀ t, t ∈ license_types (licenses st) ↔
               ∃ h L, dict_get (licenses st) h = Some L ∧ type L = t) as Hty.
  { intros t. unfold license_types.
    rewrite elem_of_elements, elem_of_list_to_set, list_elem_of_fmap. split.
    - intros [[h L] [-> Hin]]. exists h, L. split; [|done].
      apply dict_get_NoDup; [|done]. by apply (licenses_NoDup P download).
    - intros (h & L & HL & <-). exists (h, L). split; [done|].
      by apply dict_get_elem_of. }
  assert (∀ k, k ∈ listed (sections show_list trim (res st) (licenses st)) ↔
               ∃ p h L, dict_get (res st) k = Some p ∧
                        dict_get (licenses st) h = Some L ∧ type L = license p)
    as Hlisted.
  { intros k. rewrite listed_sections. split.
    - intros (t & (h & L & HL & <-)%Hty & (p & Hp & Hl)%used_by_spec).
      by exists p, h, L.
    - intros (p & h & L & Hp & HL & Hl). exists (type L). split.
      + apply Hty. eauto.
      + apply used_by_spec. eauto. }
  split_and!.
  - done.
  - apply listed_NoDup. by apply (res_NoDup P download).
  - exact Hlisted.
  - intros h L HL.
    destruct (license_entry_invariant P download st h L Hr HL)
      as (_ & k0 & rest & p0 & Hpk & Hp0 & Hl0 & _).
    exists k0. rewrite Hpk. split; [done|]. apply Hlisted. by exists p0, h, L.
  - apply report_length.
Qed.
End Report.

(** ** Where the license files go *)

Lemma os_path_join_relative (a b : string) :
  String.prefix "/" b = false → Py.os_path_join a b = as_dir a +:+ b.
Proof.
  intros Hb. unfold Py.os_path_join, as_dir, ends_with_slash. rewrite Hb.
  destruct (String.eqb a ""); [done|].
  destruct (String.eqb _ "/"); [done|]. by rewrite append_assoc.
Qed.

Lemma os_path_join_absolute (a b : string) :
  String.prefix "/" b = true → Py.os_path_join a b = b.
Proof. intros Hb. unfold Py.os_path_join. by rewrite Hb. Qed.

Lemma slice_from_append (x l : string) (m : nat) :
  Py.slice_from (String.length x + m) (x +:+ l) = Py.slice_from m l.
Proof. induction x as [|c x IH]; [done|]. exact IH. Qed.

Lemma ends_with_slash_append (x l : string) :
  l ≠ "" → ends_with_slash (x +:+ l) = ends_with_slash l.
Proof.
  intros Hl. unfold ends_with_slash. rewrite string_length_append.
  replace (String.length x + String.length l - 1)
    with (String.length x + (String.length l - 1)).
  - by rewrite slice_from_append.
  - destruct l; [done|]. simpl. lia.
Qed.

Lemma append_nonempty (x l : string) : l ≠ "" → String.eqb (x +:+ l) "" = false.
Proof.
  intros Hl. apply String.eqb_neq. intros H.
  apply (f_equal String.length) in H. rewrite string_length_append in H.
  destruct l; [done|]. simpl in H. lia.
Qed.

(** The path of three plain names. *)
Lemma os_path_join_twice (d l k : string) :
  l ≠ "" → String.prefix "/" l = false → ends_with_slash l = false →
  String.prefix "/" k = false →
  Py.os_path_join (Py.os_path_join d l) k = as_dir d +:+ l +:+ "/" +:+ k.
Proof.
  intros Hl Hrel Hend Hk.
  rewrite (os_path_join_relative d l Hrel), (os_path_join_relative _ k Hk).
  unfold as_dir at 1.
  rewrite (append_nonempty _ l Hl), (ends_with_slash_append _ l Hl), Hend.
  by rewrite !append_assoc.
Qed.

Section Download.
Context {World : Type} (P : Platform World).

(** X20. With a download folder every License entry has a type and a path,
    and the path is what [os.path.join] leaves of the folder, the type and
    the first package of the entry, none of them changed: the text
    [folder/type/package] when the type is not empty and neither begins nor
    ends with a slash and the package name does not begin with one (the
    folder without a second slash when it ends with one, and without any
    when it is empty); a type that begins with a slash takes the place of
    the folder; a package name that begins with a slash is itself the
    path. *)
Theorem license_path_is_joined_verbatim (d : string) (st : State World)
    (h : string) (L : License) :
  reachable P (Some d) st →
  dict_get (licenses st) h = Some L →
  ∃ l k0 p,
    type L = Some l ∧ head (packages L) = Some k0 ∧ path L = Some p ∧
    p = Py.os_path_join (Py.os_path_join d l) k0 ∧
    (l ≠ "" → String.prefix "/" l = false → ends_with_slash l = false →
     String.prefix "/" k0 = false →
     p = as_dir d +:+ l +:+ "/" +:+ k0) ∧
    (String.prefix "/" l = true → String.prefix "/" k0 = false →
     p = as_dir l +:+ k0) ∧
    (String.prefix "/" k0 = true → p = k0).
Proof.
  intros Hr HL.
  destruct (license_entry_invariant P (Some d) st h L Hr HL)
    as (_ & k0 & rest & p0 & Hpk & _ & _ & Hpath & Hty).
  destruct (type L) as [l|] eqn:Hl; [|by destruct Hty].
  exists l, k0, (Py.os_path_join (Py.os_path_join d l) k0).
  rewrite Hpk. split_and!; try done.
  - apply os_path_join_twice.
  - intros Habs Hk. rewrite (os_path_join_absolute d l Habs).
    by apply os_path_join_relative.
  - apply os_path_join_absolute.
Qed.
End Download.

(** ** The further properties on the demo registry *)

Lemma demo_app_crawl :
  crawl Demo.hackage1 None tt "app" (Demo.page_url "app") Demo.app_final.
Proof.
  apply (scrape_crawl Demo.hackage1 None 20). vm_compute. reflexivity.
Defined.

Lemma demo_app_downloaded :
  reachable Demo.hackage1 (Some "licenses") Disk.app_downloaded.
Proof.
  apply (scrape_reachable Demo.hackage1 (Some "licenses") 20 tt "app"
           (Demo.page_url "app")).
  vm_compute. reflexivity.
Defined.

Lemma demo_deps_within : deps_within Demo.hackage1 Disk.idents.
Proof.
  intros html ident d. unfold Demo.hackage1, Demo.platform. cbn [bs4_parse].
  unfold Demo.pages. cbn [dict_get].
  repeat (case_decide; [vm_compute; intros Hin;
    repeat (apply elem_of_cons in Hin as [->|Hin]; [vm_compute; reflexivity|]);
    by apply elem_of_nil in Hin |]).
  vm_compute. intros Hin. by apply elem_of_nil in Hin.
Defined.

Lemma demo_two_rounds : reachable Demo.hackage1 None (Disk.after_rounds 2).
Proof.
  apply (reachable_step _ _ (Disk.after_rounds 1)); [|by vm_compute].
  apply (reachable_step _ _ (Disk.after_rounds 0)); [|by vm_compute].
  apply reachable_init.
Defined.

Lemma packages_are_answered_pages_witness :
  reachable Demo.hackage1 None Demo.app_final ∧
  (∀ k, k ∈ done Demo.app_final ↔ k ∈ fetched_pages (trace Demo.app_final)).
Proof.
  split; [exact demo_app_reachable|].
  exact (proj1 (packages_are_answered_pages Demo.hackage1 None Demo.app_final
                  demo_app_reachable)).
Defined.

Lemma license_hash_by_url_witness :
  reachable Demo.hackage1 None Demo.app_final ∧
  (∀ k u r, GetLicense k u r ∈ trace Demo.app_final →
     ∃ p, dict_get (res Demo.app_final) k = Some p ∧ license_url p = Some u).
Proof.
  split; [exact demo_app_reachable|].
  exact (proj2 (license_hash_by_url Demo.hackage1 None Demo.app_final
                  demo_app_reachable)).
Defined.

Lemma license_entries_wellformed_witness :
  let L := {| name := Some "MIT"; type := Some "MIT"; shash := "1c";
              path := None; packages := ["app"; "lib1"] |} in
  reachable Demo.hackage1 None Demo.app_final ∧
  dict_get (licenses Demo.app_final) "1c" = Some L ∧
  shash L = "1c".
Proof.
  intros L.
  assert (dict_get (licenses Demo.app_final) "1c" = Some L) as HL
    by (vm_compute; reflexivity).
  split; [exact demo_app_reachable|]. split; [exact HL|].
  exact (proj1 (license_entries_wellformed Demo.hackage1 None Demo.app_final
                  "1c" L demo_app_reachable HL)).
Defined.

Lemma children_lists_form_a_tree_witness :
  reachable Demo.hackage1 None Demo.app_final ∧
  (concat (heap Demo.app_final)).*2 ≡ₚ seq 1 (length (heap Demo.app_final) - 1).
Proof.
  split; [exact demo_app_reachable|].
  exact (proj1 (proj2 (children_lists_form_a_tree Demo.hackage1 None
                         Demo.app_final demo_app_reachable))).
Defined.

Lemma children_lists_hold_dependencies_witness :
  let cs := [("lib1", 1); ("lib2", 2); ("gone", 3)] in
  crawl Demo.hackage1 None tt "app" (Demo.page_url "app") Demo.app_final ∧
  heap Demo.app_final !! 0 = Some cs ∧
  ∃ k, ((0 = 0 ∧ k = "app") ∨ (k, 0) ∈ concat (heap Demo.app_final)) ∧
       node_page Demo.hackage1 (trace Demo.app_final) k cs.
Proof.
  intros cs.
  assert (heap Demo.app_final !! 0 = Some cs) as Hcs by (vm_compute; reflexivity).
  split; [exact demo_app_crawl|]. split; [exact Hcs|].
  exact (children_lists_hold_dependencies Demo.hackage1 None tt "app"
           (Demo.page_url "app") Demo.app_final 0 cs demo_app_crawl Hcs
           ltac:(discriminate)).
Defined.

Lemma rounds_only_add_witness :
  reachable Demo.hackage1 None (Disk.after_rounds 2) ∧
  rtc (next Demo.hackage1 None) (Disk.after_rounds 2) Demo.app_final ∧
  dict_keys (res (Disk.after_rounds 2)) = ["app"] ∧
  dict_keys (res (Disk.after_rounds 2)) `prefix_of` dict_keys (res Demo.app_final).
Proof.
  assert (rtc (next Demo.hackage1 None) (Disk.after_rounds 2) Demo.app_final)
    as Hrtc.
  { apply (loop_rounds Demo.hackage1 None 20). vm_compute. reflexivity. }
  split; [exact demo_two_rounds|]. split; [exact Hrtc|].
  split; [vm_compute; reflexivity|].
  exact (proj1 (proj2 (proj2 (proj2
           (rounds_only_add Demo.hackage1 None (Disk.after_rounds 2)
              Demo.app_final demo_two_rounds Hrtc))))).
Defined.

Lemma demo_app_ident : "app" ∈ Disk.idents.
Proof. vm_compute. reflexivity. Defined.

Lemma scrape_terminates_witness :
  deps_within Demo.hackage1 Disk.idents ∧ "app" ∈ Disk.idents ∧
  ∃ fuel o, ∀ fuel', fuel ≤ fuel' →
    scrape Demo.hackage1 None fuel' tt "app" (Demo.page_url "app") = Some o.
Proof.
  split; [exact demo_deps_within|]. split; [exact demo_app_ident|].
  exact (scrape_terminates Demo.hackage1 None Disk.idents tt "app"
           (Demo.page_url "app") demo_deps_within demo_app_ident).
Defined.

Lemma requests_bounded_witness :
  deps_within Demo.hackage1 Disk.idents ∧ "app" ∈ Disk.idents ∧
  crawl Demo.hackage1 None tt "app" (Demo.page_url "app") Demo.app_final ∧
  length (fetched_pages (trace Demo.app_final)) ≤ size Disk.idents.
Proof.
  split; [exact demo_deps_within|]. split; [exact demo_app_ident|].
  split; [exact demo_app_crawl|].
  exact (proj1 (requests_bounded Demo.hackage1 None Disk.idents tt "app"
                  (Demo.page_url "app") Demo.app_final demo_deps_within
                  demo_app_ident demo_app_crawl)).
Defined.

Lemma root_page_failure_witness :
  requests_get Demo.hackage1 tt (hackagify "gone") = (Demo.not_found, tt) ∧
  status_code Demo.not_found ≠ 200%Z ∧
  main Demo.hackage1 2 tt "gone" None false false false = Some [].
Proof.
  split; [reflexivity|]. split; [discriminate|].
  exact (proj2 (root_page_failure Demo.hackage1 None tt tt tt "gone"
                  Demo.not_found 2 false false false eq_refl eq_refl
                  ltac:(discriminate) (le_n 2))).
Defined.

Lemma single_package_crawl_witness :
  requests_get Demo.hackage1 tt (hackagify "tool") = (Demo.ok "<tool>", tt) ∧
  p_deps (scan_rules "tool" (bs4_parse Demo.hackage1 "<tool>")).1 = [] ∧
  main Demo.hackage1 2 tt "tool" None false false false =
    Some (section_lines false (Some "MIT", ["tool"])).
Proof.
  split; [reflexivity|]. split; [reflexivity|].
  exact (proj2 (single_package_crawl Demo.hackage1 tt tt "tool"
                  (Demo.ok "<tool>") 2 false false false eq_refl eq_refl
                  eq_refl (le_n 2))).
Defined.

Lemma demo_keyed : keyed_by_ident Disk.three_packages.
Proof.
  split.
  - unfold Disk.three_packages, dict_keys. cbn [fmap list_fmap fst].
    repeat (apply NoDup_cons; split;
            [rewrite ?elem_of_cons, elem_of_nil; intros H;
             repeat destruct H as [H|H]; discriminate || exact H|]).
    apply NoDup_nil_2.
  - intros k p Hin. unfold Disk.three_packages in Hin.
    repeat (apply elem_of_cons in Hin as [[= -> ->]|Hin]; [reflexivity|]).
    by apply elem_of_nil in Hin.
Defined.

Lemma unique_licenses_by_hash_witness :
  let result := unique_licenses Disk.three_packages [] ∅ in
  keyed_by_ident Disk.three_packages ∧
  result.1 = ([("a", Some "MIT"); ("b", Some "MIT(1)"); ("c", Some "MIT")],
              [("1f", Some "MIT"); ("2e", Some "MIT(1)")]) ∧
  unique_licenses Disk.three_packages result.1.2 result.2 = result.
Proof.
  intros result.
  assert (unique_licenses Disk.three_packages [] ∅
          = (result.1.1, result.1.2, result.2)) as Hres.
  { fold result. by destruct result as [[? ?] ?]. }
  split; [exact demo_keyed|]. split; [vm_compute; reflexivity|].
  rewrite (proj2 (proj2 (proj2 (proj2
             (unique_licenses_by_hash Disk.three_packages [] ∅ result.1.1
                result.1.2 result.2 demo_keyed Hres))))).
  by destruct result as [[? ?] ?].
Defined.

Lemma hackagify_dependency_url_witness :
  let rule := Demo.dependencies ["lib1"; "lib2"] in
  let start := ({| p_license := None; p_license_url := None; p_deps := [] |}, []) in
  th_string rule = "Dependencies" ∧
  p_deps (scan_rule "app" start rule).1
    = [("lib1", hackagify "lib1"); ("lib2", hackagify "lib2")] ∧
  ∀ dident durl,
    (dident, durl) ∈ p_deps (scan_rule "app" start rule).1 →
    durl = hackagify dident.
Proof.
  intros rule start. split; [reflexivity|]. split; [reflexivity|].
  refine (proj2 (hackagify_dependency_url "app" start rule eq_refl _)).
  intros d Hd. unfold rule, Demo.dependencies in Hd. cbn [spans fmap list_fmap] in Hd.
  repeat (apply elem_of_cons in Hd as [->|Hd]; [reflexivity|]).
  by apply elem_of_nil in Hd.
Defined.

Lemma warnings_have_a_cause_witness :
  reachable Demo.hackage1 None Demo.app_final ∧
  warnings_of (trace Demo.app_final)
    = [warn_no_page "gone"; warn_no_url "base"] ∧
  (∀ k u r, GetPage k u r ∈ trace Demo.app_final → status_code r ≠ 200%Z →
            Warn (warn_no_page k) ∈ trace Demo.app_final).
Proof.
  split; [exact demo_app_reachable|]. split; [vm_compute; reflexivity|].
  exact (proj2 (proj2 (proj2 (warnings_have_a_cause Demo.hackage1 None
                                Demo.app_final demo_app_reachable)))).
Defined.

Lemma scrape_returns_empty_list_witness :
  scrape Demo.hackage1 None 20 tt "app" (Demo.page_url "app")
    = Some (Next Demo.app_final) ∧
  read_tree (heap Demo.app_final) (tree Demo.app_final) = VList [].
Proof.
  assert (scrape Demo.hackage1 None 20 tt "app" (Demo.page_url "app")
          = Some (Next Demo.app_final)) as Hs by (vm_compute; reflexivity).
  split; [exact Hs|].
  exact (proj1 (scrape_returns_empty_list Demo.hackage1 None 20 tt "app"
                  (Demo.page_url "app") (Next Demo.app_final)
                  (res Demo.app_final)
                  (read_tree (heap Demo.app_final) (tree Demo.app_final))
                  (licenses Demo.app_final) Hs eq_refl)).
Defined.

Lemma progress_counts_rounds_witness :
  reachable Demo.hackage1 None Demo.app_final ∧
  progress_lines (trace Demo.app_final)
    = [(1, 1); (2, 4); (3, 4); (4, 5); (5, 5); (6, 7); (7, 7)] ∧
  (progress_lines (trace Demo.app_final)).*1 = seq 1 (i Demo.app_final).
Proof.
  split; [exact demo_app_reachable|]. split; [vm_compute; reflexivity|].
  exact (proj1 (progress_counts_rounds Demo.hackage1 None Demo.app_final
                  demo_app_reachable)).
Defined.

Lemma errors_come_from_the_disk_witness :
  let m := "Failed to create license download folder 'licenses': Read-only file system" in
  scrape Disk.read_only (Some "licenses") 20 tt "app" (Demo.page_url "app")
    = Some (Fatal [Progress 1 1; Error m]) ∧
  ∃ d pre, Some "licenses" = Some d ∧ disk_error Disk.read_only d m ∧
           [Progress 1 1; Error m] = pre ++ [Error m] ∧ ∀ m', Error m' ∉ pre.
Proof.
  intros m.
  assert (scrape Disk.read_only (Some "licenses") 20 tt "app" (Demo.page_url "app")
          = Some (Fatal [Progress 1 1; Error m])) as Hs by (vm_compute; reflexivity).
  split; [exact Hs|].
  apply (errors_come_from_the_disk Disk.read_only (Some "licenses") 20 tt "app"
           (Demo.page_url "app") (Fatal [Progress 1 1; Error m]) Hs m).
  apply (list_elem_of_lookup_2 _ 1). reflexivity.
Defined.

Lemma Some_Next_inj {World} (st st' : State World) :
  Some (Next st) = Some (Next st') → st = st'.
Proof. by intros [= ->]. Qed.

Lemma main_lists_each_package_once_witness :
  let lines := report false false false (res Demo.app_final)
                 (licenses Demo.app_final) in
  main Demo.hackage1 20 tt "app" None false false false = Some lines ∧
  length lines = 12 ∧
  NoDup (listed (sections false false (res Demo.app_final)
                   (licenses Demo.app_final))).
Proof.
  intros lines.
  assert (main Demo.hackage1 20 tt "app" None false false false = Some lines)
    as Hm by (vm_compute; reflexivity).
  split; [exact Hm|]. split; [vm_compute; reflexivity|].
  destruct (main_lists_each_package_once Demo.hackage1 20 tt "app" None
              false false false lines Hm) as (st & Hs & _ & Hnd & _).
  assert (scrape Demo.hackage1 None 20 tt "app" (hackagify "app")
          = Some (Next Demo.app_final)) as Hs' by (vm_compute; reflexivity).
  pose proof (Some_Next_inj _ _ (eq_trans (eq_sym Hs) Hs')) as ->. exact Hnd.
Defined.

Lemma license_path_is_joined_verbatim_witness :
  let L := {| name := Some "MIT"; type := Some "MIT"; shash := "1c";
              path := Some "licenses/MIT/app"; packages := ["app"; "lib1"] |} in
  reachable Demo.hackage1 (Some "licenses") Disk.app_downloaded ∧
  dict_get (licenses Disk.app_downloaded) "1c" = Some L ∧
  as_dir "licenses" +:+ "MIT" +:+ "/" +:+ "app" = "licenses/MIT/app" ∧
  ∃ l k0 p,
    type L = Some l ∧ head (packages L) = Some k0 ∧ path L = Some p ∧
    p = Py.os_path_join (Py.os_path_join "licenses" l) k0 ∧
    (l ≠ "" → String.prefix "/" l = false → ends_with_slash l = false →
     String.prefix "/" k0 = false →
     p = as_dir "licenses" +:+ l +:+ "/" +:+ k0) ∧
    (String.prefix "/" l = true → String.prefix "/" k0 = false →
     p = as_dir l +:+ k0) ∧
    (String.prefix "/" k0 = true → p = k0).
Proof.
  intros L.
  assert (dict_get (licenses Disk.app_downloaded) "1c" = Some L) as HL
    by (vm_compute; reflexivity).
  split; [exact demo_app_downloaded|]. split; [exact HL|].
  split; [reflexivity|].
  exact (license_path_is_joined_verbatim Demo.hackage1 "licenses"
           Disk.app_downloaded "1c" L demo_app_downloaded HL).
Defined.
